(** * PatternMatch: glob-like path matching (patternMatch.cpp)

    A shallow embedding of the pattern compiler
    ([SimpleStateMachine::setPattern]), of the backtracking matcher
    ([SimpleStateMachine::match], [tryMatchPatternPart]) and of the
    pattern normalisation ([standardizePattern]), with the properties
    the specification states about them.

    Conventions of the embedding.
    - [int] values are string positions and node indices.  They are
      modelled in [Z]; every value the program computes stays between
      [-2] and the length of a string plus four, so for strings shorter
      than [2^31 - 4] characters no conversion truncates and no
      arithmetic overflows.  Comparisons of an [int] with a [size_t]
      convert the [int] to unsigned; [int_gt_size] and [int_lt_size]
      write that conversion out.
    - [std::string] is [string]; [s[pos]] is [str_at], which reads the
      terminating ['\0'] at [pos = s.length()].
    - [std::vector<T>] is [list T]; [v[i]] is [vec_at], which is [None]
      outside the vector (undefined behaviour in the source).
    - [std::sort] is a library routine: the development is parametric in
      any routine that meets its contract ([StdSort]).  Where the order
      it leaves among equal elements matters, the routine of libstdc++
      is embedded as well ([Libstdcxx.sort]). *)

From Stdlib Require Import ZArith Ascii String Lia Bool Sorted Permutation.
From stdpp Require Import base list strings.

Local Open Scope Z_scope.

(** ** Constants *)

Definition ERROR_NODE_IDX : Z := -1.
Definition SUCCESS_NODE_IDX : Z := -2.

Definition PATH_SEPARATOR : ascii := "/"%char.
Definition END_OF_LINE : ascii := Ascii.zero.

(** ** Strings and vectors as the source reads them *)

Definition str_length (s : string) : Z := Z.of_nat (String.length s).

(** [s[pos]]: for [0 <= pos < s.length()] the character, for
    [pos = s.length()] the terminating null character. *)
Definition str_at (s : string) (pos : Z) : ascii :=
  match String.get (Z.to_nat pos) s with
  | Some c => c
  | None => END_OF_LINE
  end.

Definition str_empty (s : string) : bool :=
  match s with
  | EmptyString => true
  | String _ _ => false
  end.

(** [i > n] and [i < n] where [i] is an [int] and [n] a [size_t]: the
    [int] is converted to unsigned, so a negative [i] is larger than any
    length. *)
Definition int_gt_size (i n : Z) : bool := (i <? 0) || (n <? i).
Definition int_lt_size (i n : Z) : bool := (0 <=? i) && (i <? n).

Definition vec_size {A} (v : list A) : Z := Z.of_nat (length v).

Definition vec_at {A} (v : list A) (i : Z) : option A :=
  if i <? 0 then None else v !! Z.to_nat i.

(** ** symbolIs, standardizePathSeparators, standardizePattern *)

Definition symbolIs (str : string) (pos : Z) (c : ascii) : bool :=
  if (pos <? 0) || int_gt_size pos (str_length str) then false
  else Ascii.eqb (str_at str pos) c.

Fixpoint standardizePathSeparators (s : string) : string :=
  match s with
  | EmptyString => EmptyString
  | String c s' =>
      String (if Ascii.eqb c "\"%char then "/"%char else c)
             (standardizePathSeparators s')
  end.

Definition standardizePattern (pattern : string) : string :=
  let len := str_length pattern in
  let pattern :=
    if negb (symbolIs pattern 0 PATH_SEPARATOR) then
      if symbolIs pattern 0 "*"%char && symbolIs pattern 1 "*"%char
      then String.append "/" pattern
      else String.append "/**/" pattern
    else pattern in
  if symbolIs pattern (len - 1) PATH_SEPARATOR
  then String.append pattern "**"
  else pattern.

(** ** SymbolType, InputSymbol, Edge, Node *)

Inductive SymbolType : Type :=
| eOneSymbol
| eEndOfLine
| eAnyPathSegmentSymbol
| eAnySymbol.

(** The enumerators' values, which [compare_edges_priority] compares. *)
Definition SymbolType_value (t : SymbolType) : Z :=
  match t with
  | eOneSymbol => 0
  | eEndOfLine => 1
  | eAnyPathSegmentSymbol => 2
  | eAnySymbol => 3
  end.

Record InputSymbol : Type := mkInputSymbol {
  stype : SymbolType;
  sym : ascii
}.

(** [InputSymbol(SymbolType t)] *)
Definition InputSymbol_of (t : SymbolType) : InputSymbol :=
  {| stype := t; sym := Ascii.zero |}.

(** [InputSymbol::match].  The [default: throw] arm of the switch has no
    enumerator left to reach it. *)
Definition InputSymbol_match (i : InputSymbol) (s : ascii) : bool :=
  match stype i with
  | eOneSymbol => Ascii.eqb s (sym i)
  | eEndOfLine => Ascii.eqb s END_OF_LINE
  | eAnySymbol => true
  | eAnyPathSegmentSymbol =>
      negb (Ascii.eqb s PATH_SEPARATOR) && negb (Ascii.eqb s END_OF_LINE)
  end.

Record Edge : Type := mkEdge {
  symbol : InputSymbol;
  nextNodeId : Z
}.

Record Node : Type := mkNode {
  edges : list Edge
}.

(** [Node()] *)
Definition Node_new : Node := {| edges := [] |}.

Definition compare_edges_priority (e1 e2 : Edge) : bool :=
  SymbolType_value (stype (symbol e1)) <? SymbolType_value (stype (symbol e2)).

(** What [std::sort] leaves behind for a comparison [comp]: no element
    is followed, anywhere later, by one that [comp] puts before it. *)
Definition sorted_by (comp : Edge → Edge → bool) (l : list Edge) : Prop :=
  StronglySorted (λ e1 e2, comp e2 e1 = false) l.

(** [std::sort(first, last, compare_edges_priority)]: the header
    <algorithm> is not part of the repository.  The contract of the C++
    standard is all that is assumed of it: the result is a permutation
    of the range and is sorted for the comparison.  The order of
    elements that compare equivalent is left open, as the standard
    leaves it. *)
Class StdSort : Type := {
  std_sort : list Edge → list Edge;
  std_sort_perm : ∀ l, std_sort l ≡ₚ l;
  std_sort_sorted : ∀ l, sorted_by compare_edges_priority (std_sort l)
}.

Section Machine.
Context {sorter : StdSort}.

(** [Node::addEdge(InputSymbol, int)] *)
Definition Node_addEdge (n : Node) (s : InputSymbol) (nodeId : Z) : Node :=
  let e := {| symbol := s; nextNodeId := nodeId |} in
  {| edges := std_sort (edges n ++ [e]) |}.

(** [Node::addEdge(const char, int)] *)
Definition Node_addEdge_char (n : Node) (c : ascii) (nodeId : Z) : Node :=
  let e := {| symbol := {| stype := eOneSymbol; sym := c |};
              nextNodeId := nodeId |} in
  {| edges := std_sort (edges n ++ [e]) |}.

Definition Node_edgeCount (n : Node) : Z := vec_size (edges n).

(** [Node::selectEdge]: [Some next] stands for [true] with [nextNodeId]
    set to [next], [None] for [false] with [nextNodeId] left alone. *)
Definition Node_selectEdge (n : Node) (edgeIdx : Z) (s : ascii) : option Z :=
  if (edgeIdx <? 0) || (Node_edgeCount n <=? edgeIdx) then None
  else match vec_at (edges n) edgeIdx with
       | None => None
       | Some e =>
           if negb (InputSymbol_match (symbol e) s) then None
           else Some (nextNodeId e)
       end.

(** ** SimpleStateMachine *)

Record SimpleStateMachine : Type := mkMachine {
  nodesArray : list Node
}.

(** [SimpleStateMachine()] *)
Definition SimpleStateMachine_new : SimpleStateMachine :=
  {| nodesArray := [] |}.

(** [createNewNode]: the vector after the push and the index returned. *)
Definition createNewNode (nodes : list Node) : list Node * Z :=
  let nodes' := nodes ++ [Node_new] in
  (nodes', vec_size nodes' - 1).

Definition lastNodeIdx (nodes : list Node) : Z := vec_size nodes - 1.

(** [nodesArray[fromNodeIdx].addEdge(...)].  Every call site passes an
    index of the vector; outside it the source is undefined and the
    model leaves the vector as it is. *)
Definition addEdge_char (nodes : list Node) (fromNodeIdx : Z) (c : ascii)
    (toNodeIdx : Z) : list Node :=
  if fromNodeIdx <? 0 then nodes
  else alter (λ n, Node_addEdge_char n c toNodeIdx) (Z.to_nat fromNodeIdx) nodes.

Definition addEdge (nodes : list Node) (fromNodeIdx : Z) (input : InputSymbol)
    (toNodeIdx : Z) : list Node :=
  if fromNodeIdx <? 0 then nodes
  else alter (λ n, Node_addEdge n input toNodeIdx) (Z.to_nat fromNodeIdx) nodes.

(** The variables the loop of [setPattern] carries from one iteration to
    the next. *)
Record LoopState : Type := mkLoop {
  patternPos : Z;
  previousStarNodeIdx : Z;
  loopNodes : list Node
}.

(** One iteration of the [for] loop of [setPattern]: the [switch] on
    [pattern[patternPos]], then [patternPos++]. *)
Definition setPattern_body (pattern : string) (st : LoopState) : LoopState :=
  let patternPos := patternPos st in
  let previousStarNodeIdx := previousStarNodeIdx st in
  let nodes := loopNodes st in
  let sym := str_at pattern patternPos in
  if Ascii.eqb sym PATH_SEPARATOR then
    let previousStarNodeIdx := -1 in
    let currentNodeIdx := lastNodeIdx nodes in
    let '(nodes, nextNodeIdx) := createNewNode nodes in
    let nodes := addEdge_char nodes currentNodeIdx PATH_SEPARATOR nextNodeIdx in
    if symbolIs pattern (patternPos + 1) "*"%char
       && symbolIs pattern (patternPos + 2) "*"%char
    then
      let nodes := addEdge nodes nextNodeIdx (InputSymbol_of eAnySymbol) nextNodeIdx in
      let previousStarNodeIdx := nextNodeIdx in
      if symbolIs pattern (patternPos + 3) PATH_SEPARATOR
      then mkLoop (patternPos + 3 + 1) previousStarNodeIdx nodes
      else mkLoop (patternPos + 2 + 1) previousStarNodeIdx nodes
    else mkLoop (patternPos + 1) previousStarNodeIdx nodes
  else if Ascii.eqb sym "?"%char then
    let currentNodeIdx := lastNodeIdx nodes in
    let '(nodes, nextNodeIdx) := createNewNode nodes in
    let nodes := addEdge nodes currentNodeIdx
                   (InputSymbol_of eAnyPathSegmentSymbol) nextNodeIdx in
    mkLoop (patternPos + 1) (-1) nodes
  else if Ascii.eqb sym "*"%char then
    let currentNodeIdx := lastNodeIdx nodes in
    let nodes := addEdge nodes currentNodeIdx
                   (InputSymbol_of eAnyPathSegmentSymbol) currentNodeIdx in
    mkLoop (patternPos + 1) currentNodeIdx nodes
  else
    let currentNodeIdx := lastNodeIdx nodes in
    let '(nodes, nextNodeIdx) := createNewNode nodes in
    let nodes := addEdge_char nodes currentNodeIdx sym nextNodeIdx in
    let nodes :=
      if 0 <=? previousStarNodeIdx
      then addEdge nodes nextNodeIdx (InputSymbol_of eAnyPathSegmentSymbol)
             previousStarNodeIdx
      else nodes in
    mkLoop (patternPos + 1) previousStarNodeIdx nodes.

(** The [for] loop.  [fuel] bounds the number of iterations; every
    iteration advances [patternPos], so [String.length pattern]
    iterations always reach the exit ([setPattern_loop_exits]) and more
    fuel changes nothing ([setPattern_loop_more_fuel]). *)
Fixpoint setPattern_loop (fuel : nat) (pattern : string) (st : LoopState)
    : LoopState :=
  match fuel with
  | O => st
  | S fuel' =>
      if int_lt_size (patternPos st) (str_length pattern)
      then setPattern_loop fuel' pattern (setPattern_body pattern st)
      else st
  end.

(** [setPattern] on the member [nodesArray]. *)
Definition setPattern_nodes (pattern : string) (nodes : list Node) : list Node :=
  if str_empty pattern then nodes
  else
    let nodes := nodes ++ [Node_new] in
    let st := setPattern_loop (String.length pattern) pattern
                (mkLoop 0 (-1) nodes) in
    let nodes := loopNodes st in
    let currentNodeIdx := lastNodeIdx nodes in
    addEdge nodes currentNodeIdx (InputSymbol_of eEndOfLine) SUCCESS_NODE_IDX.

(** [SimpleStateMachine::setPattern].  It returns [void] and throws
    nothing: the machine afterwards is all there is to observe. *)
Definition setPattern (pattern : string) (sm : SimpleStateMachine)
    : SimpleStateMachine :=
  {| nodesArray := setPattern_nodes pattern (nodesArray sm) |}.

End Machine.

(** ** The matcher

    [match] and [tryMatchPatternPart] are not [const] and take the path
    by non-const reference, so they are embedded as transformers of the
    memory they can reach: the machine and the path string.  Each call
    returns its outcome together with the memory it leaves. *)

Inductive outcome (A : Type) : Type :=
| Returned (a : A)           (* normal return *)
| Thrown (what : string)     (* std::runtime_error *)
| OutOfBounds                (* operator[] outside a vector: undefined *)
| OutOfFuel.                 (* the model's recursion budget ran out *)
Arguments Returned {A} a.
Arguments Thrown {A} what.
Arguments OutOfBounds {A}.
Arguments OutOfFuel {A}.

Record Memory : Type := mkMemory {
  machine : SimpleStateMachine;
  pathString : string
}.

(** The [for] loop of [tryMatchPatternPart] from [edgeIdx] on.  [call]
    is the recursive call; [budget] bounds the iterations left and is
    set to the edge count on entry. [currentNode] is a reference into
    [nodesArray], read again through the memory at every use. *)
Fixpoint tryMatch_edges (call : Z → Z → Memory → outcome bool * Memory)
    (budget : nat) (nodeIdx : Z) (s : ascii) (pathPos : Z) (edgeIdx : Z)
    (m : Memory) : outcome bool * Memory :=
  match vec_at (nodesArray (machine m)) nodeIdx with
  | None => (OutOfBounds, m)
  | Some currentNode =>
      if edgeIdx <? Node_edgeCount currentNode then
        match budget with
        | O => (OutOfFuel, m)
        | S budget' =>
            match Node_selectEdge currentNode edgeIdx s with
            | Some nextNodeId =>
                match call nextNodeId (pathPos + 1) m with
                | (Returned true, m') => (Returned true, m')
                | (Returned false, m') =>
                    tryMatch_edges call budget' nodeIdx s pathPos (edgeIdx + 1) m'
                | (stop, m') => (stop, m')
                end
            | None =>
                tryMatch_edges call budget' nodeIdx s pathPos (edgeIdx + 1) m
            end
        end
      else (Returned false, m)
  end.

(** [SimpleStateMachine::tryMatchPatternPart].  [fuel] bounds the depth
    of the recursion: a call needs one unit, and one more for every
    call nested in it. *)
Fixpoint tryMatchPatternPart (fuel : nat) (nodeIdx : Z) (pathPos : Z)
    (m : Memory) : outcome bool * Memory :=
  match fuel with
  | O => (OutOfFuel, m)
  | S fuel' =>
      if nodeIdx =? SUCCESS_NODE_IDX then (Returned true, m)
      else if nodeIdx =? ERROR_NODE_IDX then (Returned false, m)
      else if int_gt_size pathPos (str_length (pathString m))
      then (Returned false, m)
      else
        match vec_at (nodesArray (machine m)) nodeIdx with
        | None => (OutOfBounds, m)
        | Some currentNode =>
            let s := str_at (pathString m) pathPos in
            tryMatch_edges (tryMatchPatternPart fuel')
              (Z.to_nat (Node_edgeCount currentNode)) nodeIdx s pathPos 0 m
        end
  end.

(** [SimpleStateMachine::match].  The recursion gets the depth the
    path allows, its length plus two ([tryMatchPatternPart_terminates]). *)
Definition match_ (m : Memory) : outcome bool * Memory :=
  if str_empty (pathString m) then (Returned false, m)
  else if bool_decide (nodesArray (machine m) = []) then
    (Thrown "no pattern was set for state machine", m)
  else tryMatchPatternPart (String.length (pathString m) + 2) 0 0 m.

(** The program's use of the machine in [main]: a fresh machine, the
    pattern set, one path matched. *)
Definition compile_and_match `{StdSort} (pattern path : string) : outcome bool :=
  let sm := setPattern pattern SimpleStateMachine_new in
  fst (match_ {| machine := sm; pathString := path |}).

(** [main] when it is given its two arguments ([argc == 3]): the exit
    code.  [catch (...)] turns every exception into 2; an outcome that
    is no behaviour of the program has no exit code. *)
Definition main_ `{StdSort} (path pattern : string) : option Z :=
  let pattern := standardizePathSeparators pattern in
  let pathToMatch := standardizePathSeparators path in
  let pattern := standardizePattern pattern in
  match compile_and_match pattern pathToMatch with
  | Returned bMatch => Some (if bMatch then 0 else 1)
  | Thrown _ => Some 2
  | OutOfBounds | OutOfFuel => None
  end.

(** [main] on its argument vector: [argv] holds the program name and
    the arguments, [argc] is its length.  With [argc != 3] it calls
    [usage], whose text on the standard output is not modelled, and
    returns 2. *)
Definition main_argv `{StdSort} (argv : list string) : option Z :=
  match argv with
  | [_; pathToMatch; pattern] => main_ pathToMatch pattern
  | _ => Some 2
  end.

(** ** A [std::sort] that meets the contract: insertion sort

    Small ranges are sorted this way by the usual implementations; an
    element is moved left past the elements the comparison puts after
    it, and no further. *)

Fixpoint insert_edge (e : Edge) (l : list Edge) : list Edge :=
  match l with
  | [] => [e]
  | x :: l' =>
      if compare_edges_priority e x then e :: x :: l'
      else x :: insert_edge e l'
  end.

Definition insertion_sort (l : list Edge) : list Edge :=
  fold_left (λ acc e, insert_edge e acc) l [].

(** ** The [std::sort] of libstdc++

    [std::sort] as the GNU C++ library implements it (bits/stl_algo.h
    and bits/stl_heap.h): an introsort loop that partitions a range
    while it has more than [_S_threshold] = 16 elements, with a heap
    sort for a range it has cut too often, and an insertion sort over
    the whole range at the end.  A range is a list here, an iterator a
    position in it.  The unguarded loops of the library rely on an
    element of the range that stops them; where the library would read
    outside the range the functions below stop or leave the range as
    it is. *)

Module Libstdcxx.
Section Sort.
Local Open Scope nat_scope.
Context {A : Type}.
Variable comp : A → A → bool.

(** [_S_threshold] *)
Definition S_threshold : nat := 16.

(** [__comp(i, j)] on two positions of the range. *)
Definition comp_at (l : list A) (i j : nat) : bool :=
  match l !! i, l !! j with
  | Some x, Some y => comp x y
  | _, _ => false
  end.

(** [std::iter_swap(i, j)] *)
Definition iter_swap (i j : nat) (l : list A) : list A :=
  match l !! i, l !! j with
  | Some x, Some y => <[i := y]> (<[j := x]> l)
  | _, _ => l
  end.

(** [__move_median_to_first] *)
Definition move_median_to_first (result a b c : nat) (l : list A) : list A :=
  if comp_at l a b then
    if comp_at l b c then iter_swap result b l
    else if comp_at l a c then iter_swap result c l
    else iter_swap result a l
  else if comp_at l a c then iter_swap result a l
  else if comp_at l b c then iter_swap result c l
  else iter_swap result b l.

(** [while (__comp(__first, __pivot)) ++__first;] *)
Fixpoint scan_up (fuel : nat) (l : list A) (pivot first : nat) : nat :=
  match fuel with
  | O => first
  | S fuel' =>
      if comp_at l first pivot then scan_up fuel' l pivot (S first) else first
  end.

(** [while (__comp(__pivot, __last)) --__last;] *)
Fixpoint scan_down (l : list A) (pivot last : nat) : nat :=
  match last with
  | O => O
  | S last' => if comp_at l pivot last then scan_down l pivot last' else last
  end.

(** [__unguarded_partition]: the range after the swaps, and the cut. *)
Fixpoint unguarded_partition (fuel : nat) (l : list A) (first last pivot : nat)
    : list A * nat :=
  match fuel with
  | O => (l, first)
  | S fuel' =>
      let first := scan_up (length l) l pivot first in
      let last := scan_down l pivot (last - 1) in
      if negb (first <? last) then (l, first)
      else unguarded_partition fuel' (iter_swap first last l) (S first) last pivot
  end.

(** [__unguarded_partition_pivot] on the range [l]. *)
Definition unguarded_partition_pivot (l : list A) : list A * nat :=
  let mid := length l / 2 in
  let l := move_median_to_first 0 1 mid (length l - 1) l in
  unguarded_partition (length l) l 1 (length l) 0.

(** [*(first + hole) = move( *(first + from))], after which the hole is
    at [from]. *)
Definition move_hole (l : list A) (hole from : nat) : list A * nat :=
  match l !! from with
  | Some x => (<[hole := x]> l, from)
  | None => (l, hole)
  end.

(** [__push_heap] *)
Fixpoint push_heap (fuel : nat) (l : list A) (holeIndex topIndex : nat)
    (value : A) : list A :=
  let parent := (holeIndex - 1) / 2 in
  match fuel with
  | O => <[holeIndex := value]> l
  | S fuel' =>
      if (topIndex <? holeIndex) &&
         match l !! parent with Some p => comp p value | None => false end
      then
        let '(l, holeIndex) := move_hole l holeIndex parent in
        push_heap fuel' l holeIndex topIndex value
      else <[holeIndex := value]> l
  end.

(** The [while] loop of [__adjust_heap]. *)
Fixpoint adjust_heap_loop (fuel : nat) (l : list A) (holeIndex secondChild len : nat)
    : list A * nat * nat :=
  match fuel with
  | O => (l, holeIndex, secondChild)
  | S fuel' =>
      if secondChild <? (len - 1) / 2 then
        let secondChild := 2 * (secondChild + 1) in
        let secondChild :=
          if comp_at l secondChild (secondChild - 1) then secondChild - 1
          else secondChild in
        let '(l, holeIndex) := move_hole l holeIndex secondChild in
        adjust_heap_loop fuel' l holeIndex secondChild len
      else (l, holeIndex, secondChild)
  end.

(** [__adjust_heap] *)
Definition adjust_heap (l : list A) (holeIndex len : nat) (value : A) : list A :=
  let topIndex := holeIndex in
  let '(l, holeIndex, secondChild) :=
    adjust_heap_loop len l holeIndex holeIndex len in
  let '(l, holeIndex) :=
    if Nat.even len && (secondChild =? (len - 2) / 2) then
      let secondChild := 2 * (secondChild + 1) in
      move_hole l holeIndex (secondChild - 1)
    else (l, holeIndex) in
  push_heap len l holeIndex topIndex value.

(** [__pop_heap(first, last, result)] *)
Definition pop_heap (l : list A) (last result : nat) : list A :=
  match l !! result, l !! 0%nat with
  | Some value, Some top => adjust_heap (<[result := top]> l) 0 last value
  | _, _ => l
  end.

(** [__make_heap] *)
Fixpoint make_heap_loop (l : list A) (parent len : nat) : list A :=
  let l := match l !! parent with
           | Some value => adjust_heap l parent len value
           | None => l
           end in
  match parent with
  | O => l
  | S parent' => make_heap_loop l parent' len
  end.

Definition make_heap (l : list A) (len : nat) : list A :=
  if len <? 2 then l else make_heap_loop l ((len - 2) / 2) len.

(** [__sort_heap] *)
Fixpoint sort_heap (l : list A) (last : nat) : list A :=
  match last with
  | O => l
  | S last' => if 1 <? last then sort_heap (pop_heap l last' last') last' else l
  end.

(** [__heap_select] *)
Fixpoint heap_select_loop (fuel : nat) (l : list A) (middle i last : nat) : list A :=
  match fuel with
  | O => l
  | S fuel' =>
      if i <? last then
        let l := if comp_at l i 0 then pop_heap l middle i else l in
        heap_select_loop fuel' l middle (S i) last
      else l
  end.

Definition heap_select (l : list A) (middle last : nat) : list A :=
  heap_select_loop (last - middle) (make_heap l middle) middle middle last.

(** [__partial_sort] *)
Definition partial_sort (l : list A) (middle last : nat) : list A :=
  sort_heap (heap_select l middle last) middle.

(** [__introsort_loop] on the range [l]: the recursive call sorts the
    part from the cut on, the loop goes on with the part before it. *)
Fixpoint introsort_loop (depth_limit : nat) (l : list A) : list A :=
  if S_threshold <? length l then
    match depth_limit with
    | O => partial_sort l (length l) (length l)
    | S depth_limit' =>
        let '(l', cut) := unguarded_partition_pivot l in
        introsort_loop depth_limit' (take cut l') ++
        introsort_loop depth_limit' (drop cut l')
    end
  else l.

(** The loop of [__unguarded_linear_insert]: [next] walks down the
    sorted part, given here from its last element to its first, and
    every element it passes moves one place up. *)
Fixpoint linear_insert_loop (val : A) (next moved : list A) : list A :=
  match next with
  | [] => val :: moved
  | x :: next' =>
      if comp val x then linear_insert_loop val next' (x :: moved)
      else rev_append next (val :: moved)
  end.

(** [__unguarded_linear_insert] of the element behind the sorted part
    [before]. *)
Definition unguarded_linear_insert (val : A) (before : list A) : list A :=
  linear_insert_loop val (rev before) [].

(** One iteration of [__insertion_sort]. *)
Definition insertion_step (before : list A) (val : A) : list A :=
  match before with
  | [] => [val]
  | first :: _ =>
      if comp val first then val :: before
      else unguarded_linear_insert val before
  end.

(** [__insertion_sort] *)
Definition insertion_sort (l : list A) : list A :=
  match l with
  | [] => []
  | first :: l' => fold_left insertion_step l' [first]
  end.

(** [__unguarded_insertion_sort] of [l] behind the sorted part
    [before]. *)
Definition unguarded_insertion_sort (before l : list A) : list A :=
  fold_left (λ before val, unguarded_linear_insert val before) l before.

(** [__final_insertion_sort] *)
Definition final_insertion_sort (l : list A) : list A :=
  if S_threshold <? length l then
    unguarded_insertion_sort (insertion_sort (take S_threshold l))
      (drop S_threshold l)
  else insertion_sort l.

(** [std::sort(first, last, comp)] *)
Definition sort (l : list A) : list A :=
  match l with
  | [] => []
  | _ => final_insertion_sort (introsort_loop (Nat.log2 (length l) * 2) l)
  end.

End Sort.
End Libstdcxx.

(** ** The search as a function of the graph and the path

    [tryMatchPatternPart] writes to nothing it can reach
    ([tryMatchPatternPart_search]), so its outcome is this function of
    the node vector and the path. *)

Fixpoint search_edges (call : Z → Z → outcome bool) (s : ascii)
    (pathPos : Z) (es : list Edge) : outcome bool :=
  match es with
  | [] => Returned false
  | e :: es' =>
      if InputSymbol_match (symbol e) s then
        match call (nextNodeId e) (pathPos + 1) with
        | Returned true => Returned true
        | Returned false => search_edges call s pathPos es'
        | stop => stop
        end
      else search_edges call s pathPos es'
  end.

Fixpoint search (fuel : nat) (nodes : list Node) (path : string)
    (nodeIdx pathPos : Z) : outcome bool :=
  match fuel with
  | O => OutOfFuel
  | S fuel' =>
      if nodeIdx =? SUCCESS_NODE_IDX then Returned true
      else if nodeIdx =? ERROR_NODE_IDX then Returned false
      else if int_gt_size pathPos (str_length path) then Returned false
      else
        match vec_at nodes nodeIdx with
        | None => OutOfBounds
        | Some currentNode =>
            search_edges (search fuel' nodes path) (str_at path pathPos)
              pathPos (edges currentNode)
        end
  end.

(** ** The specification's reading of a match

    These definitions follow the words of the specification, not the
    code: the input at a position is the character there, or the
    end-of-string marker one past the last character; a run is a
    sequence of edges, each leaving the node the previous one entered
    and each consuming the input at the next position; it is accepting
    when it ends in the SUCCESS sentinel. *)

Definition spec_input_at (path : string) (pos : Z) : option ascii :=
  if (0 <=? pos) && (pos <? str_length path) then String.get (Z.to_nat pos) path
  else if pos =? str_length path then Some END_OF_LINE
  else None.

Fixpoint spec_run (nodes : list Node) (path : string) (nodeRef pos : Z)
    (run : list Edge) : Prop :=
  match run with
  | [] => nodeRef = SUCCESS_NODE_IDX
  | e :: run' =>
      ∃ node c,
        vec_at nodes nodeRef = Some node ∧
        e ∈ edges node ∧
        spec_input_at path pos = Some c ∧
        InputSymbol_match (symbol e) c = true ∧
        spec_run nodes path (nextNodeId e) (pos + 1) run'
  end.

Definition spec_accepts (nodes : list Node) (path : string) : Prop :=
  ∃ run, spec_run nodes path 0 0 run.

(** ** Well-formed graphs *)

(** A node reference that is the SUCCESS sentinel or an index of the
    vector. *)
Definition valid_ref (size : Z) (ref : Z) : Prop :=
  ref = SUCCESS_NODE_IDX ∨ 0 <= ref < size.

Definition targets_valid (nodes : list Node) : Prop :=
  Forall (λ n, Forall (λ e, valid_ref (vec_size nodes) (nextNodeId e)) (edges n))
         nodes.

(** The node at [nodeIdx] has the edge [e]. *)
Definition has_edge (nodes : list Node) (nodeIdx : Z) (e : Edge) : Prop :=
  ∃ node, vec_at nodes nodeIdx = Some node ∧ e ∈ edges node.

(** A run of characters of one path segment: no separator and no null
    character among them. *)
Fixpoint segment_chars (w : string) : Prop :=
  match w with
  | EmptyString => True
  | String c w' => c ≠ PATH_SEPARATOR ∧ c ≠ END_OF_LINE ∧ segment_chars w'
  end.

(** A pattern without wildcard: neither "*" nor "?" in it. *)
Fixpoint literal_chars (pattern : string) : Prop :=
  match pattern with
  | EmptyString => True
  | String c pattern' => c ≠ "*"%char ∧ c ≠ "?"%char ∧ literal_chars pattern'
  end.

(** A string without null character. *)
Fixpoint no_null (s : string) : Prop :=
  match s with
  | EmptyString => True
  | String c s' => c ≠ END_OF_LINE ∧ no_null s'
  end.

(** The nodes of a chain: node [k + i] has one edge, on character [i]
    of the string, to node [k + i + 1]. *)
Fixpoint links (k : nat) (s : string) : list Node :=
  match s with
  | EmptyString => []
  | String c s' =>
      {| edges := [ {| symbol := {| stype := eOneSymbol; sym := c |};
                       nextNodeId := Z.of_nat (S k) |} ] |}
      :: links (S k) s'
  end.

(** The chain for a whole pattern, closed by the node whose edge leads
    to SUCCESS at the end of the line. *)
Definition literal_graph (pattern : string) : list Node :=
  links 0 pattern ++
  [ {| edges := [ {| symbol := InputSymbol_of eEndOfLine;
                     nextNodeId := SUCCESS_NODE_IDX |} ] |} ].

(** The inputs of [path] from position [pos] on are the characters of
    [s] and then the end of the line. *)
Fixpoint inputs_are (s : string) (pos : nat) (path : string) : Prop :=
  match s with
  | EmptyString => spec_input_at path (Z.of_nat pos) = Some END_OF_LINE
  | String c s' =>
      spec_input_at path (Z.of_nat pos) = Some c ∧ inputs_are s' (S pos) path
  end.

(** An edge inside the graph: it does not lead to SUCCESS and does not
    wait for the end of the line. *)
Definition inner_edge (e : Edge) : Prop :=
  nextNodeId e ≠ SUCCESS_NODE_IDX ∧ stype (symbol e) ≠ eEndOfLine.

(** The rest of [pattern] from position [n] on is [rest]. *)
Definition suffix_at (pattern : string) (n : nat) (rest : string) : Prop :=
  String.length pattern = (n + String.length rest)%nat ∧
  ∀ i, String.get (n + i) pattern = String.get i rest.

(** How the loop of [setPattern] reads a pattern, case by case of its
    [switch], and the paths each case is meant for: a separator with
    "**" (and a separator) behind it stands for the separator and any
    run of characters, a separator otherwise for itself, "?" for one
    character of a segment, "*" for a run of them, any other character
    for itself. *)
Inductive glob : string → string → Prop :=
| glob_end : glob EmptyString EmptyString
| glob_separator_any_separator pattern w path :
    glob pattern path →
    glob (String "/" (String "*" (String "*" (String "/" pattern))))
         (String "/" (String.append w path))
| glob_separator_any pattern w path :
    symbolIs pattern 0 PATH_SEPARATOR = false →
    glob pattern path →
    glob (String "/" (String "*" (String "*" pattern)))
         (String "/" (String.append w path))
| glob_separator pattern path :
    symbolIs pattern 0 "*"%char && symbolIs pattern 1 "*"%char = false →
    glob pattern path →
    glob (String "/" pattern) (String "/" path)
| glob_question pattern c path :
    c ≠ PATH_SEPARATOR → c ≠ END_OF_LINE →
    glob pattern path →
    glob (String "?" pattern) (String c path)
| glob_star pattern w path :
    segment_chars w →
    glob pattern path →
    glob (String "*" pattern) (String.append w path)
| glob_char c pattern path :
    c ≠ PATH_SEPARATOR → c ≠ "?"%char → c ≠ "*"%char →
    glob pattern path →
    glob (String c pattern) (String c path).

(** ** Runs that do not go back *)

(** An edge from a node to itself that consumes a character: what "*"
    and "**" put on a node. *)
Definition loop_edge (nodeIdx : Z) (e : Edge) : Prop :=
  nextNodeId e = nodeIdx ∧
  (stype (symbol e) = eAnySymbol ∨ stype (symbol e) = eAnyPathSegmentSymbol).

(** From node [from] up to node [to] no separator is read: neither by
    an edge to the next node nor by an edge to the same node. *)
Definition scope_chars (nodes : list Node) (from to : Z) : Prop :=
  ∀ i e, from <= i <= to → has_edge nodes i e →
    (nextNodeId e = i + 1 ∧ i < to) ∨ (nextNodeId e = i ∧ from < i) →
    InputSymbol_match (symbol e) PATH_SEPARATOR = false.

(** An edge from node [nodeIdx] back to an earlier node: it reads a
    character of a segment, the earlier node has a loop edge, and
    between the two nodes no separator is read. *)
Definition back_edge (nodes : list Node) (nodeIdx : Z) (e : Edge) : Prop :=
  0 <= nextNodeId e < nodeIdx ∧
  stype (symbol e) = eAnyPathSegmentSymbol ∧
  (∃ l, has_edge nodes (nextNodeId e) l ∧ loop_edge (nextNodeId e) l) ∧
  scope_chars nodes (nextNodeId e) nodeIdx.

(** The edges of a graph under construction: to the next node (but
    not yet from the last node), to the same node, or back. *)
Definition edges_inv (nodes : list Node) : Prop :=
  ∀ j e, has_edge nodes j e →
    (nextNodeId e = j + 1 ∧ j < lastNodeIdx nodes) ∨
    loop_edge j e ∨ back_edge nodes j e.

(** What the loop of [setPattern] keeps of its graph and of
    [previousStarNodeIdx]. *)
Definition scope_inv (st : LoopState) : Prop :=
  0 <= lastNodeIdx (loopNodes st) ∧
  edges_inv (loopNodes st) ∧
  (0 <= previousStarNodeIdx st →
   previousStarNodeIdx st <= lastNodeIdx (loopNodes st) ∧
   (∃ l, has_edge (loopNodes st) (previousStarNodeIdx st) l ∧
         loop_edge (previousStarNodeIdx st) l) ∧
   scope_chars (loopNodes st) (previousStarNodeIdx st)
     (lastNodeIdx (loopNodes st))).

(** The edges of a finished graph: those of [edges_inv] and the edges
    to SUCCESS, which wait for the end of the line. *)
Definition graph_edges (nodes : list Node) : Prop :=
  ∀ j e, has_edge nodes j e →
    nextNodeId e = j + 1 ∨ loop_edge j e ∨ back_edge nodes j e ∨
    (nextNodeId e = SUCCESS_NODE_IDX ∧ stype (symbol e) = eEndOfLine).

(** A run in which no edge leads back to an earlier node. *)
Fixpoint forward_run (nodeRef : Z) (run : list Edge) : Prop :=
  match run with
  | [] => True
  | e :: run' =>
      (nextNodeId e = SUCCESS_NODE_IDX ∨ nodeRef <= nextNodeId e) ∧
      forward_run (nextNodeId e) run'
  end.

(** Node [nodeRef] at position [pos] of the path can be reached from
    node 0 at position 0 by edges that do not lead back. *)
Inductive reaches (nodes : list Node) (path : string) : Z → Z → Prop :=
| reaches_start : reaches nodes path 0 0
| reaches_step nodeRef pos e c :
    reaches nodes path nodeRef pos →
    has_edge nodes nodeRef e →
    nodeRef <= nextNodeId e →
    spec_input_at path pos = Some c →
    InputSymbol_match (symbol e) c = true →
    reaches nodes path (nextNodeId e) (pos + 1).

(** From node [nodeRef] the string [s] is read to its end and then
    SUCCESS is entered, by edges that do not lead back. *)
Inductive reads_forward (nodes : list Node) : Z → string → Prop :=
| reads_end nodeRef e :
    has_edge nodes nodeRef e →
    nextNodeId e = SUCCESS_NODE_IDX →
    stype (symbol e) = eEndOfLine →
    reads_forward nodes nodeRef EmptyString
| reads_step nodeRef e c s :
    has_edge nodes nodeRef e →
    nodeRef <= nextNodeId e →
    InputSymbol_match (symbol e) c = true →
    reads_forward nodes (nextNodeId e) s →
    reads_forward nodes nodeRef (String c s).

(** The loop edges of node [nodeRef] read the characters of [w]. *)
Fixpoint loops_read (nodes : list Node) (nodeRef : Z) (w : string) : Prop :=
  match w with
  | EmptyString => True
  | String c w' =>
      (∃ e, has_edge nodes nodeRef e ∧ loop_edge nodeRef e ∧
            InputSymbol_match (symbol e) c = true) ∧
      loops_read nodes nodeRef w'
  end.

(** The edges one iteration of the loop of [setPattern] may add, with
    [k] and [k'] the last node and [star] and [star'] the value of
    [previousStarNodeIdx] before and after it. *)
Definition new_edge (k k' star star' : Z) (i : Z) (e : Edge) : Prop :=
  (i = k ∧ nextNodeId e = k + 1 ∧ k' = k + 1 ∧
   (0 <= star' → star' <= k →
    InputSymbol_match (symbol e) PATH_SEPARATOR = false)) ∨
  (i = k ∧ nextNodeId e = k ∧ stype (symbol e) = eAnyPathSegmentSymbol) ∨
  (i = k + 1 ∧ k' = k + 1 ∧ star' = k + 1 ∧ nextNodeId e = k + 1 ∧
   stype (symbol e) = eAnySymbol) ∨
  (i = k + 1 ∧ k' = k + 1 ∧ 0 <= star ∧ star' = star ∧ nextNodeId e = star ∧
   stype (symbol e) = eAnyPathSegmentSymbol).

(** [G] is the finished graph of a compilation that is in state [st]
    with [fuel] iterations to go: what the loop leaves, and the edge
    to SUCCESS on its last node. *)
Definition finished `{StdSort} (pattern : string) (G : list Node)
    (fuel : nat) (st : LoopState) : Prop :=
  ∀ i e, has_edge G i e →
    has_edge (loopNodes (setPattern_loop fuel pattern st)) i e ∨
    (i = lastNodeIdx (loopNodes (setPattern_loop fuel pattern st)) ∧
     e = {| symbol := InputSymbol_of eEndOfLine;
            nextNodeId := SUCCESS_NODE_IDX |}).

(** The number of edges of a graph. *)
Definition edge_count (nodes : list Node) : nat :=
  sum_list_with (λ n, length (edges n)) nodes.

(** The edge list of a node is in ascending priority. *)
Definition node_sorted (n : Node) : Prop :=
  sorted_by compare_edges_priority (edges n).

Definition all_sorted (nodes : list Node) : Prop := Forall node_sorted nodes.

(** What holds of the loop variables of [setPattern] before and after
    every iteration. *)
Record loop_inv (st : LoopState) : Prop := mkLoopInv {
  inv_nonempty : 0 < vec_size (loopNodes st);
  inv_targets : targets_valid (loopNodes st);
  inv_sorted : all_sorted (loopNodes st);
  inv_star : previousStarNodeIdx st < vec_size (loopNodes st);
  inv_pos : 0 <= patternPos st
}.

(** Two node vectors that differ at most in the order of the edges of
    each node. *)
Definition same_edges (nodes1 nodes2 : list Node) : Prop :=
  Forall2 (λ n1 n2, edges n1 ≡ₚ edges n2) nodes1 nodes2.

(** Loop variables of two compilations that use different sorts. *)
Definition loop_same (st1 st2 : LoopState) : Prop :=
  patternPos st1 = patternPos st2 ∧
  previousStarNodeIdx st1 = previousStarNodeIdx st2 ∧
  same_edges (loopNodes st1) (loopNodes st2).

(** The priority rank of an edge: the value of its symbol type. *)
Definition priority (e : Edge) : Z := SymbolType_value (stype (symbol e)).

(** Insertion order among equals: for every rank, the edges of that
    rank in [after] are those of [before], in the same order, followed
    by [e] if it has that rank. *)
Definition keeps_insertion_order (before : list Edge) (e : Edge)
    (after : list Edge) : Prop :=
  ∀ r, filter (λ x, priority x = r) after =
       filter (λ x, priority x = r) (before ++ [e]).

(** The depth of recursion a call at [pathPos] can need: one for a
    call past the end of the path, which returns at once, and one more
    for every position up to there. *)
Definition depth_bound (path : string) (pathPos : Z) : nat :=
  if int_gt_size pathPos (str_length path) then 1%nat
  else Z.to_nat (str_length path + 2 - pathPos).

(** The calls [tryMatchPatternPart 0 0] can lead to: a call on a node
    of the vector, at a position with an input, makes a call for every
    edge whose symbol matches that input (the search may stop before it
    has made them all). *)
Inductive called (nodes : list Node) (path : string) : Z → Z → Prop :=
| called_first : called nodes path 0 0
| called_nested nodeIdx pathPos currentNode e :
    called nodes path nodeIdx pathPos →
    nodeIdx ≠ SUCCESS_NODE_IDX →
    nodeIdx ≠ ERROR_NODE_IDX →
    int_gt_size pathPos (str_length path) = false →
    vec_at nodes nodeIdx = Some currentNode →
    e ∈ edges currentNode →
    InputSymbol_match (symbol e) (str_at path pathPos) = true →
    called nodes path (nextNodeId e) (pathPos + 1).

(** * Properties *)

(** ** The insertion sort meets the contract of [std::sort] *)

Lemma compare_edges_priority_false e1 e2 :
  compare_edges_priority e2 e1 = false ↔ priority e1 <= priority e2.
Proof. unfold compare_edges_priority, priority. rewrite Z.ltb_ge. done. Qed.

Lemma sorted_by_priority_cons e l :
  sorted_by compare_edges_priority (e :: l) ↔
  Forall (λ x, priority e <= priority x) l ∧ sorted_by compare_edges_priority l.
Proof.
  unfold sorted_by. split.
  - intros Hs. apply StronglySorted_inv in Hs as [Hl He]. split; [|done].
    eapply Forall_impl; [exact He|].
    intros x Hx. by apply compare_edges_priority_false.
  - intros [He Hl]. constructor; [done|].
    eapply Forall_impl; [exact He|].
    intros x Hx. by apply compare_edges_priority_false.
Qed.

Lemma insert_edge_perm e l : insert_edge e l ≡ₚ e :: l.
Proof.
  induction l as [|x l IH]; simpl; [done|].
  destruct (compare_edges_priority e x); [done|].
  rewrite IH. apply Permutation_swap.
Qed.

Lemma insert_edge_sorted e l :
  sorted_by compare_edges_priority l →
  sorted_by compare_edges_priority (insert_edge e l).
Proof.
  induction l as [|x l IH]; simpl; intros Hs.
  - apply sorted_by_priority_cons. split; [constructor|done].
  - apply sorted_by_priority_cons in Hs as [Hx Hl].
    destruct (compare_edges_priority e x) eqn:Hc.
    + apply Z.ltb_lt in Hc. fold (priority e) (priority x) in Hc.
      apply sorted_by_priority_cons. split.
      * constructor; [lia|].
        eapply Forall_impl; [exact Hx|]. simpl. intros; lia.
      * apply sorted_by_priority_cons. done.
    + apply compare_edges_priority_false in Hc.
      apply sorted_by_priority_cons. split; [|by apply IH].
      rewrite insert_edge_perm. by constructor.
Qed.

Section FoldInsert.
Variable ins : Edge → list Edge → list Edge.
Hypothesis ins_perm : ∀ e l, ins e l ≡ₚ e :: l.
Hypothesis ins_sorted : ∀ e l,
  sorted_by compare_edges_priority l → sorted_by compare_edges_priority (ins e l).

Lemma fold_insert_perm l acc :
  fold_left (λ acc e, ins e acc) l acc ≡ₚ acc ++ l.
Proof.
  revert acc. induction l as [|x l IH]; intros acc; simpl.
  - by rewrite app_nil_r.
  - rewrite IH, ins_perm. simpl. apply Permutation_middle.
Qed.

Lemma fold_insert_sorted l acc :
  sorted_by compare_edges_priority acc →
  sorted_by compare_edges_priority (fold_left (λ acc e, ins e acc) l acc).
Proof.
  revert acc. induction l as [|x l IH]; intros acc Hacc; simpl; [done|].
  apply IH, ins_sorted, Hacc.
Qed.
End FoldInsert.

Lemma insertion_sort_perm l : insertion_sort l ≡ₚ l.
Proof.
  unfold insertion_sort. by rewrite (fold_insert_perm _ insert_edge_perm).
Qed.

Lemma insertion_sort_sorted l :
  sorted_by compare_edges_priority (insertion_sort l).
Proof. apply (fold_insert_sorted _ insert_edge_sorted). constructor. Qed.

#[export] Instance insertion_StdSort : StdSort :=
  {| std_sort := insertion_sort;
     std_sort_perm := insertion_sort_perm;
     std_sort_sorted := insertion_sort_sorted |}.

(** ** The [std::sort] of libstdc++ meets the contract *)

Section SortPerm.
Local Open Scope nat_scope.
Context {A : Type}.
Variable comp : A → A → bool.

Lemma insert_head_perm (l : list A) j a b :
  l !! j = Some b → b :: <[j := a]> l ≡ₚ a :: l.
Proof.
  revert j. induction l as [|x l IH]; intros [|j] Hj; simpl in *; try done.
  - injection Hj as ->. apply perm_swap.
  - rewrite perm_swap, (IH j Hj). apply perm_swap.
Qed.

Lemma insert_swap_perm (l : list A) i j a b :
  l !! i = Some a → l !! j = Some b → <[i := b]> (<[j := a]> l) ≡ₚ l.
Proof.
  assert (Hlt : ∀ (l : list A) i j a b, (i < j)%nat →
            l !! i = Some a → l !! j = Some b →
            <[i := b]> (<[j := a]> l) ≡ₚ l).
  { clear. intros l. induction l as [|x l IH]; intros [|i] [|j] a b Hij Hi Hj;
      simpl in *; try done; try lia.
    - injection Hi as ->. by apply insert_head_perm.
    - f_equiv. apply IH; [lia|done|done]. }
  intros Hi Hj. destruct (Nat.lt_total i j) as [Hij|[->|Hij]].
  - by apply Hlt.
  - rewrite Hi in Hj. injection Hj as ->.
    by rewrite list_insert_insert_eq, list_insert_id.
  - rewrite list_insert_insert_ne by lia. by apply Hlt.
Qed.

Lemma iter_swap_perm i j (l : list A) : Libstdcxx.iter_swap i j l ≡ₚ l.
Proof.
  unfold Libstdcxx.iter_swap.
  destruct (l !! i) as [x|] eqn:Hi; [|done].
  destruct (l !! j) as [y|] eqn:Hj; [|done].
  by apply insert_swap_perm.
Qed.

Lemma move_median_to_first_perm result a b c (l : list A) :
  Libstdcxx.move_median_to_first comp result a b c l ≡ₚ l.
Proof.
  unfold Libstdcxx.move_median_to_first.
  repeat case_match; apply iter_swap_perm.
Qed.

Lemma unguarded_partition_perm fuel (l : list A) first last pivot :
  (Libstdcxx.unguarded_partition comp fuel l first last pivot).1 ≡ₚ l.
Proof.
  revert l first last. induction fuel as [|fuel IH]; intros l first last; simpl; [done|].
  case_match; [done|]. etransitivity; [apply IH|apply iter_swap_perm].
Qed.

Lemma unguarded_partition_pivot_perm (l : list A) :
  (Libstdcxx.unguarded_partition_pivot comp l).1 ≡ₚ l.
Proof.
  unfold Libstdcxx.unguarded_partition_pivot.
  rewrite unguarded_partition_perm. apply move_median_to_first_perm.
Qed.

(** The heap routines carry one element outside the range, and the
    range has a hole for it. *)
Lemma move_hole_perm (l : list A) hole from value orig :
  (hole < length l)%nat → <[hole := value]> l ≡ₚ orig →
  let '(l', hole') := Libstdcxx.move_hole l hole from in
  (hole' < length l')%nat ∧ <[hole' := value]> l' ≡ₚ orig.
Proof.
  intros Hhole Hperm. unfold Libstdcxx.move_hole.
  destruct (l !! from) as [x|] eqn:Hfrom; [|done].
  split; [rewrite length_insert; by eapply lookup_lt_Some|].
  rewrite <- Hperm. destruct (decide (from = hole)) as [->|Hne].
  - by rewrite list_insert_insert_eq.
  - assert (Heq : <[from := value]> (<[hole := x]> l) =
                  <[hole := x]> (<[from := value]> (<[hole := value]> l))).
    { rewrite (list_insert_insert_ne _ hole from) by done.
      by rewrite list_insert_insert_eq. }
    rewrite Heq. apply insert_swap_perm.
    + by apply list_lookup_insert_eq.
    + by rewrite list_lookup_insert_ne.
Qed.

Lemma push_heap_perm fuel (l : list A) holeIndex topIndex value orig :
  (holeIndex < length l)%nat → <[holeIndex := value]> l ≡ₚ orig →
  Libstdcxx.push_heap comp fuel l holeIndex topIndex value ≡ₚ orig.
Proof.
  revert l holeIndex. induction fuel as [|fuel IH]; intros l hole Hhole Hperm;
    simpl; [done|].
  case_match; [|done].
  match goal with
  | |- context [Libstdcxx.move_hole l hole ?from] =>
      pose proof (move_hole_perm l hole from value orig Hhole Hperm) as Hmove;
      destruct (Libstdcxx.move_hole l hole from) as [l' hole']
  end.
  destruct Hmove. by apply IH.
Qed.

Lemma adjust_heap_loop_perm fuel (l : list A) holeIndex secondChild len value orig :
  (holeIndex < length l)%nat → <[holeIndex := value]> l ≡ₚ orig →
  let '(l', hole', _) :=
    Libstdcxx.adjust_heap_loop comp fuel l holeIndex secondChild len in
  (hole' < length l')%nat ∧ <[hole' := value]> l' ≡ₚ orig.
Proof.
  revert l holeIndex secondChild.
  induction fuel as [|fuel IH]; intros l hole sc Hhole Hperm;
    cbn [Libstdcxx.adjust_heap_loop]; [done|].
  destruct (sc <? (len - 1) / 2)%nat; [|done]. cbv zeta.
  match goal with
  | |- context [Libstdcxx.move_hole l hole ?from] =>
      pose proof (move_hole_perm l hole from value orig Hhole Hperm) as Hmove;
      destruct (Libstdcxx.move_hole l hole from) as [l' hole']
  end.
  destruct Hmove. by apply IH.
Qed.

Lemma adjust_heap_perm (l : list A) holeIndex len value orig :
  (holeIndex < length l)%nat → <[holeIndex := value]> l ≡ₚ orig →
  Libstdcxx.adjust_heap comp l holeIndex len value ≡ₚ orig.
Proof.
  intros Hhole Hperm. unfold Libstdcxx.adjust_heap.
  pose proof (adjust_heap_loop_perm len l holeIndex holeIndex len value orig
                Hhole Hperm) as Hloop.
  destruct (Libstdcxx.adjust_heap_loop comp len l holeIndex holeIndex len)
    as [[l1 hole1] sc]. destruct Hloop as [Hhole1 Hperm1].
  destruct (Nat.even len && (sc =? (len - 2) / 2)%nat).
  - match goal with
    | |- context [Libstdcxx.move_hole l1 hole1 ?from] =>
        pose proof (move_hole_perm l1 hole1 from value orig Hhole1 Hperm1) as Hmove;
        destruct (Libstdcxx.move_hole l1 hole1 from) as [l2 hole2]
    end.
    destruct Hmove. by apply push_heap_perm.
  - by apply push_heap_perm.
Qed.

Lemma pop_heap_perm (l : list A) last result :
  Libstdcxx.pop_heap comp l last result ≡ₚ l.
Proof.
  unfold Libstdcxx.pop_heap.
  destruct (l !! result) as [value|] eqn:Hresult; [|done].
  destruct (l !! 0%nat) as [top|] eqn:Htop; [|done].
  apply adjust_heap_perm.
  - rewrite length_insert. by eapply lookup_lt_Some.
  - by apply insert_swap_perm.
Qed.

Lemma make_heap_loop_perm (l : list A) parent len :
  Libstdcxx.make_heap_loop comp l parent len ≡ₚ l.
Proof.
  revert l. induction parent as [|parent IH]; intros l; simpl.
  - destruct (l !! 0%nat) as [value|] eqn:Hv; [|done].
    apply adjust_heap_perm; [by eapply lookup_lt_Some|by rewrite list_insert_id].
  - rewrite IH. destruct (l !! S parent) as [value|] eqn:Hv; [|done].
    apply adjust_heap_perm; [by eapply lookup_lt_Some|by rewrite list_insert_id].
Qed.

Lemma make_heap_perm (l : list A) len : Libstdcxx.make_heap comp l len ≡ₚ l.
Proof.
  unfold Libstdcxx.make_heap. case_match; [done|apply make_heap_loop_perm].
Qed.

Lemma sort_heap_perm (l : list A) last : Libstdcxx.sort_heap comp l last ≡ₚ l.
Proof.
  revert l. induction last as [|last IH]; intros l; simpl; [done|].
  case_match; [|done]. rewrite IH. apply pop_heap_perm.
Qed.

Lemma heap_select_loop_perm fuel (l : list A) middle i last :
  Libstdcxx.heap_select_loop comp fuel l middle i last ≡ₚ l.
Proof.
  revert l i. induction fuel as [|fuel IH]; intros l i; simpl; [done|].
  case_match; [|done]. rewrite IH. case_match; [apply pop_heap_perm|done].
Qed.

Lemma partial_sort_perm (l : list A) middle last :
  Libstdcxx.partial_sort comp l middle last ≡ₚ l.
Proof.
  unfold Libstdcxx.partial_sort, Libstdcxx.heap_select.
  by rewrite sort_heap_perm, heap_select_loop_perm, make_heap_perm.
Qed.

Lemma introsort_loop_perm depth_limit (l : list A) :
  Libstdcxx.introsort_loop comp depth_limit l ≡ₚ l.
Proof.
  revert l. induction depth_limit as [|depth IH]; intros l; simpl.
  - case_match; [apply partial_sort_perm|done].
  - case_match; [|done].
    pose proof (unguarded_partition_pivot_perm l) as Hperm.
    destruct (Libstdcxx.unguarded_partition_pivot comp l) as [l' cut].
    simpl in Hperm. by rewrite !IH, take_drop.
Qed.

(** A range of at most [_S_threshold] elements is left to the final
    insertion sort. *)
Lemma introsort_loop_short depth_limit (l : list A) :
  (length l <= Libstdcxx.S_threshold)%nat →
  Libstdcxx.introsort_loop comp depth_limit l = l.
Proof.
  intros Hlen. destruct depth_limit; simpl;
    by replace (Libstdcxx.S_threshold <? length l)%nat with false
      by (symmetry; apply Nat.ltb_ge; lia).
Qed.

End SortPerm.

(** ** The final insertion sort of libstdc++ is the insertion sort *)

Lemma insert_edge_skip val p q :
  Forall (λ z, compare_edges_priority val z = false) p →
  insert_edge val (p ++ q) = p ++ insert_edge val q.
Proof.
  induction 1 as [|z p Hz _ IH]; simpl; [done|]. by rewrite Hz, IH.
Qed.

Lemma insert_edge_first val l :
  Forall (λ y, compare_edges_priority val y = true) l →
  insert_edge val l = val :: l.
Proof. intros [|y l' Hy _]; simpl; [done|]. by rewrite Hy. Qed.

Lemma sorted_by_priority_before p x q :
  sorted_by compare_edges_priority (p ++ x :: q) →
  Forall (λ z, priority z <= priority x) p.
Proof.
  induction p as [|z p IH]; simpl; intros Hs; [constructor|].
  apply sorted_by_priority_cons in Hs as [Hz Hs].
  constructor; [|by apply IH].
  apply Forall_app in Hz as [_ Hz]. by apply Forall_inv in Hz.
Qed.

Lemma linear_insert_loop_insert_edge val pre moved :
  Forall (λ y, compare_edges_priority val y = true) moved →
  sorted_by compare_edges_priority (pre ++ moved) →
  Libstdcxx.linear_insert_loop compare_edges_priority val (rev pre) moved
    = insert_edge val (pre ++ moved).
Proof.
  revert moved. induction pre as [|x pre IH] using rev_ind; intros moved Hmoved Hs.
  - simpl. by rewrite insert_edge_first.
  - rewrite rev_unit. cbn [Libstdcxx.linear_insert_loop].
    rewrite <- app_assoc in Hs |- *. simpl app in Hs |- *.
    destruct (compare_edges_priority val x) eqn:Hc.
    + apply IH; [by constructor|done].
    + rewrite rev_append_rev. simpl rev. rewrite rev_involutive, <- app_assoc.
      simpl app.
      apply compare_edges_priority_false in Hc.
      assert (Hle : Forall (λ z, compare_edges_priority val z = false) (pre ++ [x])).
      { apply Forall_app. split.
        - eapply Forall_impl; [exact (sorted_by_priority_before _ _ _ Hs)|].
          intros z Hz. apply compare_edges_priority_false. simpl in Hz. lia.
        - constructor; [by apply compare_edges_priority_false|constructor]. }
      change (pre ++ x :: moved) with (pre ++ [x] ++ moved).
      rewrite app_assoc, (insert_edge_skip _ _ _ Hle), (insert_edge_first _ _ Hmoved).
      by rewrite <- app_assoc.
Qed.

Lemma unguarded_linear_insert_insert_edge val acc :
  sorted_by compare_edges_priority acc →
  Libstdcxx.unguarded_linear_insert compare_edges_priority val acc
    = insert_edge val acc.
Proof.
  intros Hs. unfold Libstdcxx.unguarded_linear_insert.
  rewrite (linear_insert_loop_insert_edge val acc []); [|constructor|];
    by rewrite app_nil_r.
Qed.

Lemma insertion_step_insert_edge val acc :
  sorted_by compare_edges_priority acc →
  Libstdcxx.insertion_step compare_edges_priority acc val = insert_edge val acc.
Proof.
  intros Hs. destruct acc as [|first acc]; [done|].
  unfold Libstdcxx.insertion_step.
  destruct (compare_edges_priority val first) eqn:Hc.
  - simpl. by rewrite Hc.
  - by apply unguarded_linear_insert_insert_edge.
Qed.

Lemma fold_insertion_step l acc :
  sorted_by compare_edges_priority acc →
  fold_left (Libstdcxx.insertion_step compare_edges_priority) l acc
    = fold_left (λ acc e, insert_edge e acc) l acc.
Proof.
  revert acc. induction l as [|x l IH]; intros acc Hs; simpl; [done|].
  rewrite insertion_step_insert_edge by done. by apply IH, insert_edge_sorted.
Qed.

Lemma fold_unguarded_linear_insert l acc :
  sorted_by compare_edges_priority acc →
  Libstdcxx.unguarded_insertion_sort compare_edges_priority acc l
    = fold_left (λ acc e, insert_edge e acc) l acc.
Proof.
  unfold Libstdcxx.unguarded_insertion_sort.
  revert acc. induction l as [|x l IH]; intros acc Hs; simpl; [done|].
  rewrite unguarded_linear_insert_insert_edge by done.
  by apply IH, insert_edge_sorted.
Qed.

Lemma libstdcxx_insertion_sort l :
  Libstdcxx.insertion_sort compare_edges_priority l = insertion_sort l.
Proof.
  destruct l as [|first l]; [done|]. unfold Libstdcxx.insertion_sort, insertion_sort.
  simpl. apply fold_insertion_step. repeat constructor.
Qed.

Lemma libstdcxx_final_insertion_sort l :
  Libstdcxx.final_insertion_sort compare_edges_priority l = insertion_sort l.
Proof.
  unfold Libstdcxx.final_insertion_sort. case_match.
  - rewrite libstdcxx_insertion_sort, fold_unguarded_linear_insert
      by apply insertion_sort_sorted.
    unfold insertion_sort. rewrite <- fold_left_app. by rewrite take_drop.
  - apply libstdcxx_insertion_sort.
Qed.

(** [std::sort] of libstdc++: the introsort loop permutes the range,
    the insertion sort behind it sorts it. *)
Lemma libstdcxx_sort_insertion_sort l :
  Libstdcxx.sort compare_edges_priority l =
  insertion_sort
    (Libstdcxx.introsort_loop compare_edges_priority (Nat.log2 (length l) * 2) l).
Proof.
  destruct l as [|e l]; [done|]. apply libstdcxx_final_insertion_sort.
Qed.

Lemma libstdcxx_sort_perm l : Libstdcxx.sort compare_edges_priority l ≡ₚ l.
Proof.
  by rewrite libstdcxx_sort_insertion_sort, insertion_sort_perm, introsort_loop_perm.
Qed.

Lemma libstdcxx_sort_sorted l :
  sorted_by compare_edges_priority (Libstdcxx.sort compare_edges_priority l).
Proof. rewrite libstdcxx_sort_insertion_sort. apply insertion_sort_sorted. Qed.

Definition libstdcxx_StdSort : StdSort :=
  {| std_sort := Libstdcxx.sort compare_edges_priority;
     std_sort_perm := libstdcxx_sort_perm;
     std_sort_sorted := libstdcxx_sort_sorted |}.

(** Up to [_S_threshold] elements [std::sort] of libstdc++ is the
    insertion sort. *)
Lemma libstdcxx_sort_short l :
  (length l <= 16)%nat →
  Libstdcxx.sort compare_edges_priority l = insertion_sort l.
Proof.
  intros Hlen. rewrite libstdcxx_sort_insertion_sort.
  by rewrite introsort_loop_short.
Qed.

(** ** Reading strings and vectors *)

Lemma vec_at_Some {A} (v : list A) i x :
  vec_at v i = Some x ↔ 0 <= i ∧ v !! Z.to_nat i = Some x.
Proof.
  unfold vec_at. destruct (Z.ltb_spec i 0) as [Hi|Hi].
  - split; [done|]. intros [? _]. lia.
  - split; [done|]. by intros [_ ?].
Qed.

Lemma vec_at_lt {A} (v : list A) i x : vec_at v i = Some x → 0 <= i < vec_size v.
Proof.
  rewrite vec_at_Some. intros [Hi Hl]. apply lookup_lt_Some in Hl.
  unfold vec_size. lia.
Qed.

Lemma vec_at_is_Some {A} (v : list A) i :
  0 <= i < vec_size v → is_Some (vec_at v i).
Proof.
  unfold vec_size. intros Hi.
  destruct (lookup_lt_is_Some_2 v (Z.to_nat i)) as [x Hx]; [lia|].
  exists x. apply vec_at_Some. split; [lia|done].
Qed.

Lemma string_get_None s n : (String.length s <= n)%nat → String.get n s = None.
Proof.
  revert n. induction s as [|c s IH]; intros n Hn; simpl in *; [by destruct n|].
  destruct n; [lia|]. apply IH. lia.
Qed.

Lemma string_get_is_Some s n : (n < String.length s)%nat → is_Some (String.get n s).
Proof.
  revert n. induction s as [|c s IH]; intros n Hn; simpl in *; [lia|].
  destruct n; [by eexists|]. apply IH. lia.
Qed.

Lemma int_gt_size_false i n : int_gt_size i n = false ↔ 0 <= i <= n.
Proof. unfold int_gt_size. rewrite orb_false_iff, !Z.ltb_ge. lia. Qed.

Lemma spec_input_at_str_at path pos :
  int_gt_size pos (str_length path) = false →
  spec_input_at path pos = Some (str_at path pos).
Proof.
  rewrite int_gt_size_false. unfold spec_input_at, str_at, str_length.
  intros [H1 H2].
  destruct (Z.ltb_spec pos (Z.of_nat (String.length path))) as [Hlt|Hge].
  - replace (0 <=? pos) with true by (symmetry; apply Z.leb_le; lia). simpl.
    destruct (string_get_is_Some path (Z.to_nat pos)) as [c Hc]; [lia|].
    by rewrite Hc.
  - rewrite andb_false_r.
    replace (pos =? Z.of_nat (String.length path)) with true
      by (symmetry; apply Z.eqb_eq; lia).
    rewrite string_get_None by lia. done.
Qed.

Lemma spec_input_at_Some path pos c :
  spec_input_at path pos = Some c →
  int_gt_size pos (str_length path) = false ∧ c = str_at path pos.
Proof.
  intros H. assert (Hr : int_gt_size pos (str_length path) = false).
  { apply int_gt_size_false. unfold spec_input_at in H.
    destruct (Z.leb_spec 0 pos), (Z.ltb_spec pos (str_length path));
      simpl in H; try lia;
      destruct (Z.eqb_spec pos (str_length path)); try done;
      unfold str_length in *; lia. }
  split; [done|]. rewrite spec_input_at_str_at in H by done. congruence.
Qed.

(** ** The matcher leaves its memory alone *)

Lemma Node_selectEdge_lookup node i s e :
  edges node !! i = Some e →
  Node_selectEdge node (Z.of_nat i) s =
    if InputSymbol_match (symbol e) s then Some (nextNodeId e) else None.
Proof.
  intros He. pose proof (lookup_lt_Some _ _ _ He) as Hlt.
  unfold Node_selectEdge, Node_edgeCount, vec_size, vec_at.
  replace (Z.of_nat i <? 0) with false by (symmetry; apply Z.ltb_ge; lia).
  replace (Z.of_nat (length (edges node)) <=? Z.of_nat i) with false
    by (symmetry; apply Z.leb_gt; lia).
  simpl. rewrite Nat2Z.id, He. by destruct (InputSymbol_match _ _).
Qed.

Lemma tryMatch_edges_search call callp budget nodeIdx s pathPos i m node :
  (∀ n p, call n p m = (callp n p, m)) →
  vec_at (nodesArray (machine m)) nodeIdx = Some node →
  (length (edges node) <= i + budget)%nat →
  tryMatch_edges call budget nodeIdx s pathPos (Z.of_nat i) m =
    (search_edges callp s pathPos (drop i (edges node)), m).
Proof.
  intros Hcall Hnode. revert i.
  induction budget as [|budget IH]; intros i Hlen; simpl; rewrite Hnode;
    unfold Node_edgeCount, vec_size;
    destruct (Z.ltb_spec (Z.of_nat i) (Z.of_nat (length (edges node))))
      as [Hlt|Hge];
    try (rewrite drop_ge by lia; reflexivity); [lia|].
  destruct (lookup_lt_is_Some_2 (edges node) i) as [e He]; [lia|].
  rewrite (drop_S _ _ _ He), (Node_selectEdge_lookup _ _ _ _ He). simpl.
  replace (Z.of_nat i + 1) with (Z.of_nat (S i)) by lia.
  destruct (InputSymbol_match (symbol e) s).
  - rewrite Hcall. destruct (callp _ _) as [[|]| | |]; try reflexivity.
    apply IH. lia.
  - apply IH. lia.
Qed.

Lemma tryMatchPatternPart_search fuel nodeIdx pathPos m :
  tryMatchPatternPart fuel nodeIdx pathPos m =
    (search fuel (nodesArray (machine m)) (pathString m) nodeIdx pathPos, m).
Proof.
  revert nodeIdx pathPos.
  induction fuel as [|fuel IH]; intros nodeIdx pathPos; simpl; [done|].
  destruct (nodeIdx =? SUCCESS_NODE_IDX); [done|].
  destruct (nodeIdx =? ERROR_NODE_IDX); [done|].
  destruct (int_gt_size _ _); [done|].
  destruct (vec_at _ nodeIdx) as [node|] eqn:Hnode; [|done].
  rewrite (tryMatch_edges_search _
             (search fuel (nodesArray (machine m)) (pathString m)) _ _ _ _ 0 m node);
    [done|done|done|].
  unfold Node_edgeCount, vec_size. lia.
Qed.

(** ** The recursion of the search is bounded by the path *)

Lemma search_edges_ext call1 call2 s pathPos es :
  (∀ n, call1 n (pathPos + 1) = call2 n (pathPos + 1)) →
  search_edges call1 s pathPos es = search_edges call2 s pathPos es.
Proof.
  intros Hcall. induction es as [|e es IH]; simpl; [done|].
  by rewrite Hcall, IH.
Qed.

Lemma search_edges_fuel call s pathPos es :
  (∀ n, call n (pathPos + 1) ≠ OutOfFuel) →
  search_edges call s pathPos es ≠ OutOfFuel.
Proof.
  intros Hcall. induction es as [|e es IH]; simpl; [done|].
  destruct (InputSymbol_match _ _); [|done].
  specialize (Hcall (nextNodeId e)).
  by destruct (call _ _) as [[|]| | |].
Qed.

Lemma depth_bound_pos path pathPos : (1 <= depth_bound path pathPos)%nat.
Proof.
  unfold depth_bound. destruct (int_gt_size _ _) eqn:Hpos; [lia|].
  apply int_gt_size_false in Hpos. lia.
Qed.

Lemma depth_bound_next path pathPos :
  int_gt_size pathPos (str_length path) = false →
  depth_bound path pathPos = S (depth_bound path (pathPos + 1)).
Proof.
  intros Hpos. unfold depth_bound. rewrite Hpos.
  apply int_gt_size_false in Hpos.
  destruct (int_gt_size (pathPos + 1) _) eqn:Hnext.
  - unfold int_gt_size in Hnext. apply orb_true_iff in Hnext.
    rewrite !Z.ltb_lt in Hnext. lia.
  - lia.
Qed.

Lemma depth_bound_le path pathPos :
  (depth_bound path pathPos <= String.length path + 2)%nat.
Proof.
  unfold depth_bound. destruct (int_gt_size _ _) eqn:Hpos; [lia|].
  apply int_gt_size_false in Hpos. unfold str_length in *. lia.
Qed.

Lemma search_enough_fuel nodes path fuel nodeIdx pathPos :
  (depth_bound path pathPos <= fuel)%nat →
  search fuel nodes path nodeIdx pathPos ≠ OutOfFuel.
Proof.
  revert nodeIdx pathPos.
  induction fuel as [|fuel IH]; intros nodeIdx pathPos Hfuel.
  { pose proof (depth_bound_pos path pathPos). lia. }
  simpl.
  destruct (nodeIdx =? SUCCESS_NODE_IDX); [done|].
  destruct (nodeIdx =? ERROR_NODE_IDX); [done|].
  destruct (int_gt_size _ _) eqn:Hpos; [done|].
  destruct (vec_at _ _); [|done].
  rewrite (depth_bound_next _ _ Hpos) in Hfuel.
  apply search_edges_fuel. intros t. apply IH. lia.
Qed.

Lemma search_fuel_irrelevant nodes path fuel fuel' nodeIdx pathPos :
  (depth_bound path pathPos <= fuel)%nat →
  (depth_bound path pathPos <= fuel')%nat →
  search fuel nodes path nodeIdx pathPos = search fuel' nodes path nodeIdx pathPos.
Proof.
  revert fuel' nodeIdx pathPos.
  induction fuel as [|fuel IH]; intros [|fuel'] nodeIdx pathPos H1 H2;
    try (pose proof (depth_bound_pos path pathPos); lia).
  simpl.
  destruct (nodeIdx =? SUCCESS_NODE_IDX); [done|].
  destruct (nodeIdx =? ERROR_NODE_IDX); [done|].
  destruct (int_gt_size _ _) eqn:Hpos; [done|].
  destruct (vec_at _ _); [|done].
  rewrite (depth_bound_next _ _ Hpos) in H1, H2.
  apply search_edges_ext. intros t. apply IH; lia.
Qed.

(** ** The search finds a run exactly when there is one *)

Lemma search_edges_spec call s pathPos es (P : Z → Prop) :
  (∀ e, e ∈ es →
        ∃ b, call (nextNodeId e) (pathPos + 1) = Returned b ∧
             (b = true ↔ P (nextNodeId e))) →
  ∃ b, search_edges call s pathPos es = Returned b ∧
       (b = true ↔
        ∃ e, e ∈ es ∧ InputSymbol_match (symbol e) s = true ∧ P (nextNodeId e)).
Proof.
  induction es as [|e es IH]; intros Hcall; simpl.
  - exists false. split; [done|]. split; [done|].
    intros (e & He & _). by apply elem_of_nil in He.
  - destruct IH as (b' & Hb' & Hiff').
    { intros e' He'. apply Hcall. by right. }
    destruct (Hcall e) as (b & Hb & Hiff); [by left|].
    destruct (InputSymbol_match (symbol e) s) eqn:Hm.
    + rewrite Hb. destruct b.
      * exists true. split; [done|]. split; [|done].
        intros _. exists e. split; [by left|]. split; [done|]. by apply Hiff.
      * exists b'. split; [done|]. rewrite Hiff'. split.
        -- intros (e' & He' & H'). exists e'. split; [by right|done].
        -- intros (e' & He' & Hm' & HP).
           apply elem_of_cons in He' as [->|He'].
           ++ apply Hiff in HP. done.
           ++ by exists e'.
    + exists b'. split; [done|]. rewrite Hiff'. split.
      * intros (e' & He' & H'). exists e'. split; [by right|done].
      * intros (e' & He' & Hm' & HP).
        apply elem_of_cons in He' as [->|He']; [congruence|]. by exists e'.
Qed.

Lemma valid_ref_not_error size ref : valid_ref size ref → ref ≠ ERROR_NODE_IDX.
Proof. unfold valid_ref, ERROR_NODE_IDX, SUCCESS_NODE_IDX. lia. Qed.

Lemma targets_valid_lookup nodes nodeIdx node e :
  targets_valid nodes →
  vec_at nodes nodeIdx = Some node →
  e ∈ edges node →
  valid_ref (vec_size nodes) (nextNodeId e).
Proof.
  unfold targets_valid. rewrite vec_at_Some, Forall_forall.
  intros Hall [_ Hnode] He.
  apply list_elem_of_lookup_2 in Hnode.
  specialize (Hall _ Hnode). rewrite Forall_forall in Hall. by apply Hall.
Qed.

Lemma search_spec nodes path fuel nodeIdx pathPos :
  targets_valid nodes →
  valid_ref (vec_size nodes) nodeIdx →
  (depth_bound path pathPos <= fuel)%nat →
  ∃ b, search fuel nodes path nodeIdx pathPos = Returned b ∧
       (b = true ↔ ∃ run, spec_run nodes path nodeIdx pathPos run).
Proof.
  intros Hwf. revert nodeIdx pathPos.
  induction fuel as [|fuel IH]; intros nodeIdx pathPos Href Hfuel.
  { pose proof (depth_bound_pos path pathPos). lia. }
  simpl.
  destruct (Z.eqb_spec nodeIdx SUCCESS_NODE_IDX) as [->|Hns].
  { exists true. split; [done|]. split; [|done]. intros _. by exists []. }
  destruct (Z.eqb_spec nodeIdx ERROR_NODE_IDX) as [->|Hne].
  { by apply valid_ref_not_error in Href. }
  destruct (int_gt_size pathPos (str_length path)) eqn:Hpos.
  { exists false. split; [done|]. split; [done|].
    intros ([|e run] & Hrun); simpl in Hrun; [done|].
    destruct Hrun as (node & c & _ & _ & Hc & _).
    apply spec_input_at_Some in Hc as [Hc _]. congruence. }
  destruct Href as [?|Href]; [done|].
  destruct (vec_at_is_Some nodes nodeIdx Href) as [node Hnode].
  rewrite Hnode.
  pose proof Hpos as Hpos'. apply int_gt_size_false in Hpos'.
  destruct (search_edges_spec (search fuel nodes path) (str_at path pathPos)
              pathPos (edges node)
              (λ t, ∃ run, spec_run nodes path t (pathPos + 1) run))
    as (b & Hb & Hiff).
  { intros e He. apply IH.
    - eapply targets_valid_lookup; eauto.
    - rewrite (depth_bound_next _ _ Hpos) in Hfuel. lia. }
  exists b. split; [done|]. rewrite Hiff. split.
  - intros (e & He & Hm & run & Hrun). exists (e :: run). simpl.
    exists node, (str_at path pathPos).
    rewrite spec_input_at_str_at by done. done.
  - intros ([|e run] & Hrun); simpl in Hrun; [done|].
    destruct Hrun as (node' & c & Hnode' & He & Hc & Hm & Hrun).
    apply spec_input_at_Some in Hc as [_ ->].
    assert (node' = node) as -> by congruence.
    exists e. split; [done|]. split; [done|]. by exists run.
Qed.

(** ** Graphs that differ in the order of their edges *)

Lemma same_edges_size nodes1 nodes2 :
  same_edges nodes1 nodes2 → vec_size nodes1 = vec_size nodes2.
Proof. intros H. unfold vec_size. by rewrite (Forall2_length _ _ _ H). Qed.

Lemma same_edges_vec_at nodes1 nodes2 i n1 :
  same_edges nodes1 nodes2 →
  vec_at nodes1 i = Some n1 →
  ∃ n2, vec_at nodes2 i = Some n2 ∧ edges n1 ≡ₚ edges n2.
Proof.
  intros H. rewrite vec_at_Some. intros [Hi Hn1].
  destruct (Forall2_lookup_l _ _ _ _ _ H Hn1) as (n2 & Hn2 & Hp).
  exists n2. split; [|done]. apply vec_at_Some. done.
Qed.

Lemma same_edges_spec_run nodes1 nodes2 path run nodeRef pos :
  same_edges nodes1 nodes2 →
  spec_run nodes1 path nodeRef pos run →
  spec_run nodes2 path nodeRef pos run.
Proof.
  intros H. revert nodeRef pos.
  induction run as [|e run IH]; intros nodeRef pos; simpl; [done|].
  intros (n1 & c & Hn1 & He & Hc & Hm & Hrun).
  destruct (same_edges_vec_at _ _ _ _ H Hn1) as (n2 & Hn2 & Hp).
  exists n2, c. split; [done|]. split; [by rewrite <- Hp|].
  split; [done|]. split; [done|]. by apply IH.
Qed.

Lemma same_edges_sym nodes1 nodes2 :
  same_edges nodes1 nodes2 → same_edges nodes2 nodes1.
Proof.
  unfold same_edges. intros H. apply Forall2_flip.
  eapply Forall2_impl; [exact H|]. simpl. intros n1 n2 Hp. by symmetry.
Qed.

Lemma same_edges_targets_valid nodes1 nodes2 :
  same_edges nodes1 nodes2 → targets_valid nodes1 → targets_valid nodes2.
Proof.
  intros H. unfold targets_valid. rewrite (same_edges_size _ _ H).
  generalize (vec_size nodes2). intros size.
  induction H as [|n1 n2 l1 l2 Hp H IH]; intros Hv; [constructor|].
  apply Forall_cons in Hv as [Hn Hl]. constructor; [|by apply IH].
  by rewrite <- Hp.
Qed.

(** ** What the graph operations preserve *)

Lemma vec_size_push (nodes : list Node) :
  vec_size (nodes ++ [Node_new]) = vec_size nodes + 1.
Proof. unfold vec_size. rewrite length_app. simpl. lia. Qed.

Lemma valid_ref_mono size size' ref :
  size <= size' → valid_ref size ref → valid_ref size' ref.
Proof. unfold valid_ref. lia. Qed.

Lemma push_targets_valid nodes :
  targets_valid nodes → targets_valid (nodes ++ [Node_new]).
Proof.
  unfold targets_valid. rewrite vec_size_push. intros H.
  apply Forall_app. split.
  - eapply Forall_impl; [exact H|]. intros n Hn.
    eapply Forall_impl; [exact Hn|]. intros e. simpl.
    apply valid_ref_mono. lia.
  - repeat constructor.
Qed.

Lemma push_all_sorted nodes : all_sorted nodes → all_sorted (nodes ++ [Node_new]).
Proof.
  unfold all_sorted. intros H. apply Forall_app. split; [done|].
  repeat constructor.
Qed.

Lemma push_same_edges nodes1 nodes2 :
  same_edges nodes1 nodes2 →
  same_edges (nodes1 ++ [Node_new]) (nodes2 ++ [Node_new]).
Proof. intros H. apply Forall2_app; [done|]. by repeat constructor. Qed.

Section GraphOps.
Context {sorter : StdSort}.

Lemma addEdge_char_addEdge nodes fromNodeIdx c toNodeIdx :
  addEdge_char nodes fromNodeIdx c toNodeIdx =
  addEdge nodes fromNodeIdx {| stype := eOneSymbol; sym := c |} toNodeIdx.
Proof. reflexivity. Qed.

Lemma vec_size_addEdge nodes fromNodeIdx s toNodeIdx :
  vec_size (addEdge nodes fromNodeIdx s toNodeIdx) = vec_size nodes.
Proof.
  unfold addEdge, vec_size. destruct (fromNodeIdx <? 0); [done|].
  by rewrite length_alter.
Qed.

Lemma addEdge_targets_valid nodes fromNodeIdx s toNodeIdx :
  targets_valid nodes →
  valid_ref (vec_size nodes) toNodeIdx →
  targets_valid (addEdge nodes fromNodeIdx s toNodeIdx).
Proof.
  unfold targets_valid. rewrite vec_size_addEdge. intros H Ht.
  unfold addEdge. destruct (fromNodeIdx <? 0); [done|].
  apply Forall_alter; [done|]. intros n _ Hn. simpl.
  rewrite std_sort_perm. apply Forall_app. split; [done|].
  constructor; [done|constructor].
Qed.

Lemma Node_addEdge_sorted n s toNodeIdx : node_sorted (Node_addEdge n s toNodeIdx).
Proof. apply std_sort_sorted. Qed.

Lemma addEdge_all_sorted nodes fromNodeIdx s toNodeIdx :
  all_sorted nodes → all_sorted (addEdge nodes fromNodeIdx s toNodeIdx).
Proof.
  unfold all_sorted, addEdge. intros H. destruct (fromNodeIdx <? 0); [done|].
  apply Forall_alter; [done|]. intros n _ _. apply Node_addEdge_sorted.
Qed.

Lemma setPattern_body_inv pattern st :
  loop_inv st → loop_inv (setPattern_body pattern st).
Proof.
  intros [Hne Ht Hs Hstar Hpos].
  assert (Hpush := vec_size_push (loopNodes st)).
  assert (Htp := push_targets_valid _ Ht).
  assert (Hsp := push_all_sorted _ Hs).
  unfold setPattern_body, createNewNode, lastNodeIdx.
  rewrite !addEdge_char_addEdge.
  repeat case_match; constructor; simpl;
    rewrite ?vec_size_addEdge, ?Hpush; try lia;
    repeat first
      [ apply addEdge_all_sorted
      | apply addEdge_targets_valid; rewrite ?vec_size_addEdge, ?Hpush ];
    try done;
    unfold valid_ref; lia.
Qed.

Lemma setPattern_body_advances pattern st :
  patternPos st < patternPos (setPattern_body pattern st).
Proof.
  unfold setPattern_body, createNewNode. repeat case_match; simpl; lia.
Qed.

Lemma setPattern_loop_inv fuel pattern st :
  loop_inv st → loop_inv (setPattern_loop fuel pattern st).
Proof.
  revert st. induction fuel as [|fuel IH]; intros st Hinv; simpl; [done|].
  destruct (int_lt_size _ _); [|done].
  by apply IH, setPattern_body_inv.
Qed.

(** The loop has left when [String.length pattern] iterations are
    done: more fuel changes nothing. *)
Lemma setPattern_loop_exits fuel pattern st :
  str_length pattern - patternPos st <= Z.of_nat fuel →
  int_lt_size (patternPos (setPattern_loop fuel pattern st)) (str_length pattern)
    = false.
Proof.
  revert st. induction fuel as [|fuel IH]; intros st Hfuel; simpl.
  - unfold int_lt_size. apply andb_false_iff. right. apply Z.ltb_ge. lia.
  - destruct (int_lt_size (patternPos st) _) eqn:Hlt; [|done].
    apply IH. pose proof (setPattern_body_advances pattern st). lia.
Qed.

Lemma setPattern_loop_more_fuel fuel extra pattern st :
  str_length pattern - patternPos st <= Z.of_nat fuel →
  setPattern_loop (fuel + extra) pattern st = setPattern_loop fuel pattern st.
Proof.
  revert st. induction fuel as [|fuel IH]; intros st Hfuel; simpl.
  - destruct extra as [|extra]; simpl; [done|].
    replace (int_lt_size (patternPos st) (str_length pattern)) with false; [done|].
    symmetry. unfold int_lt_size. apply andb_false_iff. right.
    apply Z.ltb_ge. lia.
  - destruct (int_lt_size (patternPos st) _) eqn:Hlt; [|done].
    apply IH. pose proof (setPattern_body_advances pattern st). lia.
Qed.

End GraphOps.

(** ** The graph [setPattern] builds *)

Section Compiled.
Context {sorter : StdSort}.

Lemma str_empty_false pattern : str_empty pattern = false ↔ pattern ≠ EmptyString.
Proof. by destruct pattern. Qed.

Lemma setPattern_nodes_nonempty pattern nodes :
  pattern ≠ EmptyString →
  setPattern_nodes pattern nodes =
    let st := setPattern_loop (String.length pattern) pattern
                (mkLoop 0 (-1) (nodes ++ [Node_new])) in
    addEdge (loopNodes st) (lastNodeIdx (loopNodes st))
      (InputSymbol_of eEndOfLine) SUCCESS_NODE_IDX.
Proof.
  intros Hp. unfold setPattern_nodes.
  by rewrite (proj2 (str_empty_false pattern) Hp).
Qed.

Lemma loop_inv_init nodes :
  targets_valid nodes → all_sorted nodes →
  loop_inv (mkLoop 0 (-1) (nodes ++ [Node_new])).
Proof.
  intros Ht Hs. constructor; simpl; rewrite ?vec_size_push;
    auto using push_targets_valid, push_all_sorted;
    unfold vec_size; lia.
Qed.

Lemma setPattern_nodes_inv pattern nodes :
  pattern ≠ EmptyString →
  targets_valid nodes → all_sorted nodes →
  let nodes' := setPattern_nodes pattern nodes in
  vec_size nodes < vec_size nodes' ∧ targets_valid nodes' ∧ all_sorted nodes'.
Proof.
  intros Hp Ht Hs. rewrite setPattern_nodes_nonempty by done. simpl.
  pose proof (setPattern_loop_inv (String.length pattern) pattern _
                (loop_inv_init nodes Ht Hs)) as [Hne Ht' Hs' _ _].
  split; [|split].
  - rewrite vec_size_addEdge.
    (* the vector only grows *)
    clear -sorter.
    assert (Hgrow : ∀ fuel st,
      vec_size (loopNodes st) <=
      vec_size (loopNodes (setPattern_loop fuel pattern st))).
    { induction fuel as [|fuel IH]; intros st; simpl; [lia|].
      destruct (int_lt_size _ _); [|lia].
      etransitivity; [|apply IH].
      unfold setPattern_body, createNewNode.
      rewrite !addEdge_char_addEdge.
      repeat case_match; simpl;
        rewrite ?vec_size_addEdge, ?vec_size_push; lia. }
    specialize (Hgrow (String.length pattern)
                  (mkLoop 0 (-1) (nodes ++ [Node_new]))).
    simpl in Hgrow. rewrite vec_size_push in Hgrow. lia.
  - apply addEdge_targets_valid; [done|]. by left.
  - by apply addEdge_all_sorted.
Qed.

Lemma targets_valid_nil : targets_valid [].
Proof. constructor. Qed.

Lemma all_sorted_nil : all_sorted [].
Proof. constructor. Qed.

Lemma setPattern_new_inv pattern :
  pattern ≠ EmptyString →
  let nodes := nodesArray (setPattern pattern SimpleStateMachine_new) in
  0 < vec_size nodes ∧ targets_valid nodes ∧ all_sorted nodes.
Proof.
  intros Hp.
  apply (setPattern_nodes_inv pattern [] Hp targets_valid_nil all_sorted_nil).
Qed.

End Compiled.

(** ** The sort does not change what matches *)

Section TwoSorts.
Variables sort1 sort2 : StdSort.

Lemma addEdge_same_edges nodes1 nodes2 fromNodeIdx s toNodeIdx :
  same_edges nodes1 nodes2 →
  same_edges (@addEdge sort1 nodes1 fromNodeIdx s toNodeIdx)
             (@addEdge sort2 nodes2 fromNodeIdx s toNodeIdx).
Proof.
  intros H. unfold addEdge. destruct (fromNodeIdx <? 0); [done|].
  apply Forall2_alter; [done|]. intros n1 n2 _ _ Hp. simpl.
  by rewrite !std_sort_perm, Hp.
Qed.

Lemma setPattern_body_same pattern st1 st2 :
  loop_same st1 st2 →
  loop_same (@setPattern_body sort1 pattern st1)
            (@setPattern_body sort2 pattern st2).
Proof.
  destruct st1 as [pos1 star1 nodes1], st2 as [pos2 star2 nodes2].
  intros (Hpos & Hstar & Hnodes). simpl in *. subst pos2 star2.
  fold (same_edges nodes1 nodes2) in Hnodes.
  pose proof (same_edges_size _ _ Hnodes) as Hsize.
  pose proof (push_same_edges _ _ Hnodes) as Hpush.
  unfold setPattern_body, createNewNode, lastNodeIdx. simpl.
  rewrite !addEdge_char_addEdge, !vec_size_push, <- Hsize.
  repeat case_match; repeat split; simpl;
    repeat apply addEdge_same_edges; done.
Qed.

Lemma setPattern_loop_same fuel pattern st1 st2 :
  loop_same st1 st2 →
  loop_same (@setPattern_loop sort1 fuel pattern st1)
            (@setPattern_loop sort2 fuel pattern st2).
Proof.
  revert st1 st2. induction fuel as [|fuel IH]; intros st1 st2 H; simpl; [done|].
  destruct H as (Hpos & Hstar & Hnodes). rewrite <- Hpos.
  destruct (int_lt_size _ _); [|done].
  by apply IH, setPattern_body_same.
Qed.

Lemma setPattern_nodes_same pattern nodes1 nodes2 :
  same_edges nodes1 nodes2 →
  same_edges (@setPattern_nodes sort1 pattern nodes1)
             (@setPattern_nodes sort2 pattern nodes2).
Proof.
  intros H. unfold setPattern_nodes. destruct (str_empty pattern); [done|].
  destruct (setPattern_loop_same (String.length pattern) pattern
              (mkLoop 0 (-1) (nodes1 ++ [Node_new]))
              (mkLoop 0 (-1) (nodes2 ++ [Node_new]))) as (_ & _ & Hnodes).
  { split; [done|]. split; [done|]. by apply push_same_edges. }
  fold (same_edges
          (loopNodes (@setPattern_loop sort1 (String.length pattern) pattern
             (mkLoop 0 (-1) (nodes1 ++ [Node_new]))))
          (loopNodes (@setPattern_loop sort2 (String.length pattern) pattern
             (mkLoop 0 (-1) (nodes2 ++ [Node_new]))))) in Hnodes.
  unfold lastNodeIdx. rewrite (same_edges_size _ _ Hnodes).
  by apply addEdge_same_edges.
Qed.

End TwoSorts.

(** ** [match] on a compiled graph *)

Lemma match_search m :
  pathString m ≠ EmptyString →
  nodesArray (machine m) ≠ [] →
  match_ m =
    (search (String.length (pathString m) + 2) (nodesArray (machine m))
       (pathString m) 0 0, m).
Proof.
  intros Hpath Hnodes. unfold match_.
  rewrite (proj2 (str_empty_false _) Hpath).
  rewrite bool_decide_eq_false_2 by done.
  apply tryMatchPatternPart_search.
Qed.

Lemma match_unchanged m : snd (match_ m) = m.
Proof.
  unfold match_. destruct (str_empty _); [done|].
  destruct (bool_decide _); [done|].
  by rewrite tryMatchPatternPart_search.
Qed.

Lemma vec_size_nonempty {A} (v : list A) : 0 < vec_size v → v ≠ [].
Proof. destruct v; [unfold vec_size; simpl; lia|done]. Qed.

Lemma valid_ref_first {A} (v : list A) : 0 < vec_size v → valid_ref (vec_size v) 0.
Proof. intros H. right. lia. Qed.

Section MatchCompiled.
Context {sorter : StdSort}.

Lemma compile_and_match_spec pattern path :
  pattern ≠ EmptyString → path ≠ EmptyString →
  ∃ b, compile_and_match pattern path = Returned b ∧
       (b = true ↔
        spec_accepts (nodesArray (setPattern pattern SimpleStateMachine_new)) path).
Proof.
  intros Hp Hpath.
  destruct (setPattern_new_inv pattern Hp) as (Hne & Ht & _).
  unfold compile_and_match. rewrite match_search; simpl; [|done|].
  - apply search_spec; [done|by apply valid_ref_first|apply depth_bound_le].
  - by apply vec_size_nonempty.
Qed.

End MatchCompiled.

Lemma compile_and_match_sort_irrelevant (sort1 sort2 : StdSort) pattern path :
  @compile_and_match sort1 pattern path = @compile_and_match sort2 pattern path.
Proof.
  destruct pattern as [|c pattern]; [done|].
  destruct path as [|d path]; [done|].
  destruct (@compile_and_match_spec sort1 (String c pattern) (String d path))
    as (b1 & -> & H1); [done|done|].
  destruct (@compile_and_match_spec sort2 (String c pattern) (String d path))
    as (b2 & -> & H2); [done|done|].
  assert (Hsame : same_edges
            (nodesArray (@setPattern sort1 (String c pattern) SimpleStateMachine_new))
            (nodesArray (@setPattern sort2 (String c pattern) SimpleStateMachine_new))).
  { apply setPattern_nodes_same. constructor. }
  f_equal. apply eq_true_iff_eq. rewrite H1, H2. unfold spec_accepts.
  split; intros [run Hrun]; exists run.
  - by eapply same_edges_spec_run.
  - eapply same_edges_spec_run; [|done]. by apply same_edges_sym.
Qed.

Lemma has_edge_sort_irrelevant (sort1 sort2 : StdSort) pattern nodeIdx e :
  has_edge (nodesArray (@setPattern sort1 pattern SimpleStateMachine_new)) nodeIdx e →
  has_edge (nodesArray (@setPattern sort2 pattern SimpleStateMachine_new)) nodeIdx e.
Proof.
  intros (n1 & Hn1 & He).
  assert (Hnil : same_edges [] []) by constructor.
  destruct (same_edges_vec_at _
              (nodesArray (@setPattern sort2 pattern SimpleStateMachine_new))
              _ _ (setPattern_nodes_same sort1 sort2 pattern [] [] Hnil)
              Hn1) as (n2 & Hn2 & Hp).
  exists n2. split; [done|]. by rewrite <- Hp.
Qed.

(** Evaluate a match with the insertion sort in place of the sort at
    hand. *)
Ltac evaluate_match :=
  rewrite ?(compile_and_match_sort_irrelevant _ insertion_StdSort);
  vm_compute; reflexivity.

(** Find an edge in the graph the insertion sort gives. *)
Ltac find_edge :=
  apply (has_edge_sort_irrelevant insertion_StdSort);
  eexists; split; [reflexivity|];
  apply list_elem_of_In; vm_compute; tauto.

(** * The claims of the specification *)

Lemma search_same_edges nodes1 nodes2 path fuel nodeIdx pathPos :
  targets_valid nodes1 →
  same_edges nodes1 nodes2 →
  valid_ref (vec_size nodes1) nodeIdx →
  (depth_bound path pathPos <= fuel)%nat →
  search fuel nodes2 path nodeIdx pathPos = search fuel nodes1 path nodeIdx pathPos.
Proof.
  intros Ht Hsame Href Hfuel.
  destruct (search_spec nodes1 path fuel nodeIdx pathPos Ht Href Hfuel)
    as (b1 & -> & H1).
  destruct (search_spec nodes2 path fuel nodeIdx pathPos) as (b2 & -> & H2).
  { by eapply same_edges_targets_valid. }
  { by rewrite <- (same_edges_size _ _ Hsame). }
  { done. }
  f_equal. apply eq_true_iff_eq. rewrite H1, H2.
  split; intros [run Hrun]; exists run.
  - eapply same_edges_spec_run; [|done]. by apply same_edges_sym.
  - by eapply same_edges_spec_run.
Qed.

(** C1.  On the graph [setPattern] builds from a non-empty pattern, and
    for a non-empty path, [tryMatchPatternPart 0 0] returns a boolean,
    and returns [true] exactly when some run exists: a sequence of
    edges from node 0, each consuming the input at the next position of
    the path (a character, or the end-of-string marker), that ends in
    the SUCCESS sentinel.  The order in which a node lists its edges,
    and with it the stop at the first success, has no part in the
    answer: the search returns the same boolean on any graph that
    differs only in that order. *)
Theorem search_finds_a_run_iff_one_exists `{StdSort}
    (pattern path : string) (fuel : nat) :
  pattern ≠ EmptyString →
  path ≠ EmptyString →
  (String.length path + 2 <= fuel)%nat →
  let sm := setPattern pattern SimpleStateMachine_new in
  ∃ b,
    fst (tryMatchPatternPart fuel 0 0 {| machine := sm; pathString := path |})
      = Returned b ∧
    (b = true ↔ spec_accepts (nodesArray sm) path) ∧
    (∀ nodes', same_edges (nodesArray sm) nodes' →
       fst (tryMatchPatternPart fuel 0 0
              {| machine := {| nodesArray := nodes' |}; pathString := path |})
         = Returned b).
Proof.
  intros Hp Hpath Hfuel sm.
  destruct (setPattern_new_inv pattern Hp) as (Hne & Ht & _). fold sm in Hne, Ht.
  assert (Hdepth : (depth_bound path 0 <= fuel)%nat).
  { pose proof (depth_bound_le path 0). lia. }
  destruct (search_spec (nodesArray sm) path fuel 0 0 Ht
              (valid_ref_first _ Hne) Hdepth) as (b & Hb & Hiff).
  exists b. rewrite !tryMatchPatternPart_search. simpl.
  split; [done|]. split; [done|].
  intros nodes' Hsame. rewrite tryMatchPatternPart_search. simpl.
  rewrite (search_same_edges (nodesArray sm)); [done|done|done| |done].
  by apply valid_ref_first.
Qed.

Lemma search_finds_a_run_iff_one_exists_witness :
  "/a*b"%string ≠ EmptyString ∧ "/ab"%string ≠ EmptyString ∧
  (String.length "/ab" + 2 <= 5)%nat ∧
  ∃ b,
    fst (tryMatchPatternPart 5 0 0
           {| machine := setPattern "/a*b" SimpleStateMachine_new;
              pathString := "/ab" |}) = Returned b ∧
    (b = true ↔
     spec_accepts (nodesArray (setPattern "/a*b" SimpleStateMachine_new)) "/ab") ∧
    (∀ nodes',
       same_edges (nodesArray (setPattern "/a*b" SimpleStateMachine_new)) nodes' →
       fst (tryMatchPatternPart 5 0 0
              {| machine := {| nodesArray := nodes' |}; pathString := "/ab" |})
         = Returned b).
Proof.
  split; [discriminate|]. split; [discriminate|]. split; [simpl; lia|].
  apply (search_finds_a_run_iff_one_exists "/a*b" "/ab" 5);
    [discriminate|discriminate|simpl; lia].
Defined.

(** ** Building runs along the path *)

Lemma spec_input_at_shift c path pos :
  0 <= pos →
  spec_input_at (String c path) (pos + 1) = spec_input_at path pos.
Proof.
  intros Hpos. unfold spec_input_at, str_length. simpl String.length.
  replace (Z.to_nat (pos + 1)) with (S (Z.to_nat pos)) by lia. simpl String.get.
  rewrite Nat2Z.inj_succ.
  replace (0 <=? pos + 1) with true by (symmetry; apply Z.leb_le; lia).
  replace (0 <=? pos) with true by (symmetry; apply Z.leb_le; lia).
  replace (pos + 1 <? Z.succ (Z.of_nat (String.length path)))
    with (pos <? Z.of_nat (String.length path)).
  2:{ destruct (Z.ltb_spec pos (Z.of_nat (String.length path)));
        symmetry; [apply Z.ltb_lt|apply Z.ltb_ge]; lia. }
  replace (pos + 1 =? Z.succ (Z.of_nat (String.length path)))
    with (pos =? Z.of_nat (String.length path)); [done|].
  destruct (Z.eqb_spec pos (Z.of_nat (String.length path)));
    symmetry; [apply Z.eqb_eq|apply Z.eqb_neq]; lia.
Qed.

Lemma spec_run_shift nodes path c run nodeRef pos :
  0 <= pos →
  spec_run nodes path nodeRef pos run →
  spec_run nodes (String c path) nodeRef (pos + 1) run.
Proof.
  revert nodeRef pos. induction run as [|e run IH]; intros nodeRef pos Hpos;
    simpl; [done|].
  intros (node & d & Hnode & He & Hd & Hm & Hrun).
  exists node, d. rewrite spec_input_at_shift by done.
  repeat (split; [done|]). apply IH; [lia|done].
Qed.

Lemma spec_run_step nodes path c e nodeRef run :
  has_edge nodes nodeRef e →
  InputSymbol_match (symbol e) c = true →
  spec_run nodes path (nextNodeId e) 0 run →
  spec_run nodes (String c path) nodeRef 0 (e :: run).
Proof.
  intros (node & Hnode & He) Hm Hrun. simpl. exists node, c.
  split; [done|]. split; [done|]. split; [|split; [done|]].
  - unfold spec_input_at, str_length. simpl String.length.
    rewrite Nat2Z.inj_succ.
    replace (0 <? Z.succ (Z.of_nat (String.length path))) with true; [done|].
    symmetry. apply Z.ltb_lt. lia.
  - by apply (spec_run_shift _ _ c _ _ 0).
Qed.

Lemma spec_run_end nodes e nodeRef :
  has_edge nodes nodeRef e →
  InputSymbol_match (symbol e) END_OF_LINE = true →
  nextNodeId e = SUCCESS_NODE_IDX →
  spec_run nodes EmptyString nodeRef 0 [e].
Proof.
  intros (node & Hnode & He) Hm Hnext. simpl. exists node, END_OF_LINE.
  split; [done|]. split; [done|]. split; [done|]. split; done.
Qed.

(** A self-loop that matches every character of [w] carries a run
    across [w]. *)
Lemma spec_run_loop nodes nodeRef e w rest run :
  has_edge nodes nodeRef e →
  nextNodeId e = nodeRef →
  (stype (symbol e) = eAnySymbol ∨
   stype (symbol e) = eAnyPathSegmentSymbol ∧ segment_chars w) →
  spec_run nodes rest nodeRef 0 run →
  ∃ run', spec_run nodes (String.append w rest) nodeRef 0 run'.
Proof.
  intros He Hnext Hsym Hrun.
  induction w as [|c w IH]; simpl; [by exists run|].
  destruct IH as [run' Hrun'].
  { destruct Hsym as [?|[? (_ & _ & ?)]]; [by left|by right]. }
  exists (e :: run'). apply spec_run_step; [done| |by rewrite Hnext].
  unfold InputSymbol_match.
  destruct Hsym as [->|[-> (Hsep & Hend & _)]]; [done|].
  apply andb_true_iff. split; apply negb_true_iff, Ascii.eqb_neq; done.
Qed.

(** C2.  [*] matches any run of characters of one path segment, the
    empty run included: the pattern "/a*b" matches the path "/ab" and
    does not match "/a/b"; it matches "/a", any run of characters that
    are neither the separator nor the null character, "b".  The "*"
    is a self-loop on the node behind the "a" (node 2); its symbol,
    any path segment symbol, matches a character exactly when it is
    neither the path separator nor the end of line. *)
Theorem star_stays_in_its_segment `{StdSort} :
  compile_and_match "/a*b" "/ab" = Returned true ∧
  compile_and_match "/a*b" "/a/b" = Returned false ∧
  (∀ w, segment_chars w →
        compile_and_match "/a*b" (String.append "/a" (String.append w "b"))
          = Returned true) ∧
  has_edge (nodesArray (setPattern "/a*b" SimpleStateMachine_new)) 2
    {| symbol := InputSymbol_of eAnyPathSegmentSymbol; nextNodeId := 2 |} ∧
  (∀ c, InputSymbol_match (InputSymbol_of eAnyPathSegmentSymbol) c = true ↔
        c ≠ PATH_SEPARATOR ∧ c ≠ END_OF_LINE).
Proof.
  split; [evaluate_match|]. split; [evaluate_match|].
  split; [|split; [find_edge|]].
  - intros w Hw.
    destruct (compile_and_match_spec "/a*b"
                (String.append "/a" (String.append w "b")))
      as (b & -> & Hiff); [discriminate|discriminate|].
    f_equal. apply Hiff. clear Hiff.
    set (nodes := nodesArray (setPattern "/a*b" SimpleStateMachine_new)).
    destruct (spec_run_loop nodes 2
                {| symbol := InputSymbol_of eAnyPathSegmentSymbol; nextNodeId := 2 |}
                w "b"
                [ {| symbol := {| stype := eOneSymbol; sym := "b" |}; nextNodeId := 3 |};
                  {| symbol := InputSymbol_of eEndOfLine;
                     nextNodeId := SUCCESS_NODE_IDX |} ])
      as [run Hrun]; [find_edge|done|by right| |].
    + apply spec_run_step; [find_edge|done|].
      apply spec_run_end; [find_edge|done|done].
    + exists ({| symbol := {| stype := eOneSymbol; sym := "/" |}; nextNodeId := 1 |}
              :: {| symbol := {| stype := eOneSymbol; sym := "a" |}; nextNodeId := 2 |}
              :: run).
      simpl String.append.
      apply spec_run_step; [find_edge|done|].
      apply spec_run_step; [find_edge|done|]. exact Hrun.
  - intros c. unfold InputSymbol_match. simpl.
    rewrite andb_true_iff, !negb_true_iff, !Ascii.eqb_neq. done.
Qed.

Lemma star_stays_in_its_segment_witness :
  @compile_and_match insertion_StdSort "/a*b" "/ab" = Returned true ∧
  @compile_and_match insertion_StdSort "/a*b" "/a/b" = Returned false ∧
  segment_chars "x.y" ∧
  @compile_and_match insertion_StdSort "/a*b" "/ax.yb" = Returned true.
Proof.
  pose proof (star_stays_in_its_segment (H:=insertion_StdSort))
    as (Hyes & Hno & Hrun & _).
  assert (Hw : segment_chars "x.y").
  { simpl. repeat split; discriminate. }
  split; [exact Hyes|]. split; [exact Hno|]. split; [exact Hw|].
  exact (Hrun "x.y"%string Hw).
Defined.

(** C3.  [**] after a separator matches any run of characters across
    segment boundaries, no segment at all included: the pattern
    "/a/**/b" matches each of "/a/b", "/a/x/b" and "/a/x/y/b"; it
    matches "/a/", any run of characters whatever, "b".  The "**" is
    a self-loop on the node behind the second separator (node 3); its
    symbol, any symbol, matches every character. *)
Theorem double_star_crosses_segments `{StdSort} :
  compile_and_match "/a/**/b" "/a/b" = Returned true ∧
  compile_and_match "/a/**/b" "/a/x/b" = Returned true ∧
  compile_and_match "/a/**/b" "/a/x/y/b" = Returned true ∧
  (∀ w, compile_and_match "/a/**/b" (String.append "/a/" (String.append w "b"))
          = Returned true) ∧
  has_edge (nodesArray (setPattern "/a/**/b" SimpleStateMachine_new)) 3
    {| symbol := InputSymbol_of eAnySymbol; nextNodeId := 3 |} ∧
  (∀ c, InputSymbol_match (InputSymbol_of eAnySymbol) c = true).
Proof.
  split; [evaluate_match|]. split; [evaluate_match|]. split; [evaluate_match|].
  split; [|split; [find_edge|done]].
  intros w.
  destruct (compile_and_match_spec "/a/**/b"
              (String.append "/a/" (String.append w "b")))
    as (b & -> & Hiff); [discriminate|discriminate|].
  f_equal. apply Hiff. clear Hiff.
  set (nodes := nodesArray (setPattern "/a/**/b" SimpleStateMachine_new)).
  destruct (spec_run_loop nodes 3
              {| symbol := InputSymbol_of eAnySymbol; nextNodeId := 3 |}
              w "b"
              [ {| symbol := {| stype := eOneSymbol; sym := "b" |}; nextNodeId := 4 |};
                {| symbol := InputSymbol_of eEndOfLine;
                   nextNodeId := SUCCESS_NODE_IDX |} ])
    as [run Hrun]; [find_edge|done|by left| |].
  - apply spec_run_step; [find_edge|done|].
    apply spec_run_end; [find_edge|done|done].
  - exists ({| symbol := {| stype := eOneSymbol; sym := "/" |}; nextNodeId := 1 |}
            :: {| symbol := {| stype := eOneSymbol; sym := "a" |}; nextNodeId := 2 |}
            :: {| symbol := {| stype := eOneSymbol; sym := "/" |}; nextNodeId := 3 |}
            :: run).
    simpl String.append.
    apply spec_run_step; [find_edge|done|].
    apply spec_run_step; [find_edge|done|].
    apply spec_run_step; [find_edge|done|]. exact Hrun.
Qed.

Lemma double_star_crosses_segments_witness :
  @compile_and_match insertion_StdSort "/a/**/b" "/a/b" = Returned true ∧
  @compile_and_match insertion_StdSort "/a/**/b" "/a/x/b" = Returned true ∧
  @compile_and_match insertion_StdSort "/a/**/b" "/a/x/y/b" = Returned true.
Proof.
  pose proof (double_star_crosses_segments (H:=insertion_StdSort))
    as (H0 & H1 & H2 & _).
  split; [exact H0|]. split; [exact H1|exact H2].
Defined.

(** C4.  Backtracking through the edge a literal after a wildcard gets
    back to the wildcard's node: the pattern "/*.txt" matches
    "/a.b.txt", and the pattern "/a*a" matches "/aaaa"; the first
    matches "/", any run of segment characters (dots among them),
    ".txt", the second "/a", any such run, "a".  The edges the search
    goes back through are there: in the first graph the node behind
    the "." (node 2) has an any-path-segment-symbol edge to the node of
    the "*" (node 1), in the second the node behind the last "a"
    (node 3) has one to the node of the "*" (node 2). *)
Theorem literal_after_star_backtracks `{StdSort} :
  compile_and_match "/*.txt" "/a.b.txt" = Returned true ∧
  compile_and_match "/a*a" "/aaaa" = Returned true ∧
  has_edge (nodesArray (setPattern "/*.txt" SimpleStateMachine_new)) 2
    {| symbol := InputSymbol_of eAnyPathSegmentSymbol; nextNodeId := 1 |} ∧
  has_edge (nodesArray (setPattern "/a*a" SimpleStateMachine_new)) 3
    {| symbol := InputSymbol_of eAnyPathSegmentSymbol; nextNodeId := 2 |} ∧
  (∀ w, segment_chars w →
        compile_and_match "/*.txt" (String.append "/" (String.append w ".txt"))
          = Returned true) ∧
  (∀ w, segment_chars w →
        compile_and_match "/a*a" (String.append "/a" (String.append w "a"))
          = Returned true).
Proof.
  split; [evaluate_match|]. split; [evaluate_match|].
  split; [find_edge|]. split; [find_edge|]. split.
  - intros w Hw.
    destruct (compile_and_match_spec "/*.txt"
                (String.append "/" (String.append w ".txt")))
      as (b & -> & Hiff); [discriminate|discriminate|].
    f_equal. apply Hiff. clear Hiff.
    set (nodes := nodesArray (setPattern "/*.txt" SimpleStateMachine_new)).
    destruct (spec_run_loop nodes 1
                {| symbol := InputSymbol_of eAnyPathSegmentSymbol; nextNodeId := 1 |}
                w ".txt"
                [ {| symbol := {| stype := eOneSymbol; sym := "." |}; nextNodeId := 2 |};
                  {| symbol := {| stype := eOneSymbol; sym := "t" |}; nextNodeId := 3 |};
                  {| symbol := {| stype := eOneSymbol; sym := "x" |}; nextNodeId := 4 |};
                  {| symbol := {| stype := eOneSymbol; sym := "t" |}; nextNodeId := 5 |};
                  {| symbol := InputSymbol_of eEndOfLine;
                     nextNodeId := SUCCESS_NODE_IDX |} ])
      as [run Hrun]; [find_edge|done|by right| |].
    + do 4 (apply spec_run_step; [find_edge|done|]).
      apply spec_run_end; [find_edge|done|done].
    + exists ({| symbol := {| stype := eOneSymbol; sym := "/" |}; nextNodeId := 1 |}
              :: run).
      simpl String.append. apply spec_run_step; [find_edge|done|]. exact Hrun.
  - intros w Hw.
    destruct (compile_and_match_spec "/a*a"
                (String.append "/a" (String.append w "a")))
      as (b & -> & Hiff); [discriminate|discriminate|].
    f_equal. apply Hiff. clear Hiff.
    set (nodes := nodesArray (setPattern "/a*a" SimpleStateMachine_new)).
    destruct (spec_run_loop nodes 2
                {| symbol := InputSymbol_of eAnyPathSegmentSymbol; nextNodeId := 2 |}
                w "a"
                [ {| symbol := {| stype := eOneSymbol; sym := "a" |}; nextNodeId := 3 |};
                  {| symbol := InputSymbol_of eEndOfLine;
                     nextNodeId := SUCCESS_NODE_IDX |} ])
      as [run Hrun]; [find_edge|done|by right| |].
    + apply spec_run_step; [find_edge|done|].
      apply spec_run_end; [find_edge|done|done].
    + exists ({| symbol := {| stype := eOneSymbol; sym := "/" |}; nextNodeId := 1 |}
              :: {| symbol := {| stype := eOneSymbol; sym := "a" |}; nextNodeId := 2 |}
              :: run).
      simpl String.append.
      apply spec_run_step; [find_edge|done|].
      apply spec_run_step; [find_edge|done|]. exact Hrun.
Qed.

Lemma literal_after_star_backtracks_witness :
  @compile_and_match insertion_StdSort "/*.txt" "/a.b.txt" = Returned true ∧
  @compile_and_match insertion_StdSort "/a*a" "/aaaa" = Returned true ∧
  segment_chars "a.b" ∧
  @compile_and_match insertion_StdSort "/*.txt" "/a.b.txt" = Returned true.
Proof.
  pose proof (literal_after_star_backtracks (H:=insertion_StdSort))
    as (Htxt & Haa & _ & _ & Hrun & _).
  assert (Hw : segment_chars "a.b").
  { simpl. repeat split; discriminate. }
  split; [exact Htxt|]. split; [exact Haa|]. split; [exact Hw|].
  exact (Hrun "a.b"%string Hw).
Defined.

(** C5, as the specification states it, fails: [match] on an empty
    path does return the plain boolean [false]. *)
Lemma empty_path_returns_false :
  ¬ (∀ m : Memory,
       pathString m = EmptyString → fst (match_ m) ≠ Returned false).
Proof.
  intros Hclaim.
  apply (Hclaim {| machine := setPattern "/a" SimpleStateMachine_new;
                   pathString := EmptyString |}); reflexivity.
Qed.

(** C5, amended.  [setPattern] on an empty pattern returns with the
    machine as it was, and has no way to signal anything; [match] on an
    empty path returns the boolean [false], whatever the machine holds,
    and leaves the memory as it was.  The misuse that is signalled is
    [match] with a non-empty path on a machine without nodes, which is
    what [setPattern] on an empty pattern leaves of a new machine: it
    throws the runtime error "no pattern was set for state machine".
    Through [main] an empty path ends in exit code 1, no match, and an
    empty pattern never reaches [setPattern]: [standardizePattern]
    makes it "/**/". *)
Theorem empty_inputs_are_not_signalled `{StdSort} :
  (∀ sm, setPattern EmptyString sm = sm) ∧
  (∀ m, pathString m = EmptyString → match_ m = (Returned false, m)) ∧
  (∀ m, pathString m ≠ EmptyString →
        nodesArray (machine m) = [] →
        match_ m = (Thrown "no pattern was set for state machine", m)) ∧
  (∀ path, path ≠ EmptyString →
        compile_and_match EmptyString path
          = Thrown "no pattern was set for state machine") ∧
  (∀ pattern, main_ EmptyString pattern = Some 1) ∧
  standardizePattern EmptyString = "/**/"%string.
Proof.
  split; [|split; [|split; [|split; [|split; [|done]]]]].
  - by intros [nodes].
  - intros m Hm. unfold match_. by rewrite Hm.
  - intros m Hm Hnodes. unfold match_.
    rewrite (proj2 (str_empty_false _) Hm), Hnodes. done.
  - intros path Hpath. unfold compile_and_match, match_. simpl.
    by rewrite (proj2 (str_empty_false _) Hpath).
  - intros pattern. reflexivity.
Qed.

Lemma empty_inputs_are_not_signalled_witness :
  match_ {| machine := setPattern "/a" SimpleStateMachine_new;
            pathString := EmptyString |}
    = (Returned false,
       {| machine := setPattern "/a" SimpleStateMachine_new;
          pathString := EmptyString |}) ∧
  match_ {| machine := SimpleStateMachine_new; pathString := "/a" |}
    = (Thrown "no pattern was set for state machine",
       {| machine := SimpleStateMachine_new; pathString := "/a" |}) ∧
  compile_and_match EmptyString "/a"
    = Thrown "no pattern was set for state machine".
Proof.
  pose proof (empty_inputs_are_not_signalled (H:=insertion_StdSort))
    as (_ & Hfalse & Hthrow & Hnew & _).
  split; [|split].
  - apply Hfalse. reflexivity.
  - apply Hthrow; [discriminate|reflexivity].
  - apply Hnew. discriminate.
Defined.

(** A pattern that starts and ends with the separator does get its
    "**": the position [len - 1] read after the prefix step is the last
    one only as long as no prefix went in front. *)
Lemma standardizePattern_rooted pattern :
  symbolIs pattern 0 PATH_SEPARATOR = true →
  symbolIs pattern (str_length pattern - 1) PATH_SEPARATOR = true →
  standardizePattern pattern = String.append pattern "**".
Proof.
  intros H0 Hlast. unfold standardizePattern. rewrite H0. simpl.
  by rewrite Hlast.
Qed.

(** C6.  The code at the input on which it departs from the claim: the
    pattern "ab/" ends with the separator and does not start with one;
    [standardizePattern] puts "/**/" in front and then looks for the
    separator at the old [len - 1], where the new string has a ['*'],
    so no "**" is appended and a path beneath the directory is not
    matched.  With the separator in front the claim holds: "/dir/"
    becomes "/dir/**" and matches "/dir/anything/at/all".  The same
    stale position gives "abcd", which ends with no separator, a "**":
    position 3 of "/**/abcd" is the separator of the prefix. *)
Theorem trailing_separator_lost_behind_prefix `{StdSort} :
  standardizePattern "ab/" = "/**/ab/" ∧
  compile_and_match (standardizePattern "ab/") "/ab/x" = Returned false ∧
  standardizePattern "/dir/" = "/dir/**" ∧
  compile_and_match (standardizePattern "/dir/") "/dir/anything/at/all"
    = Returned true ∧
  main_ "/ab/x" "ab/" = Some 1 ∧
  main_ "/dir/anything/at/all" "/dir/" = Some 0 ∧
  standardizePattern "abcd" = "/**/abcd**"%string.
Proof.
  repeat split; try evaluate_match;
    unfold main_;
    rewrite (compile_and_match_sort_irrelevant _ insertion_StdSort);
    vm_compute; reflexivity.
Qed.

(** ** Order among edges of equal priority *)

Lemma filter_priority_above r l :
  Forall (λ y, r < priority y) l → filter (λ x, priority x = r) l = [].
Proof.
  induction 1 as [|y l Hy Hl IH]; [done|].
  rewrite filter_cons_False by lia. done.
Qed.

Lemma insert_edge_filter e l r :
  sorted_by compare_edges_priority l →
  filter (λ x, priority x = r) (insert_edge e l) =
  filter (λ x, priority x = r) (l ++ [e]).
Proof.
  induction l as [|x l IH]; intros Hs; simpl; [done|].
  apply sorted_by_priority_cons in Hs as [Hx Hl].
  destruct (compare_edges_priority e x) eqn:Hc.
  - apply Z.ltb_lt in Hc. fold (priority e) (priority x) in Hc.
    change (x :: l ++ [e]) with ((x :: l) ++ [e]). rewrite filter_app.
    destruct (decide (priority e = r)) as [Hr|Hr].
    + rewrite (filter_cons_True _ e) by done.
      rewrite (filter_priority_above r (x :: l)).
      * by rewrite filter_cons_True.
      * constructor; [lia|]. eapply Forall_impl; [exact Hx|]. simpl. lia.
    + rewrite (filter_cons_False _ e) by done.
      rewrite (filter_cons_False _ e []) by done.
      by rewrite filter_nil, app_nil_r.
  - rewrite !(filter_cons _ x). rewrite IH by done. done.
Qed.

Lemma insertion_sort_filter l r :
  filter (λ x, priority x = r) (insertion_sort l) = filter (λ x, priority x = r) l.
Proof.
  unfold insertion_sort.
  assert (Hgen : ∀ acc, sorted_by compare_edges_priority acc →
    filter (λ x, priority x = r) (fold_left (λ acc e, insert_edge e acc) l acc) =
    filter (λ x, priority x = r) (acc ++ l)).
  { induction l as [|x l IH]; intros acc Hacc; simpl.
    - by rewrite app_nil_r.
    - rewrite IH by (by apply insert_edge_sorted).
      rewrite filter_app, insert_edge_filter by done.
      rewrite <- filter_app, <- app_assoc. done. }
  apply (Hgen []). constructor.
Qed.

(** C7, as the specification states it, fails on its second half:
    [std::sort] is no stable sort.  With the sort of libstdc++ the
    17th edge of a node is the first to show it.  For the pattern
    [/*a] followed by sixteen [*], node 2 receives the edge back to
    node 1 and then sixteen loop edges of the same priority.  After
    fifteen of them the edge back to node 1 is still the first; the
    [addEdge] of the sixteenth leaves it in the tenth place, behind
    nine edges that were inserted after it. *)
Lemma seventeenth_edge_breaks_insertion_order :
  let pattern := "/*a****************"%string in
  let start := mkLoop 0 (-1) [Node_new] in
  let before := loopNodes (@setPattern_loop libstdcxx_StdSort 18 pattern start) in
  let after := loopNodes (@setPattern_loop libstdcxx_StdSort 19 pattern start) in
  let e := {| symbol := InputSymbol_of eAnyPathSegmentSymbol; nextNodeId := 2 |} in
  ∃ n, vec_at before 2 = Some n ∧
       nextNodeId <$> edges n = [1; 2; 2; 2; 2; 2; 2; 2; 2; 2; 2; 2; 2; 2; 2; 2] ∧
       vec_at after 2 = Some (@Node_addEdge libstdcxx_StdSort n (symbol e) 2) ∧
       nextNodeId <$> edges (@Node_addEdge libstdcxx_StdSort n (symbol e) 2)
         = [2; 2; 2; 2; 2; 2; 2; 2; 2; 1; 2; 2; 2; 2; 2; 2; 2] ∧
       ¬ keeps_insertion_order (edges n) e
           (edges (@Node_addEdge libstdcxx_StdSort n (symbol e) 2)).
Proof.
  eexists. split; [vm_compute; reflexivity|]. split; [reflexivity|].
  split; [vm_compute; reflexivity|]. split; [vm_compute; reflexivity|].
  intros Hkeep. specialize (Hkeep 2). vm_compute in Hkeep. discriminate.
Qed.

(** C7, amended.  After every [addEdge] call the edge list of the node
    is in ascending priority (one symbol, then end of line, then any
    path segment symbol, then any symbol) and holds the edges it held
    plus the new one, whatever sort meets the contract of [std::sort];
    so does every node at every point of [setPattern] and in the graph
    it returns.  Edges of equal priority are in the order of their
    insertion as long as the sort is an insertion sort: with the sort
    of libstdc++ that is as long as the node has at most 16 edges. *)
Theorem addEdge_keeps_edges_sorted `{StdSort} :
  SymbolType_value eOneSymbol < SymbolType_value eEndOfLine
    < SymbolType_value eAnyPathSegmentSymbol ∧
  SymbolType_value eAnyPathSegmentSymbol < SymbolType_value eAnySymbol ∧
  (∀ n s nodeId,
     node_sorted (Node_addEdge n s nodeId) ∧
     edges (Node_addEdge n s nodeId)
       ≡ₚ edges n ++ [{| symbol := s; nextNodeId := nodeId |}]) ∧
  (∀ n c nodeId,
     node_sorted (Node_addEdge_char n c nodeId) ∧
     edges (Node_addEdge_char n c nodeId)
       ≡ₚ edges n ++ [{| symbol := {| stype := eOneSymbol; sym := c |};
                         nextNodeId := nodeId |}]) ∧
  (∀ pattern fuel,
     all_sorted (loopNodes (setPattern_loop fuel pattern
                              (mkLoop 0 (-1) [Node_new])))) ∧
  (∀ pattern, all_sorted (nodesArray (setPattern pattern SimpleStateMachine_new))) ∧
  (∀ n s nodeId,
     keeps_insertion_order (edges n) {| symbol := s; nextNodeId := nodeId |}
       (edges (@Node_addEdge insertion_StdSort n s nodeId))) ∧
  (∀ n s nodeId,
     (length (edges n) < 16)%nat →
     keeps_insertion_order (edges n) {| symbol := s; nextNodeId := nodeId |}
       (edges (@Node_addEdge libstdcxx_StdSort n s nodeId))) ∧
  (∀ n c nodeId,
     (length (edges n) < 16)%nat →
     keeps_insertion_order (edges n)
       {| symbol := {| stype := eOneSymbol; sym := c |}; nextNodeId := nodeId |}
       (edges (@Node_addEdge_char libstdcxx_StdSort n c nodeId))).
Proof.
  split; [done|]. split; [done|].
  split; [|split; [|split; [|split; [|split; [|split]]]]].
  - intros n s nodeId. split; [apply std_sort_sorted|apply std_sort_perm].
  - intros n c nodeId. split; [apply std_sort_sorted|apply std_sort_perm].
  - intros pattern fuel.
    apply setPattern_loop_inv, (loop_inv_init [] targets_valid_nil all_sorted_nil).
  - intros [|c pattern]; [constructor|].
    by apply (setPattern_new_inv (String c pattern)).
  - intros n s nodeId r. apply insertion_sort_filter.
  - intros n s nodeId Hlen r. cbn [Node_addEdge edges std_sort libstdcxx_StdSort].
    rewrite libstdcxx_sort_short by (rewrite length_app; simpl; lia).
    apply insertion_sort_filter.
  - intros n c nodeId Hlen r. cbn [Node_addEdge_char edges std_sort libstdcxx_StdSort].
    rewrite libstdcxx_sort_short by (rewrite length_app; simpl; lia).
    apply insertion_sort_filter.
Qed.

Lemma addEdge_keeps_edges_sorted_witness :
  let n := {| edges := [ {| symbol := InputSymbol_of eAnyPathSegmentSymbol;
                            nextNodeId := 1 |} ] |} in
  (length (edges n) < 16)%nat ∧
  all_sorted (nodesArray (@setPattern libstdcxx_StdSort "/*a*?"
                            SimpleStateMachine_new)) ∧
  keeps_insertion_order (edges n)
    {| symbol := InputSymbol_of eAnyPathSegmentSymbol; nextNodeId := 2 |}
    (edges (@Node_addEdge libstdcxx_StdSort n
              (InputSymbol_of eAnyPathSegmentSymbol) 2)).
Proof.
  intros n.
  assert (Hlen : (length (edges n) < 16)%nat) by (simpl; lia).
  split; [exact Hlen|].
  pose proof (addEdge_keeps_edges_sorted (H:=libstdcxx_StdSort))
    as (_ & _ & _ & _ & _ & Hsorted & _ & Hkeep & _).
  split; [apply Hsorted|]. exact (Hkeep n _ _ Hlen).
Defined.

(** ** Termination *)

Lemma tryMatch_edges_ext call1 call2 budget nodeIdx s pathPos edgeIdx m :
  (∀ n m', call1 n (pathPos + 1) m' = call2 n (pathPos + 1) m') →
  tryMatch_edges call1 budget nodeIdx s pathPos edgeIdx m =
  tryMatch_edges call2 budget nodeIdx s pathPos edgeIdx m.
Proof.
  intros Hcall. revert edgeIdx m.
  induction budget as [|budget IH]; intros edgeIdx m; simpl; [done|].
  destruct (vec_at _ _) as [node|]; [|done].
  destruct (edgeIdx <? _); [|done].
  destruct (Node_selectEdge _ _ _) as [next|]; [|apply IH].
  rewrite Hcall. destruct (call2 _ _ _) as [[[|]| | |] m']; first [done|apply IH].
Qed.

Lemma called_position nodes path nodeIdx pathPos :
  called nodes path nodeIdx pathPos → 0 <= pathPos <= str_length path + 1.
Proof.
  induction 1 as [|n p node e _ IH _ _ Hpos _ _ _].
  - unfold str_length. lia.
  - apply int_gt_size_false in Hpos. lia.
Qed.

Lemma search_returns nodes path fuel nodeIdx pathPos :
  targets_valid nodes →
  nodeIdx = ERROR_NODE_IDX ∨ valid_ref (vec_size nodes) nodeIdx →
  (depth_bound path pathPos <= fuel)%nat →
  ∃ b, search fuel nodes path nodeIdx pathPos = Returned b.
Proof.
  intros Ht [->|Href] Hfuel.
  - destruct fuel; [pose proof (depth_bound_pos path pathPos); lia|].
    by exists false.
  - destruct (search_spec nodes path fuel nodeIdx pathPos Ht Href Hfuel)
      as (b & Hb & _). by exists b.
Qed.

(** C8.  On the graph [setPattern] builds, [tryMatchPatternPart]
    returns a boolean from every node reference and every position,
    at a depth of recursion of at most the length of the path plus
    two: the loop over the edges uses its recursive call at
    [pathPos + 1] and nowhere else, a call on a sentinel or past the
    end of the path returns at depth one, and no call is made at a
    position beyond the length of the path plus one.  On any memory
    whatever that depth is enough for the call to come back. *)
Theorem tryMatchPatternPart_terminates `{StdSort}
    (pattern path : string) (nodeIdx pathPos : Z) :
  pattern ≠ EmptyString →
  let sm := setPattern pattern SimpleStateMachine_new in
  let m := {| machine := sm; pathString := path |} in
  nodeIdx = ERROR_NODE_IDX ∨ valid_ref (vec_size (nodesArray sm)) nodeIdx →
  (depth_bound path pathPos <= String.length path + 2)%nat ∧
  (∃ b, ∀ fuel, (depth_bound path pathPos <= fuel)%nat →
        tryMatchPatternPart fuel nodeIdx pathPos m = (Returned b, m)) ∧
  (∀ call1 call2 budget s edgeIdx,
     (∀ n m', call1 n (pathPos + 1) m' = call2 n (pathPos + 1) m') →
     tryMatch_edges call1 budget nodeIdx s pathPos edgeIdx m =
     tryMatch_edges call2 budget nodeIdx s pathPos edgeIdx m) ∧
  (nodeIdx = SUCCESS_NODE_IDX ∨ nodeIdx = ERROR_NODE_IDX ∨
   int_gt_size pathPos (str_length path) = true →
   ∃ b, tryMatchPatternPart 1 nodeIdx pathPos m = (Returned b, m)) ∧
  (∀ n p, called (nodesArray sm) path n p → 0 <= p <= str_length path + 1) ∧
  (∀ m' n p fuel, (String.length (pathString m') + 2 <= fuel)%nat →
     fst (tryMatchPatternPart fuel n p m') ≠ OutOfFuel).
Proof.
  intros Hp sm m Href.
  destruct (setPattern_new_inv pattern Hp) as (Hne & Ht & _). fold sm in Hne, Ht.
  split; [apply depth_bound_le|]. split; [|split; [|split; [|split]]].
  - destruct (search_returns (nodesArray sm) path (depth_bound path pathPos)
                nodeIdx pathPos Ht Href) as [b Hb]; [done|].
    exists b. intros fuel Hfuel. rewrite tryMatchPatternPart_search.
    unfold m. cbn [machine pathString].
    rewrite (search_fuel_irrelevant _ _ fuel (depth_bound path pathPos));
      [by rewrite Hb|done|lia].
  - intros call1 call2 budget s edgeIdx. apply tryMatch_edges_ext.
  - intros Hstop. simpl.
    destruct Hstop as [->|[->|Hpos]]; [by exists true|by exists false|].
    destruct (nodeIdx =? SUCCESS_NODE_IDX); [by exists true|].
    destruct (nodeIdx =? ERROR_NODE_IDX); [by exists false|].
    fold (str_length path). rewrite Hpos. by exists false.
  - intros n p. apply called_position.
  - intros m' n p fuel Hfuel. rewrite tryMatchPatternPart_search. simpl.
    apply search_enough_fuel.
    pose proof (depth_bound_le (pathString m') p). lia.
Qed.

Lemma tryMatchPatternPart_terminates_witness :
  "/a*b"%string ≠ EmptyString ∧
  (0 = ERROR_NODE_IDX ∨
   valid_ref (vec_size (nodesArray (setPattern "/a*b" SimpleStateMachine_new))) 0) ∧
  (∃ b, ∀ fuel, (depth_bound "/ab" 0 <= fuel)%nat →
        tryMatchPatternPart fuel 0 0
          {| machine := setPattern "/a*b" SimpleStateMachine_new;
             pathString := "/ab" |}
        = (Returned b,
           {| machine := setPattern "/a*b" SimpleStateMachine_new;
              pathString := "/ab" |})).
Proof.
  assert (Href : 0 = ERROR_NODE_IDX ∨
    valid_ref (vec_size (nodesArray (setPattern "/a*b" SimpleStateMachine_new))) 0).
  { right. right. vm_compute. split; [discriminate|reflexivity]. }
  split; [discriminate|]. split; [exact Href|].
  apply (tryMatchPatternPart_terminates "/a*b" "/ab" 0 0); [discriminate|exact Href].
Defined.

(** C9.  [match] is a function of the graph and the path and writes to
    neither: on the graph [setPattern] builds from a non-empty pattern
    and for a non-empty path it returns a boolean and leaves the node
    vector and the path string as they were, and a second call, made
    on the memory the first one left, returns the same boolean; on any
    memory whatever, [match] and [tryMatchPatternPart] leave the memory
    as it was and a repeated [match] has the same outcome. *)
Theorem match_reads_only_and_repeats `{StdSort} (pattern path : string) :
  pattern ≠ EmptyString →
  path ≠ EmptyString →
  let m := {| machine := setPattern pattern SimpleStateMachine_new;
              pathString := path |} in
  (∃ b, fst (match_ m) = Returned b ∧
        nodesArray (machine (snd (match_ m))) = nodesArray (machine m) ∧
        pathString (snd (match_ m)) = path ∧
        fst (match_ (snd (match_ m))) = Returned b) ∧
  (∀ m', snd (match_ m') = m' ∧ match_ (snd (match_ m')) = match_ m') ∧
  (∀ fuel nodeIdx pathPos m',
     snd (tryMatchPatternPart fuel nodeIdx pathPos m') = m').
Proof.
  intros Hp Hpath m. split; [|split].
  - destruct (compile_and_match_spec pattern path Hp Hpath) as (b & Hb & _).
    unfold compile_and_match in Hb. fold m in Hb.
    exists b. rewrite !match_unchanged. done.
  - intros m'. by rewrite !match_unchanged.
  - intros fuel nodeIdx pathPos m'. by rewrite tryMatchPatternPart_search.
Qed.

Lemma match_reads_only_and_repeats_witness :
  "/a*b"%string ≠ EmptyString ∧ "/ab"%string ≠ EmptyString ∧
  ∃ b,
    fst (match_ {| machine := setPattern "/a*b" SimpleStateMachine_new;
                   pathString := "/ab" |}) = Returned b ∧
    nodesArray (machine (snd (match_
      {| machine := setPattern "/a*b" SimpleStateMachine_new;
         pathString := "/ab" |})))
      = nodesArray (setPattern "/a*b" SimpleStateMachine_new) ∧
    pathString (snd (match_
      {| machine := setPattern "/a*b" SimpleStateMachine_new;
         pathString := "/ab" |})) = "/ab"%string ∧
    fst (match_ (snd (match_
      {| machine := setPattern "/a*b" SimpleStateMachine_new;
         pathString := "/ab" |}))) = Returned b.
Proof.
  split; [discriminate|]. split; [discriminate|].
  apply (match_reads_only_and_repeats "/a*b" "/ab"); discriminate.
Defined.

(** ** Node references in a compiled graph *)

Lemma called_valid nodes path nodeIdx pathPos :
  0 < vec_size nodes →
  targets_valid nodes →
  called nodes path nodeIdx pathPos →
  valid_ref (vec_size nodes) nodeIdx.
Proof.
  intros Hne Ht. induction 1 as [|n p node e _ _ _ _ _ Hnode He _].
  - by apply valid_ref_first.
  - eapply targets_valid_lookup; eauto.
Qed.

(** C10.  In the graph [setPattern] builds from a non-empty pattern the
    target of every edge is the SUCCESS sentinel or an index of the
    node vector, and never the FAIL sentinel.  So every call that
    [tryMatchPatternPart 0 0] can lead to is on SUCCESS or on a node of
    the vector, none is on FAIL, and [match] never reads outside the
    vector. *)
Theorem compiled_edges_have_valid_targets `{StdSort} (pattern path : string) :
  pattern ≠ EmptyString →
  let sm := setPattern pattern SimpleStateMachine_new in
  (∀ node e, node ∈ nodesArray sm → e ∈ edges node →
     (nextNodeId e = SUCCESS_NODE_IDX ∨
      0 <= nextNodeId e < vec_size (nodesArray sm)) ∧
     nextNodeId e ≠ ERROR_NODE_IDX) ∧
  (∀ nodeIdx pathPos, called (nodesArray sm) path nodeIdx pathPos →
     nodeIdx ≠ ERROR_NODE_IDX ∧
     (nodeIdx = SUCCESS_NODE_IDX ∨ is_Some (vec_at (nodesArray sm) nodeIdx))) ∧
  fst (match_ {| machine := sm; pathString := path |}) ≠ OutOfBounds.
Proof.
  intros Hp sm.
  destruct (setPattern_new_inv pattern Hp) as (Hne & Ht & _). fold sm in Hne, Ht.
  split; [|split].
  - intros node e Hnode He.
    assert (Href : valid_ref (vec_size (nodesArray sm)) (nextNodeId e)).
    { unfold targets_valid in Ht. rewrite Forall_forall in Ht.
      specialize (Ht _ Hnode). rewrite Forall_forall in Ht. by apply Ht. }
    split; [exact Href|]. by eapply valid_ref_not_error.
  - intros nodeIdx pathPos Hcalled.
    pose proof (called_valid _ _ _ _ Hne Ht Hcalled) as Href.
    split; [by eapply valid_ref_not_error|].
    destruct Href as [?|Hidx]; [by left|]. right. by apply vec_at_is_Some.
  - destruct path as [|c path]; [done|].
    destruct (compile_and_match_spec pattern (String c path) Hp) as (b & Hb & _);
      [done|].
    unfold compile_and_match in Hb. fold sm in Hb. by rewrite Hb.
Qed.

Lemma compiled_edges_have_valid_targets_witness :
  "/a*b"%string ≠ EmptyString ∧
  (∀ node e,
     node ∈ nodesArray (setPattern "/a*b" SimpleStateMachine_new) →
     e ∈ edges node →
     (nextNodeId e = SUCCESS_NODE_IDX ∨
      0 <= nextNodeId e
        < vec_size (nodesArray (setPattern "/a*b" SimpleStateMachine_new))) ∧
     nextNodeId e ≠ ERROR_NODE_IDX) ∧
  fst (match_ {| machine := setPattern "/a*b" SimpleStateMachine_new;
                 pathString := "/ab" |}) ≠ OutOfBounds.
Proof.
  split; [discriminate|].
  pose proof (compiled_edges_have_valid_targets "/a*b" "/ab") as Hthm.
  destruct Hthm as (Hedges & _ & Hmatch); [discriminate|].
  split; [exact Hedges|exact Hmatch].
Defined.

(** * Further properties of the code *)

(** ** symbolIs *)

Lemma str_at_get s pos c :
  0 <= pos → String.get (Z.to_nat pos) s = Some c → str_at s pos = c.
Proof. intros _ Hget. unfold str_at. by rewrite Hget. Qed.

Lemma str_at_end s : str_at s (str_length s) = END_OF_LINE.
Proof.
  unfold str_at, str_length. rewrite Nat2Z.id.
  by rewrite string_get_None by lia.
Qed.

Lemma string_get_lt s n c : String.get n s = Some c → (n < String.length s)%nat.
Proof.
  intros Hget. destruct (Nat.lt_ge_cases n (String.length s)) as [|Hge]; [done|].
  by rewrite string_get_None in Hget.
Qed.

Lemma symbolIs_true str pos c :
  symbolIs str pos c = true ↔
  (0 <= pos ∧ String.get (Z.to_nat pos) str = Some c) ∨
  (pos = str_length str ∧ c = END_OF_LINE).
Proof.
  unfold symbolIs, int_gt_size. split.
  - destruct (Z.ltb_spec pos 0); [done|].
    destruct (Z.ltb_spec (str_length str) pos); [done|]. simpl.
    intros Heq. apply Ascii.eqb_eq in Heq. subst c.
    destruct (Z.eq_dec pos (str_length str)) as [->|Hne].
    + right. by rewrite str_at_end.
    + left. split; [done|]. unfold str_at, str_length in *.
      destruct (string_get_is_Some str (Z.to_nat pos)) as [d Hd]; [lia|].
      by rewrite Hd.
  - intros [[Hpos Hget]|[-> ->]].
    + pose proof (string_get_lt _ _ _ Hget) as Hlt. unfold str_length.
      replace (pos <? 0) with false by (symmetry; apply Z.ltb_ge; lia).
      replace (Z.of_nat (String.length str) <? pos) with false
        by (symmetry; apply Z.ltb_ge; lia).
      simpl. rewrite (str_at_get _ _ _ Hpos Hget). apply Ascii.eqb_refl.
    + unfold str_length.
      replace (Z.of_nat (String.length str) <? 0) with false
        by (symmetry; apply Z.ltb_ge; lia).
      rewrite Z.ltb_irrefl. simpl. fold (str_length str).
      rewrite str_at_end. apply Ascii.eqb_refl.
Qed.

(** [symbolIs] is [false] for every position before the string and for
    every position beyond its length; at a position of the string it
    compares the character there, and at the length itself the
    terminating null character. *)
Theorem symbolIs_reads_inside_the_string str pos c :
  (symbolIs str pos c = true ↔
   (0 <= pos ∧ String.get (Z.to_nat pos) str = Some c) ∨
   (pos = str_length str ∧ c = END_OF_LINE)) ∧
  (pos < 0 ∨ str_length str < pos → symbolIs str pos c = false) ∧
  symbolIs str (str_length str) c = Ascii.eqb END_OF_LINE c.
Proof.
  split; [apply symbolIs_true|]. split.
  - intros Hout. destruct (symbolIs str pos c) eqn:H; [|done].
    apply symbolIs_true in H as [[Hpos Hget]|[-> _]].
    + apply string_get_lt in Hget. unfold str_length in Hout. lia.
    + unfold str_length in Hout. lia.
  - unfold symbolIs, int_gt_size, str_length.
    replace (Z.of_nat (String.length str) <? 0) with false
      by (symmetry; apply Z.ltb_ge; lia).
    rewrite Z.ltb_irrefl. simpl. fold (str_length str).
    by rewrite str_at_end.
Qed.

Lemma symbolIs_reads_inside_the_string_witness :
  (-1 < 0 ∨ str_length "ab" < -1) ∧ symbolIs "ab" (-1) "a" = false.
Proof.
  assert (Hout : -1 < 0 ∨ str_length "ab" < -1) by (left; lia).
  split; [exact Hout|].
  destruct (symbolIs_reads_inside_the_string "ab" (-1) "a") as (_ & Hfalse & _).
  exact (Hfalse Hout).
Defined.

Lemma symbolIs_inside str pos c :
  symbolIs str pos c = true → c ≠ END_OF_LINE → 0 <= pos < str_length str.
Proof.
  intros H Hc. apply symbolIs_true in H as [[Hpos Hget]|[_ ?]];
    [|done].
  apply string_get_lt in Hget. unfold str_length. lia.
Qed.

Lemma symbolIs_first c str d : symbolIs (String c str) 0 d = Ascii.eqb c d.
Proof.
  unfold symbolIs, int_gt_size, str_length. simpl String.length.
  rewrite Nat2Z.inj_succ.
  replace (Z.succ (Z.of_nat (String.length str)) <? 0) with false
    by (symmetry; apply Z.ltb_ge; lia).
  reflexivity.
Qed.

Lemma symbolIs_first_inv str d :
  symbolIs str 0 d = true → d ≠ END_OF_LINE → ∃ str', str = String d str'.
Proof.
  destruct str as [|c str]; intros H Hd.
  - apply symbolIs_true in H as [[_ H]|[_ H]]; done.
  - rewrite symbolIs_first in H. apply Ascii.eqb_eq in H. subst. by eexists.
Qed.

(** ** standardizePathSeparators *)

(** [standardizePathSeparators] keeps the length of the string, puts a
    slash wherever there was a backslash and keeps every other
    character; no backslash is left, a string without backslash comes
    back as it was, and a second pass changes nothing. *)
Theorem standardizePathSeparators_replaces_backslashes s :
  String.length (standardizePathSeparators s) = String.length s ∧
  (∀ n, String.get n (standardizePathSeparators s) =
        (λ c, if Ascii.eqb c "\"%char then "/"%char else c) <$> String.get n s) ∧
  (∀ n, String.get n (standardizePathSeparators s) ≠ Some "\"%char) ∧
  ((∀ n, String.get n s ≠ Some "\"%char) → standardizePathSeparators s = s) ∧
  standardizePathSeparators (standardizePathSeparators s) =
    standardizePathSeparators s.
Proof.
  assert (Hget : ∀ s n, String.get n (standardizePathSeparators s) =
    (λ c, if Ascii.eqb c "\"%char then "/"%char else c) <$> String.get n s).
  { clear s. induction s as [|c s IH]; intros n; simpl; [by destruct n|].
    destruct n; [done|]. apply IH. }
  assert (Hno : ∀ s n, String.get n (standardizePathSeparators s) ≠ Some "\"%char).
  { clear s. intros s n. rewrite Hget.
    destruct (String.get n s) as [c|]; simpl; [|done].
    destruct (Ascii.eqb_spec c "\"%char); congruence. }
  assert (Hid : ∀ s, (∀ n, String.get n s ≠ Some "\"%char) →
                     standardizePathSeparators s = s).
  { clear s. induction s as [|c s IH]; intros Hs; simpl; [done|].
    destruct (Ascii.eqb_spec c "\"%char) as [->|_].
    - by specialize (Hs 0%nat).
    - f_equal. apply IH. intros n. apply (Hs (S n)). }
  split.
  { induction s as [|c s IH]; simpl; [done|]. by rewrite IH. }
  split; [apply Hget|]. split; [apply Hno|]. split; [apply Hid|].
  apply Hid, Hno.
Qed.

Lemma standardizePathSeparators_replaces_backslashes_witness :
  (∀ n, String.get n "/usr/lib" ≠ Some "\"%char) ∧
  standardizePathSeparators "/usr/lib" = "/usr/lib"%string.
Proof.
  assert (Hs : ∀ n, String.get n "/usr/lib" ≠ Some "\"%char).
  { intros n. do 9 (destruct n as [|n]; [discriminate|]). discriminate. }
  split; [exact Hs|].
  pose proof (standardizePathSeparators_replaces_backslashes "/usr/lib")
    as (_ & _ & _ & Hid & _).
  exact (Hid Hs).
Defined.

(** ** standardizePattern *)

Lemma string_append_empty_r s : String.append s EmptyString = s.
Proof.
  induction s as [|c s IH]; [done|].
  change (String c (String.append s EmptyString) = String c s). by f_equal.
Qed.

Lemma standardizePattern_shape pattern :
  ∃ prefix suffix,
    standardizePattern pattern
      = String.append prefix (String.append pattern suffix) ∧
    prefix = (if symbolIs pattern 0 PATH_SEPARATOR then EmptyString
              else if symbolIs pattern 0 "*"%char && symbolIs pattern 1 "*"%char
                   then "/"%string else "/**/"%string) ∧
    (suffix = EmptyString ∨ suffix = "**"%string) ∧
    symbolIs (standardizePattern pattern) 0 PATH_SEPARATOR = true ∧
    standardizePattern pattern ≠ EmptyString.
Proof.
  unfold standardizePattern.
  destruct (symbolIs pattern 0 PATH_SEPARATOR) eqn:Hsep; simpl negb; cbv iota.
  - destruct (symbolIs_first_inv _ _ Hsep) as [rest ->]; [done|].
    exists EmptyString.
    destruct (symbolIs _ (str_length _ - 1) PATH_SEPARATOR).
    + exists "**"%string. simpl. split; [done|]. split; [done|].
      split; [by right|]. split; [apply symbolIs_first|done].
    + exists EmptyString. simpl. rewrite string_append_empty_r.
      split; [done|]. split; [done|]. split; [by left|].
      split; [apply symbolIs_first|done].
  - destruct (symbolIs pattern 0 "*"%char && symbolIs pattern 1 "*"%char).
    + exists "/"%string.
      destruct (symbolIs _ (str_length _ - 1) PATH_SEPARATOR).
      * exists "**"%string. simpl. split; [done|]. split; [done|].
        split; [by right|]. split; [apply symbolIs_first|done].
      * exists EmptyString. simpl. rewrite string_append_empty_r.
        split; [done|]. split; [done|]. split; [by left|].
        split; [apply symbolIs_first|done].
    + exists "/**/"%string.
      destruct (symbolIs _ (str_length _ - 1) PATH_SEPARATOR).
      * exists "**"%string. simpl. split; [done|]. split; [done|].
        split; [by right|]. split; [apply symbolIs_first|done].
      * exists EmptyString. simpl. rewrite string_append_empty_r.
        split; [done|]. split; [done|]. split; [by left|].
        split; [apply symbolIs_first|done].
Qed.

(** [standardizePattern] keeps the pattern it is given and only puts
    something around it: nothing in front of a pattern that starts
    with the separator, "/" in front of one that starts with "**",
    "/**/" in front of any other; nothing or "**" behind.  What it
    returns always starts with the separator, so it is never empty. *)
Theorem standardizePattern_wraps_the_pattern pattern :
  ∃ prefix suffix,
    standardizePattern pattern
      = String.append prefix (String.append pattern suffix) ∧
    prefix = (if symbolIs pattern 0 PATH_SEPARATOR then EmptyString
              else if symbolIs pattern 0 "*"%char && symbolIs pattern 1 "*"%char
                   then "/"%string else "/**/"%string) ∧
    (suffix = EmptyString ∨ suffix = "**"%string) ∧
    symbolIs (standardizePattern pattern) 0 PATH_SEPARATOR = true ∧
    standardizePattern pattern ≠ EmptyString.
Proof. apply standardizePattern_shape. Qed.

Lemma standardizePattern_not_empty pattern :
  standardizePattern pattern ≠ EmptyString.
Proof.
  destruct (standardizePattern_shape pattern)
    as (_ & _ & _ & _ & _ & _ & H). exact H.
Qed.

(** ** main *)

Lemma standardizePathSeparators_empty s :
  standardizePathSeparators s = EmptyString ↔ s = EmptyString.
Proof. by destruct s. Qed.

(** [main], given its two arguments, ends with 0 or with 1 and with
    nothing else: the pattern it compiles is never empty, so [match]
    never throws and exit code 2 is left to the wrong number of
    arguments.  It ends with 0 exactly when the pattern, standardized,
    matches the path; an empty path ends with 1. *)
Theorem main_ends_with_match_or_no_match `{StdSort} (path pattern : string) :
  ∃ bMatch,
    compile_and_match
      (standardizePattern (standardizePathSeparators pattern))
      (standardizePathSeparators path) = Returned bMatch ∧
    main_ path pattern = Some (if bMatch then 0 else 1) ∧
    (path = EmptyString → bMatch = false).
Proof.
  unfold main_.
  destruct (standardizePathSeparators path) as [|c rest] eqn:Hpath.
  - exists false. split; [done|]. split; [done|]. done.
  - destruct (compile_and_match_spec
                (standardizePattern (standardizePathSeparators pattern))
                (String c rest)) as (b & Hb & _);
      [apply standardizePattern_not_empty|done|].
    exists b. rewrite Hb. split; [done|]. split; [done|].
    intros ->. done.
Qed.

Lemma main_ends_with_match_or_no_match_witness :
  ∃ bMatch,
    compile_and_match
      (standardizePattern (standardizePathSeparators "*.txt"))
      (standardizePathSeparators "C:\docs\a.txt") = Returned bMatch ∧
    main_ "C:\docs\a.txt" "*.txt" = Some (if bMatch then 0 else 1).
Proof.
  destruct (main_ends_with_match_or_no_match "C:\docs\a.txt" "*.txt")
    as (b & Hb & Hmain & _).
  exists b. split; [exact Hb|exact Hmain].
Defined.

(** ** setPattern works at the end of the node vector *)

Section Appending.
Context {sorter : StdSort}.

Lemma Node_addEdge_has_edges n s nodeId : edges (Node_addEdge n s nodeId) ≠ [].
Proof.
  simpl. intros Hnil.
  pose proof (Permutation_length
                (std_sort_perm (edges n ++ [{| symbol := s; nextNodeId := nodeId |}])))
    as Hlen.
  rewrite Hnil, length_app in Hlen. simpl in Hlen. lia.
Qed.

Lemma addEdge_at_snoc init x rest s nodeId :
  addEdge (init ++ x :: rest) (vec_size init) s nodeId =
  init ++ Node_addEdge x s nodeId :: rest.
Proof.
  unfold addEdge, vec_size.
  replace (Z.of_nat (length init) <? 0) with false by (symmetry; apply Z.ltb_ge; lia).
  rewrite Nat2Z.id.
  replace (length init) with (length init + 0)%nat at 1 by lia.
  by rewrite alter_app_r.
Qed.

Lemma addEdge_at_snoc_next init x y s nodeId :
  addEdge (init ++ [x; y]) (vec_size init + 1) s nodeId =
  init ++ [x; Node_addEdge y s nodeId].
Proof.
  change (init ++ [x; y]) with (init ++ [x] ++ [y]). rewrite app_assoc.
  replace (vec_size init + 1) with (vec_size (init ++ [x])).
  - rewrite addEdge_at_snoc. by rewrite <- app_assoc.
  - unfold vec_size. rewrite length_app. simpl. lia.
Qed.

(** One iteration of the loop leaves the nodes before the last one as
    they are, gives the last one an edge, and appends at most one
    node. *)
Lemma setPattern_body_snoc pattern pos star init last :
  ∃ last' rest,
    loopNodes (setPattern_body pattern (mkLoop pos star (init ++ [last])))
      = init ++ last' :: rest ∧
    edges last' ≠ [] ∧
    (rest = [] ∨ ∃ new, rest = [new]).
Proof.
  unfold setPattern_body, createNewNode, lastNodeIdx. simpl.
  rewrite !addEdge_char_addEdge.
  assert (Hsize : vec_size (init ++ [last]) - 1 = vec_size init).
  { unfold vec_size. rewrite length_app. simpl. lia. }
  assert (Hsize' : vec_size ((init ++ [last]) ++ [Node_new]) - 1 = vec_size init + 1).
  { unfold vec_size. rewrite !length_app. simpl. lia. }
  rewrite Hsize, Hsize', <- !app_assoc. simpl app.
  repeat case_match; simpl;
    rewrite ?addEdge_at_snoc, ?addEdge_at_snoc_next;
    eexists _, _; (split; [reflexivity|]);
    (split; [apply Node_addEdge_has_edges|]); eauto.
Qed.

(** The nodes in the vector before [setPattern] starts stay as they
    are all through the loop; behind them every node but the last has
    an edge. *)
Lemma setPattern_loop_appends fuel pattern pos star base init last :
  Forall (λ n, edges n ≠ []) init →
  ∃ init' last',
    loopNodes (setPattern_loop fuel pattern
                 (mkLoop pos star (base ++ init ++ [last])))
      = base ++ init' ++ [last'] ∧
    Forall (λ n, edges n ≠ []) init'.
Proof.
  revert pos star init last.
  induction fuel as [|fuel IH]; intros pos star init last Hinit; simpl.
  { by exists init, last. }
  destruct (int_lt_size pos (str_length pattern)); [|by exists init, last].
  destruct (setPattern_body_snoc pattern pos star (base ++ init) last)
    as (last1 & rest & Hnodes & Hlast1 & Hrest).
  rewrite <- app_assoc in Hnodes.
  destruct (setPattern_body pattern (mkLoop pos star (base ++ init ++ [last])))
    as [pos' star' nodes'] eqn:Hbody.
  simpl in Hnodes. subst nodes'.
  destruct Hrest as [->|[new ->]].
  - rewrite <- app_assoc. by apply IH.
  - replace ((base ++ init) ++ [last1; new])
      with (base ++ (init ++ [last1]) ++ [new])
      by (by rewrite <- !app_assoc).
    apply IH. apply Forall_app. split; [done|]. by constructor.
Qed.

Lemma setPattern_nodes_appends pattern nodes :
  pattern ≠ EmptyString →
  ∃ added,
    setPattern_nodes pattern nodes = nodes ++ added ∧
    added ≠ [] ∧
    Forall (λ n, edges n ≠ []) added.
Proof.
  intros Hp. rewrite setPattern_nodes_nonempty by done. simpl.
  destruct (setPattern_loop_appends (String.length pattern) pattern 0 (-1)
              nodes [] Node_new) as (init & last & Hnodes & Hinit);
    [constructor|].
  simpl in Hnodes. rewrite Hnodes.
  unfold lastNodeIdx.
  replace (vec_size (nodes ++ init ++ [last]) - 1) with (vec_size (nodes ++ init))
    by (unfold vec_size; rewrite !length_app; simpl; lia).
  rewrite app_assoc, addEdge_at_snoc, <- app_assoc.
  eexists. split; [reflexivity|]. split; [by destruct init|].
  apply Forall_app. split; [done|].
  constructor; [apply Node_addEdge_has_edges|constructor].
Qed.

End Appending.

(** [setPattern] with a non-empty pattern appends at least one node to
    the node vector and changes none of the nodes that were there, and
    every node it appends has at least one edge: from each of them the
    search can go on for some input. *)
Theorem setPattern_appends_nodes_with_edges `{StdSort}
    (pattern : string) (sm : SimpleStateMachine) :
  pattern ≠ EmptyString →
  ∃ added,
    nodesArray (setPattern pattern sm) = nodesArray sm ++ added ∧
    added ≠ [] ∧
    Forall (λ n, edges n ≠ []) added.
Proof. intros Hp. by apply setPattern_nodes_appends. Qed.

Lemma setPattern_appends_nodes_with_edges_witness :
  "/a*b"%string ≠ EmptyString ∧
  ∃ added,
    nodesArray (setPattern "/a*b" (setPattern "/x" SimpleStateMachine_new))
      = nodesArray (setPattern "/x" SimpleStateMachine_new) ++ added ∧
    added ≠ [] ∧
    Forall (λ n, edges n ≠ []) added.
Proof.
  split; [discriminate|].
  apply (setPattern_appends_nodes_with_edges "/a*b"). discriminate.
Defined.

(** ** The size of the graph *)

Section GraphSize.
Context {sorter : StdSort}.

Lemma edge_count_app nodes1 nodes2 :
  edge_count (nodes1 ++ nodes2) = (edge_count nodes1 + edge_count nodes2)%nat.
Proof. apply sum_list_with_app. Qed.

Lemma edge_count_addEdge nodes fromNodeIdx s toNodeIdx :
  (edge_count (addEdge nodes fromNodeIdx s toNodeIdx) <= edge_count nodes + 1)%nat.
Proof.
  unfold addEdge. destruct (fromNodeIdx <? 0); [lia|].
  generalize (Z.to_nat fromNodeIdx). intros i. revert i.
  induction nodes as [|n nodes IH]; intros [|i]; simpl; try lia.
  - unfold edge_count. simpl.
    rewrite (Permutation_length (std_sort_perm _)), length_app. simpl. lia.
  - specialize (IH i). unfold edge_count, alter in *. simpl. lia.
Qed.

Lemma setPattern_body_position pattern st :
  0 <= patternPos st < str_length pattern →
  patternPos (setPattern_body pattern st) <= str_length pattern.
Proof.
  intros Hpos. unfold setPattern_body, createNewNode.
  repeat case_match; simpl; try lia;
    repeat match goal with
    | H : _ && _ = true |- _ => apply andb_true_iff in H as [? ?]
    | H : symbolIs _ _ _ = true |- _ =>
        apply symbolIs_inside in H; [|discriminate]
    end; lia.
Qed.

Lemma setPattern_body_size pattern st :
  vec_size (loopNodes st) <= vec_size (loopNodes (setPattern_body pattern st))
    <= vec_size (loopNodes st) + 1 ∧
  (edge_count (loopNodes (setPattern_body pattern st))
     <= edge_count (loopNodes st) + 2)%nat.
Proof.
  unfold setPattern_body, createNewNode. rewrite !addEdge_char_addEdge.
  repeat case_match; simpl;
    rewrite ?vec_size_addEdge, ?vec_size_push; (split; [lia|]);
    repeat match goal with
    | |- context [edge_count (addEdge ?n ?i ?s ?t)] =>
        pose proof (edge_count_addEdge n i s t);
        generalize dependent (edge_count (addEdge n i s t)); intros
    | H : context [edge_count (addEdge ?n ?i ?s ?t)] |- _ =>
        pose proof (edge_count_addEdge n i s t);
        generalize dependent (edge_count (addEdge n i s t)); intros
    end;
    rewrite ?edge_count_app in *; unfold edge_count in *; simpl in *; lia.
Qed.

Lemma setPattern_loop_size fuel pattern st :
  0 <= patternPos st <= str_length pattern →
  let st' := setPattern_loop fuel pattern st in
  patternPos st <= patternPos st' <= str_length pattern ∧
  vec_size (loopNodes st) <= vec_size (loopNodes st')
    <= vec_size (loopNodes st) + (patternPos st' - patternPos st) ∧
  Z.of_nat (edge_count (loopNodes st'))
    <= Z.of_nat (edge_count (loopNodes st)) + 2 * (patternPos st' - patternPos st).
Proof.
  revert st. induction fuel as [|fuel IH]; intros st Hpos; simpl; [lia|].
  destruct (int_lt_size _ _) eqn:Hlt; [|lia].
  unfold int_lt_size in Hlt. apply andb_true_iff in Hlt as [_ Hlt].
  apply Z.ltb_lt in Hlt.
  pose proof (setPattern_body_advances pattern st) as Hadv.
  pose proof (setPattern_body_position pattern st) as Hle.
  pose proof (setPattern_body_size pattern st) as (Hsize & Hedges).
  specialize (IH (setPattern_body pattern st)). simpl in IH. lia.
Qed.

End GraphSize.

(** The loop of [setPattern] ends with [patternPos] at the length of
    the pattern, neither before nor beyond it, and the graph it leaves
    is no larger than the pattern allows: on a new machine at most one
    node for every character and one more, and at most two edges for
    every character and one more. *)
Theorem setPattern_graph_is_linear_in_the_pattern `{StdSort} (pattern : string) :
  pattern ≠ EmptyString →
  let nodes := nodesArray (setPattern pattern SimpleStateMachine_new) in
  patternPos (setPattern_loop (String.length pattern) pattern
                (mkLoop 0 (-1) [Node_new])) = str_length pattern ∧
  1 <= vec_size nodes <= str_length pattern + 1 ∧
  (1 <= edge_count nodes <= 2 * String.length pattern + 1)%nat.
Proof.
  intros Hp nodes.
  pose proof (setPattern_loop_size (String.length pattern) pattern
                (mkLoop 0 (-1) [Node_new])) as Hsize.
  pose proof (setPattern_loop_exits (String.length pattern) pattern
                (mkLoop 0 (-1) [Node_new])) as Hexit.
  simpl in Hsize, Hexit.
  destruct Hsize as (Hpos & Hnodes & Hedges); [unfold str_length; lia|].
  specialize (Hexit ltac:(unfold str_length; lia)).
  unfold int_lt_size in Hexit. apply andb_false_iff in Hexit.
  rewrite Z.leb_gt, Z.ltb_ge in Hexit.
  assert (Hend : patternPos (setPattern_loop (String.length pattern) pattern
                               (mkLoop 0 (-1) [Node_new])) = str_length pattern)
    by lia.
  split; [exact Hend|].
  unfold nodes, setPattern. simpl nodesArray.
  rewrite setPattern_nodes_nonempty by done. simpl app.
  cbv zeta. rewrite vec_size_addEdge.
  pose proof (edge_count_addEdge
    (loopNodes (setPattern_loop (String.length pattern) pattern
                  (mkLoop 0 (-1) [Node_new])))
    (lastNodeIdx (loopNodes (setPattern_loop (String.length pattern) pattern
                  (mkLoop 0 (-1) [Node_new]))))
    (InputSymbol_of eEndOfLine) SUCCESS_NODE_IDX) as Hlast.
  destruct (setPattern_nodes_appends pattern [] Hp) as (added & Hadded & Hne & Hall).
  rewrite setPattern_nodes_nonempty in Hadded by done. simpl in Hadded.
  assert (Hone : (1 <= edge_count added)%nat).
  { destruct Hall as [|n added Hn _]; [done|].
    unfold edge_count. simpl. destruct (edges n); [done|]. simpl. lia. }
  rewrite Hadded in *.
  unfold vec_size, edge_count in *. simpl in *. unfold str_length in *.
  split; lia.
Qed.

Lemma setPattern_graph_is_linear_in_the_pattern_witness :
  "/a/**/b"%string ≠ EmptyString ∧
  1 <= vec_size (nodesArray (setPattern "/a/**/b" SimpleStateMachine_new))
    <= str_length "/a/**/b" + 1.
Proof.
  split; [discriminate|].
  apply (setPattern_graph_is_linear_in_the_pattern "/a/**/b"). discriminate.
Defined.

(** ** A machine that is given a second pattern *)

Lemma search_edges_ext_in call1 call2 s pathPos es :
  (∀ e, e ∈ es →
        call1 (nextNodeId e) (pathPos + 1) = call2 (nextNodeId e) (pathPos + 1)) →
  search_edges call1 s pathPos es = search_edges call2 s pathPos es.
Proof.
  induction es as [|e es IH]; intros Hcall; simpl; [done|].
  rewrite (Hcall e) by (by left).
  rewrite IH; [done|]. intros e' He'. apply Hcall. by right.
Qed.

Lemma vec_at_app_l {A} (v w : list A) i :
  0 <= i < vec_size v → vec_at (v ++ w) i = vec_at v i.
Proof.
  unfold vec_at, vec_size. intros Hi.
  destruct (i <? 0); [done|]. apply lookup_app_l. lia.
Qed.

Lemma search_app nodes added path fuel nodeIdx pathPos :
  targets_valid nodes →
  nodeIdx = ERROR_NODE_IDX ∨ valid_ref (vec_size nodes) nodeIdx →
  search fuel (nodes ++ added) path nodeIdx pathPos =
  search fuel nodes path nodeIdx pathPos.
Proof.
  intros Ht. revert nodeIdx pathPos.
  induction fuel as [|fuel IH]; intros nodeIdx pathPos Href; simpl; [done|].
  destruct (Z.eqb_spec nodeIdx SUCCESS_NODE_IDX); [done|].
  destruct (Z.eqb_spec nodeIdx ERROR_NODE_IDX); [done|].
  destruct (int_gt_size _ _); [done|].
  destruct Href as [?|[?|Hidx]]; [done|done|].
  rewrite (vec_at_app_l _ _ _ Hidx).
  destruct (vec_at nodes nodeIdx) as [node|] eqn:Hnode; [|done].
  apply search_edges_ext_in. intros e He. apply IH. right.
  eapply targets_valid_lookup; eauto.
Qed.

(** [setPattern] does not replace a pattern: on a machine that has a
    pattern, a second [setPattern] appends its graph behind the first
    one, where the search, which starts at node 0, never comes, and
    [match] goes on answering for the first pattern. *)
Theorem second_pattern_is_never_matched `{StdSort}
    (first second path : string) :
  first ≠ EmptyString →
  fst (match_ {| machine :=
                   setPattern second (setPattern first SimpleStateMachine_new);
                 pathString := path |})
  = fst (match_ {| machine := setPattern first SimpleStateMachine_new;
                   pathString := path |}).
Proof.
  intros Hfirst.
  destruct second as [|c second]; [done|].
  destruct path as [|d path]; [done|].
  destruct (setPattern_new_inv first Hfirst) as (Hne & Ht & _).
  destruct (setPattern_nodes_appends (String c second)
              (nodesArray (setPattern first SimpleStateMachine_new)))
    as (added & Hadded & _); [done|].
  change (setPattern_nodes (String c second)
            (nodesArray (setPattern first SimpleStateMachine_new)))
    with (nodesArray (setPattern (String c second)
                        (setPattern first SimpleStateMachine_new))) in Hadded.
  rewrite !match_search; cbn [pathString machine fst]; try done.
  - rewrite Hadded. apply search_app; [done|].
    right. by apply valid_ref_first.
  - by apply vec_size_nonempty.
  - rewrite Hadded. apply vec_size_nonempty in Hne.
    by destruct (nodesArray (setPattern first SimpleStateMachine_new)).
Qed.

Lemma second_pattern_is_never_matched_witness :
  "/a"%string ≠ EmptyString ∧
  fst (match_ {| machine :=
                   setPattern "/b" (setPattern "/a" SimpleStateMachine_new);
                 pathString := "/b" |})
  = fst (match_ {| machine := setPattern "/a" SimpleStateMachine_new;
                   pathString := "/b" |}).
Proof.
  split; [discriminate|].
  apply (second_pattern_is_never_matched "/a" "/b" "/b"). discriminate.
Defined.

(** ** A null character in the path *)

Lemma string_get_app_l s t n c :
  String.get n s = Some c → String.get n (String.append s t) = Some c.
Proof.
  revert n. induction s as [|d s IH]; intros n Hget; simpl in *; [by destruct n|].
  destruct n; [done|]. by apply IH.
Qed.

Lemma string_length_append s t :
  String.length (String.append s t) = (String.length s + String.length t)%nat.
Proof. induction s as [|d s IH]; simpl; [done|]. by rewrite IH. Qed.

Lemma string_get_app_r s t :
  String.get (String.length s) (String.append s t) = String.get 0 t.
Proof. induction s as [|d s IH]; simpl; [done|]. exact IH. Qed.

Lemma spec_input_at_null path rest pos c :
  spec_input_at path pos = Some c →
  spec_input_at (String.append path (String END_OF_LINE rest)) pos = Some c.
Proof.
  unfold spec_input_at, str_length. rewrite string_length_append.
  simpl String.length. intros H.
  destruct (Z.leb_spec 0 pos) as [Hpos|Hneg]; simpl in *.
  - destruct (Z.ltb_spec pos (Z.of_nat (String.length path))) as [Hlt|Hge].
    + replace (pos <? Z.of_nat (String.length path + S (String.length rest)))
        with true by (symmetry; apply Z.ltb_lt; lia).
      by apply string_get_app_l.
    + destruct (Z.eqb_spec pos (Z.of_nat (String.length path))) as [->|]; [|done].
      replace (Z.of_nat (String.length path)
                 <? Z.of_nat (String.length path + S (String.length rest)))
        with true by (symmetry; apply Z.ltb_lt; lia).
      rewrite Nat2Z.id, string_get_app_r. simpl. done.
  - destruct (Z.eqb_spec pos (Z.of_nat (String.length path))); [lia|done].
Qed.

Lemma spec_run_null nodes path rest run nodeRef pos :
  spec_run nodes path nodeRef pos run →
  spec_run nodes (String.append path (String END_OF_LINE rest)) nodeRef pos run.
Proof.
  revert nodeRef pos. induction run as [|e run IH]; intros nodeRef pos; simpl;
    [done|].
  intros (node & c & Hnode & He & Hc & Hm & Hrun).
  exists node, c. split; [done|]. split; [done|].
  split; [by apply spec_input_at_null|]. split; [done|]. by apply IH.
Qed.

(** A null character in the path is taken for its end: when a pattern
    matches a path, it matches every path that goes on with a null
    character and anything behind it. *)
Theorem null_character_ends_the_path `{StdSort} (pattern path rest : string) :
  pattern ≠ EmptyString →
  path ≠ EmptyString →
  compile_and_match pattern path = Returned true →
  compile_and_match pattern (String.append path (String END_OF_LINE rest))
    = Returned true.
Proof.
  intros Hp Hpath Hmatch.
  destruct (compile_and_match_spec pattern path Hp Hpath) as (b & Hb & Hiff).
  rewrite Hb in Hmatch. injection Hmatch as ->.
  destruct (proj1 Hiff eq_refl) as [run Hrun].
  destruct (compile_and_match_spec pattern
              (String.append path (String END_OF_LINE rest)) Hp)
    as (b' & -> & Hiff').
  { by destruct path. }
  f_equal. apply Hiff'. exists run. by apply spec_run_null.
Qed.

Lemma null_character_ends_the_path_witness :
  "/a"%string ≠ EmptyString ∧ "/a"%string ≠ EmptyString ∧
  compile_and_match "/a" "/a" = Returned true ∧
  compile_and_match "/a" (String.append "/a" (String END_OF_LINE "/b"))
    = Returned true.
Proof.
  assert (Hmatch : compile_and_match "/a" "/a" = Returned true)
    by (vm_compute; reflexivity).
  split; [discriminate|]. split; [discriminate|]. split; [exact Hmatch|].
  apply (null_character_ends_the_path "/a" "/a" "/b");
    [discriminate|discriminate|exact Hmatch].
Defined.

(** ** Patterns without wildcard *)

Section Literal.
Context {sorter : StdSort}.

Lemma std_sort_singleton e : std_sort [e] = [e].
Proof. apply Permutation_singleton_r, std_sort_perm. Qed.

Lemma setPattern_body_literal pattern pos init c :
  str_at pattern pos = c →
  c ≠ "*"%char → c ≠ "?"%char →
  symbolIs pattern (pos + 1) "*"%char = false →
  setPattern_body pattern (mkLoop pos (-1) (init ++ [Node_new])) =
  mkLoop (pos + 1) (-1)
    (init ++ [ {| edges := [ {| symbol := {| stype := eOneSymbol; sym := c |};
                                nextNodeId := vec_size init + 1 |} ] |};
               Node_new ]).
Proof.
  intros Hc Hstar Hquestion Hnext.
  assert (Hsize : vec_size (init ++ [Node_new]) - 1 = vec_size init).
  { unfold vec_size. rewrite length_app. simpl. lia. }
  assert (Hsize' : vec_size ((init ++ [Node_new]) ++ [Node_new]) - 1
                   = vec_size init + 1).
  { unfold vec_size. rewrite !length_app. simpl. lia. }
  unfold setPattern_body, createNewNode, lastNodeIdx.
  cbn [patternPos previousStarNodeIdx loopNodes].
  rewrite !addEdge_char_addEdge, Hc, Hnext, Hsize, Hsize', <- !app_assoc.
  simpl app.
  assert (Hnode : ∀ s nodeId,
    Node_addEdge Node_new s nodeId
    = {| edges := [ {| symbol := s; nextNodeId := nodeId |} ] |}).
  { intros s nodeId. unfold Node_addEdge, Node_new. cbn [edges app].
    by rewrite std_sort_singleton. }
  destruct (Ascii.eqb_spec c PATH_SEPARATOR) as [->|Hsep].
  { cbn [andb]. by rewrite addEdge_at_snoc, Hnode. }
  destruct (Ascii.eqb_spec c "?"%char); [done|].
  destruct (Ascii.eqb_spec c "*"%char); [done|].
  change (0 <=? -1) with false. cbv iota.
  rewrite addEdge_at_snoc. by rewrite Hnode.
Qed.

Lemma setPattern_loop_literal pattern rest :
  ∀ (n : nat) init fuel,
    literal_chars rest →
    (∀ i, String.get (n + i) pattern = String.get i rest) →
    String.length pattern = (n + String.length rest)%nat →
    (String.length rest <= fuel)%nat →
    loopNodes (setPattern_loop fuel pattern
                 (mkLoop (Z.of_nat n) (-1) (init ++ [Node_new]))) =
    init ++ links (length init) rest ++ [Node_new].
Proof.
  induction rest as [|c rest IH]; intros n init fuel Hlit Hget Hlen Hfuel.
  - simpl in Hlen. destruct fuel as [|fuel]; simpl; [done|].
    unfold int_lt_size, str_length.
    replace (Z.of_nat n <? Z.of_nat (String.length pattern)) with false
      by (symmetry; apply Z.ltb_ge; lia).
    by rewrite andb_false_r.
  - simpl in Hlen, Hfuel. destruct Hlit as (Hstar & Hquestion & Hlit).
    destruct fuel as [|fuel]; [lia|]. simpl setPattern_loop.
    unfold int_lt_size, str_length. cbn [patternPos].
    replace (0 <=? Z.of_nat n) with true by (symmetry; apply Z.leb_le; lia).
    replace (Z.of_nat n <? Z.of_nat (String.length pattern)) with true
      by (symmetry; apply Z.ltb_lt; lia).
    simpl andb. cbv iota.
    rewrite (setPattern_body_literal pattern (Z.of_nat n) init c);
      [|by (unfold str_at; rewrite Nat2Z.id;
            specialize (Hget 0%nat); rewrite Nat.add_0_r in Hget;
            rewrite Hget)|done|done|].
    + replace (Z.of_nat n + 1) with (Z.of_nat (S n)) by lia.
      replace (vec_size init + 1) with (Z.of_nat (S (length init)))
        by (unfold vec_size; lia).
      change (init ++ [?x; Node_new]) with (init ++ [x] ++ [Node_new]).
      rewrite app_assoc, IH; [|done| |lia|lia].
      * rewrite length_app. simpl length.
        replace (length init + 1)%nat with (S (length init)) by lia.
        by rewrite <- app_assoc.
      * intros i. specialize (Hget (S i)). simpl in Hget.
        by replace (S n + i)%nat with (n + S i)%nat by lia.
    + destruct (symbolIs pattern (Z.of_nat n + 1) "*"%char) eqn:Hsym; [|done].
      apply symbolIs_true in Hsym as [[_ Hsym]|[_ ?]]; [|done].
      replace (Z.to_nat (Z.of_nat n + 1)) with (n + 1)%nat in Hsym by lia.
      rewrite (Hget 1%nat) in Hsym. simpl in Hsym.
      destruct rest as [|d rest]; [done|]. simpl in Hsym, Hlit.
      injection Hsym as ->. by destruct Hlit as [? _].
Qed.

(** The graph of a pattern without wildcard is the chain of its
    characters. *)
Lemma setPattern_literal_graph pattern :
  pattern ≠ EmptyString →
  literal_chars pattern →
  nodesArray (setPattern pattern SimpleStateMachine_new) = literal_graph pattern.
Proof.
  intros Hp Hlit. unfold setPattern. simpl nodesArray.
  rewrite setPattern_nodes_nonempty by done. cbv zeta.
  pose proof (setPattern_loop_literal pattern pattern 0 [] (String.length pattern)
                Hlit (λ i, eq_refl) eq_refl (le_n _)) as Hloop.
  change (Z.of_nat 0) with 0 in Hloop. cbn [app length] in Hloop.
  change ([] ++ [Node_new]) with [Node_new].
  rewrite Hloop. unfold lastNodeIdx.
  replace (vec_size (links 0 pattern ++ [Node_new]) - 1)
    with (vec_size (links 0 pattern))
    by (unfold vec_size; rewrite length_app; simpl; lia).
  rewrite addEdge_at_snoc. unfold Node_addEdge, Node_new. cbn [edges app].
  by rewrite std_sort_singleton.
Qed.

End Literal.

Lemma vec_at_middle {A} (init : list A) x rest :
  vec_at (init ++ x :: rest) (Z.of_nat (length init)) = Some x.
Proof.
  apply vec_at_Some. split; [lia|]. rewrite Nat2Z.id.
  by rewrite list_lookup_middle.
Qed.

Lemma InputSymbol_match_one c d :
  InputSymbol_match {| stype := eOneSymbol; sym := c |} d = true ↔ d = c.
Proof. unfold InputSymbol_match. simpl. apply Ascii.eqb_eq. Qed.

(** A run through a chain reads the characters of the chain and then
    the end of the line. *)
Lemma links_run path rest :
  ∀ init,
    (∃ run, spec_run
              (init ++ links (length init) rest ++
               [ {| edges := [ {| symbol := InputSymbol_of eEndOfLine;
                                  nextNodeId := SUCCESS_NODE_IDX |} ] |} ])
              path (Z.of_nat (length init)) (Z.of_nat (length init)) run) ↔
    inputs_are rest (length init) path.
Proof.
  induction rest as [|c rest IH]; intros init; simpl links; simpl inputs_are.
  - cbn [app]. split.
    + intros [[|e run] Hrun]; simpl in Hrun.
      { unfold SUCCESS_NODE_IDX in Hrun. lia. }
      destruct Hrun as (node & d & Hnode & He & Hd & Hm & _).
      rewrite vec_at_middle in Hnode. injection Hnode as <-.
      apply list_elem_of_singleton in He. subst e.
      unfold InputSymbol_match in Hm. simpl in Hm.
      apply Ascii.eqb_eq in Hm. by subst d.
    + intros Hend. eexists [_]. simpl. eexists _, _.
      split; [apply vec_at_middle|]. split; [by left|].
      split; [exact Hend|]. split; done.
  - specialize (IH (init ++ [ {| edges :=
        [ {| symbol := {| stype := eOneSymbol; sym := c |};
             nextNodeId := Z.of_nat (S (length init)) |} ] |} ])).
    rewrite length_app in IH. simpl length in IH.
    replace (length init + 1)%nat with (S (length init)) in IH by lia.
    rewrite <- app_assoc in IH. cbn [app] in IH.
    rewrite <- IH. clear IH. split.
    + intros [[|e run] Hrun]; simpl in Hrun.
      { unfold SUCCESS_NODE_IDX in Hrun. lia. }
      destruct Hrun as (node & d & Hnode & He & Hd & Hm & Hrun).
      rewrite vec_at_middle in Hnode. injection Hnode as <-.
      apply list_elem_of_singleton in He. subst e.
      apply InputSymbol_match_one in Hm. subst d. split; [done|].
      exists run. simpl nextNodeId in Hrun.
      by replace (Z.of_nat (length init) + 1) with (Z.of_nat (S (length init)))
        in Hrun by lia.
    + intros [Hc [run Hrun]]. eexists (_ :: run). simpl. eexists _, c.
      split; [apply vec_at_middle|]. split; [by left|].
      split; [done|]. split; [by apply InputSymbol_match_one|].
      simpl nextNodeId.
      by replace (Z.of_nat (length init) + 1) with (Z.of_nat (S (length init)))
        by lia.
Qed.

Lemma inputs_are_shift s pos d path :
  inputs_are s (S pos) (String d path) ↔ inputs_are s pos path.
Proof.
  revert pos. induction s as [|c s IH]; intros pos; simpl;
    replace (Z.of_nat (S pos)) with (Z.of_nat pos + 1) by lia;
    rewrite spec_input_at_shift by lia; [done|].
  by rewrite IH.
Qed.

Lemma inputs_are_equal s path :
  no_null path → inputs_are s 0 path ↔ path = s.
Proof.
  revert path. induction s as [|c s IH]; intros [|d path] Hnull; simpl.
  - done.
  - destruct Hnull as [Hd _]. split; [|done].
    unfold spec_input_at, str_length. simpl. intros [= ->]. done.
  - split; [|done]. intros [_ Hrest].
    destruct s; simpl in Hrest; [done|by destruct Hrest].
  - destruct Hnull as [_ Hnull]. rewrite inputs_are_shift, (IH _ Hnull).
    unfold spec_input_at, str_length. simpl.
    split; [intros [[= ->] ->]; done|intros [= -> ->]; done].
Qed.

(** A pattern without "*" and "?" matches the path that is equal to
    it, character for character, and no other path (of those without
    null character: such a character is taken for the end of the
    path). *)
Theorem literal_pattern_matches_itself_only `{StdSort} (pattern path : string) :
  pattern ≠ EmptyString →
  literal_chars pattern →
  no_null path →
  ∃ b, compile_and_match pattern path = Returned b ∧
       (b = true ↔ path = pattern).
Proof.
  intros Hp Hlit Hnull.
  destruct path as [|d path].
  { exists false. split; [done|]. split; [done|]. intros <-. done. }
  destruct (compile_and_match_spec pattern (String d path) Hp)
    as (b & Hb & Hiff); [done|].
  exists b. split; [done|]. rewrite Hiff.
  rewrite (setPattern_literal_graph pattern Hp Hlit).
  unfold spec_accepts, literal_graph.
  rewrite <- (inputs_are_equal pattern (String d path) Hnull).
  exact (links_run (String d path) pattern []).
Qed.

Lemma literal_pattern_matches_itself_only_witness :
  "/usr/lib"%string ≠ EmptyString ∧
  literal_chars "/usr/lib" ∧ no_null "/usr/lib" ∧
  ∃ b, compile_and_match "/usr/lib" "/usr/lib" = Returned b ∧
       (b = true ↔ "/usr/lib"%string = "/usr/lib"%string).
Proof.
  assert (Hlit : literal_chars "/usr/lib") by (simpl; repeat split; discriminate).
  assert (Hnull : no_null "/usr/lib") by (simpl; repeat split; discriminate).
  split; [discriminate|]. split; [exact Hlit|]. split; [exact Hnull|].
  apply (literal_pattern_matches_itself_only "/usr/lib" "/usr/lib");
    [discriminate|exact Hlit|exact Hnull].
Defined.

(** ** A match reads the path to its end *)

Section WholePath.
Context {sorter : StdSort}.

Lemma addEdge_inner_edges nodes fromNodeIdx s toNodeIdx :
  Forall (λ n, Forall inner_edge (edges n)) nodes →
  inner_edge {| symbol := s; nextNodeId := toNodeIdx |} →
  Forall (λ n, Forall inner_edge (edges n)) (addEdge nodes fromNodeIdx s toNodeIdx).
Proof.
  intros Hall He. unfold addEdge. destruct (fromNodeIdx <? 0); [done|].
  apply Forall_alter; [done|]. intros n _ Hn. simpl.
  rewrite std_sort_perm. apply Forall_app. split; [done|].
  constructor; [done|constructor].
Qed.

Lemma push_inner_edges nodes :
  Forall (λ n, Forall inner_edge (edges n)) nodes →
  Forall (λ n, Forall inner_edge (edges n)) (nodes ++ [Node_new]).
Proof. intros H. apply Forall_app. split; [done|]. repeat constructor. Qed.

Lemma setPattern_body_inner_edges pattern st :
  loop_inv st →
  Forall (λ n, Forall inner_edge (edges n)) (loopNodes st) →
  Forall (λ n, Forall inner_edge (edges n)) (loopNodes (setPattern_body pattern st)).
Proof.
  intros [Hne _ _ _ _] Hall.
  pose proof (push_inner_edges _ Hall) as Hpush.
  unfold setPattern_body, createNewNode, lastNodeIdx.
  rewrite !addEdge_char_addEdge.
  repeat case_match; simpl;
    repeat (apply addEdge_inner_edges; [|split; simpl;
              [rewrite ?vec_size_push; unfold SUCCESS_NODE_IDX; lia|done]]);
    done.
Qed.

Lemma setPattern_loop_inner_edges fuel pattern st :
  loop_inv st →
  Forall (λ n, Forall inner_edge (edges n)) (loopNodes st) →
  Forall (λ n, Forall inner_edge (edges n))
         (loopNodes (setPattern_loop fuel pattern st)).
Proof.
  revert st. induction fuel as [|fuel IH]; intros st Hinv Hall; simpl; [done|].
  destruct (int_lt_size _ _); [|done].
  apply IH; [by apply setPattern_body_inv|by apply setPattern_body_inner_edges].
Qed.

End WholePath.

Lemma no_null_get s n : no_null s → String.get n s ≠ Some END_OF_LINE.
Proof.
  revert n. induction s as [|c s IH]; intros n Hnull; simpl in *; [by destruct n|].
  destruct Hnull as [Hc Hnull]. destruct n; [congruence|]. by apply IH.
Qed.

Lemma no_null_end path pos :
  no_null path →
  spec_input_at path pos = Some END_OF_LINE →
  pos = str_length path.
Proof.
  intros Hnull. unfold spec_input_at.
  destruct ((0 <=? pos) && (pos <? str_length path)).
  - intros Hget. by apply no_null_get in Hget.
  - destruct (Z.eqb_spec pos (str_length path)); done.
Qed.

Lemma spec_run_from_success nodes path pos run :
  spec_run nodes path SUCCESS_NODE_IDX pos run → run = [].
Proof.
  destruct run as [|e run]; [done|]. simpl.
  intros (node & _ & Hnode & _). apply vec_at_lt in Hnode.
  unfold SUCCESS_NODE_IDX in Hnode. lia.
Qed.

Lemma spec_run_length nodes path :
  no_null path →
  (∀ nodeRef node e,
     vec_at nodes nodeRef = Some node → e ∈ edges node →
     nextNodeId e = SUCCESS_NODE_IDX → stype (symbol e) = eEndOfLine) →
  ∀ run nodeRef pos,
    nodeRef ≠ SUCCESS_NODE_IDX →
    spec_run nodes path nodeRef pos run →
    pos + Z.of_nat (length run) = str_length path + 1.
Proof.
  intros Hnull Hedges.
  induction run as [|e run IH]; intros nodeRef pos Href; simpl; [done|].
  intros (node & c & Hnode & He & Hc & Hm & Hrun).
  destruct (Z.eq_dec (nextNodeId e) SUCCESS_NODE_IDX) as [Hnext|Hnext].
  - pose proof (Hedges _ _ _ Hnode He Hnext) as Hend.
    unfold InputSymbol_match in Hm. rewrite Hend in Hm.
    apply Ascii.eqb_eq in Hm. subst c.
    rewrite Hnext in Hrun. apply spec_run_from_success in Hrun. subst run.
    apply (no_null_end _ _ Hnull) in Hc. simpl. lia.
  - specialize (IH _ _ Hnext Hrun). lia.
Qed.

Section WholePathMatch.
Context {sorter : StdSort}.

(** In the graph of a pattern the edges that lead to SUCCESS wait for
    the end of the line. *)
Lemma setPattern_success_edges pattern nodeRef node e :
  vec_at (nodesArray (setPattern pattern SimpleStateMachine_new)) nodeRef
    = Some node →
  e ∈ edges node →
  nextNodeId e = SUCCESS_NODE_IDX →
  stype (symbol e) = eEndOfLine.
Proof.
  destruct pattern as [|c pattern].
  { intros Hnode. apply vec_at_lt in Hnode. unfold vec_size in Hnode.
    simpl in Hnode. lia. }
  unfold setPattern. simpl nodesArray.
  rewrite setPattern_nodes_nonempty by done. cbv zeta.
  pose proof (setPattern_loop_inner_edges (String.length (String c pattern))
                (String c pattern) (mkLoop 0 (-1) ([] ++ [Node_new]))
                (loop_inv_init [] targets_valid_nil all_sorted_nil)
                ltac:(repeat constructor)) as Hall.
  set (nodes := loopNodes _) in *.
  intros Hnode He Hnext. apply vec_at_Some in Hnode as [_ Hnode].
  apply list_elem_of_lookup_2 in Hnode.
  assert (Hedges : Forall (λ n, Forall (λ e, inner_edge e ∨
            stype (symbol e) = eEndOfLine) (edges n))
            (addEdge nodes (lastNodeIdx nodes) (InputSymbol_of eEndOfLine)
               SUCCESS_NODE_IDX)).
  { unfold addEdge. destruct (lastNodeIdx nodes <? 0).
    - eapply Forall_impl; [exact Hall|]. intros n Hn.
      eapply Forall_impl; [exact Hn|]. intros; by left.
    - apply Forall_alter.
      + eapply Forall_impl; [exact Hall|]. intros n Hn.
        eapply Forall_impl; [exact Hn|]. intros; by left.
      + intros n Hn _. simpl. rewrite std_sort_perm.
        apply list_elem_of_lookup_2 in Hn.
        rewrite Forall_forall in Hall.
        apply Forall_app. split.
        * eapply Forall_impl; [exact (Hall _ Hn)|]. intros; by left.
        * constructor; [by right|constructor]. }
  rewrite Forall_forall in Hedges. specialize (Hedges _ Hnode).
  rewrite Forall_forall in Hedges.
  destruct (Hedges _ He) as [[? ?]|?]; done.
Qed.

End WholePathMatch.

(** A match reads the path to its end: every run by which a pattern
    accepts a path without null character takes one edge for each
    character of the path and one more for the end of the line, and
    the edges that lead to SUCCESS are those that wait for the end of
    the line.  No pattern is satisfied by a beginning of the path. *)
Theorem match_reads_the_whole_path `{StdSort} (pattern path : string) :
  pattern ≠ EmptyString →
  path ≠ EmptyString →
  no_null path →
  let nodes := nodesArray (setPattern pattern SimpleStateMachine_new) in
  (∀ node e, node ∈ nodes → e ∈ edges node →
     nextNodeId e = SUCCESS_NODE_IDX → stype (symbol e) = eEndOfLine) ∧
  (∀ run, spec_run nodes path 0 0 run → length run = S (String.length path)) ∧
  (compile_and_match pattern path = Returned true →
   ∃ run, spec_run nodes path 0 0 run ∧ length run = S (String.length path)).
Proof.
  intros Hp Hpath Hnull nodes.
  assert (Hlen : ∀ run, spec_run nodes path 0 0 run →
                        length run = S (String.length path)).
  { intros run Hrun.
    pose proof (spec_run_length nodes path Hnull
                  (setPattern_success_edges pattern) run 0 0
                  ltac:(done) Hrun) as Hl.
    unfold str_length in Hl. lia. }
  split; [|split; [exact Hlen|]].
  - intros node e Hnode He.
    apply list_elem_of_lookup_1 in Hnode as [i Hi].
    apply (setPattern_success_edges pattern (Z.of_nat i) node e); [|done].
    apply vec_at_Some. split; [lia|]. by rewrite Nat2Z.id.
  - intros Hmatch.
    destruct (compile_and_match_spec pattern path Hp Hpath) as (b & Hb & Hiff).
    rewrite Hb in Hmatch. injection Hmatch as ->.
    destruct (proj1 Hiff eq_refl) as [run Hrun].
    exists run. split; [done|]. by apply Hlen.
Qed.

Lemma match_reads_the_whole_path_witness :
  "/a*b"%string ≠ EmptyString ∧ "/ab"%string ≠ EmptyString ∧ no_null "/ab" ∧
  (∀ run,
     spec_run (nodesArray (setPattern "/a*b" SimpleStateMachine_new)) "/ab" 0 0 run →
     length run = S (String.length "/ab")).
Proof.
  assert (Hnull : no_null "/ab") by (simpl; repeat split; discriminate).
  split; [discriminate|]. split; [discriminate|]. split; [exact Hnull|].
  apply (match_reads_the_whole_path "/a*b" "/ab");
    [discriminate|discriminate|exact Hnull].
Defined.

(** ** Paths that do not start with the separator *)

Section Rooted.
Context {sorter : StdSort}.

(** Node 0 of the graph of a pattern that starts with the separator
    has the edge on the separator and no other. *)
Lemma setPattern_rooted_first_node pattern :
  ∃ rest,
    nodesArray (setPattern (String PATH_SEPARATOR pattern) SimpleStateMachine_new)
    = {| edges := [ {| symbol := {| stype := eOneSymbol; sym := PATH_SEPARATOR |};
                       nextNodeId := 1 |} ] |} :: rest.
Proof.
  unfold setPattern. simpl nodesArray.
  rewrite setPattern_nodes_nonempty by done. cbv zeta.
  change ([] ++ [Node_new]) with [Node_new].
  simpl String.length. simpl setPattern_loop.
  set (node0 := {| edges := [ {| symbol := {| stype := eOneSymbol;
                                             sym := PATH_SEPARATOR |};
                                 nextNodeId := 1 |} ] |}).
  assert (Hbody : ∃ pos star last,
    setPattern_body (String PATH_SEPARATOR pattern) (mkLoop 0 (-1) [Node_new])
    = mkLoop pos star ([node0] ++ [] ++ [last])).
  { unfold setPattern_body, createNewNode, lastNodeIdx.
    cbn [patternPos previousStarNodeIdx loopNodes].
    change (str_at (String PATH_SEPARATOR pattern) 0) with PATH_SEPARATOR.
    rewrite Ascii.eqb_refl, addEdge_char_addEdge.
    change (vec_size [Node_new] - 1) with (vec_size (@nil Node)).
    change (vec_size ([Node_new] ++ [Node_new]) - 1) with (vec_size (@nil Node) + 1).
    change ([Node_new] ++ [Node_new]) with ([] ++ [Node_new; Node_new]).
    rewrite addEdge_at_snoc.
    assert (Hnode : Node_addEdge Node_new
                      {| stype := eOneSymbol; sym := PATH_SEPARATOR |}
                      (vec_size (@nil Node) + 1) = node0).
    { unfold Node_addEdge, Node_new. cbn [edges app].
      by rewrite std_sort_singleton. }
    rewrite Hnode.
    repeat case_match; rewrite ?addEdge_at_snoc_next; by eexists _, _, _. }
  destruct Hbody as (pos & star & last & ->).
  destruct (setPattern_loop_appends (String.length pattern)
              (String PATH_SEPARATOR pattern) pos star [node0] [] last)
    as (init & last' & Hnodes & _); [constructor|].
  rewrite Hnodes. unfold lastNodeIdx.
  replace (vec_size ([node0] ++ init ++ [last']) - 1)
    with (vec_size ([node0] ++ init))
    by (unfold vec_size; rewrite !length_app; simpl; lia).
  rewrite app_assoc, addEdge_at_snoc. simpl. by eexists.
Qed.

Lemma compile_and_match_rooted pattern c path :
  c ≠ PATH_SEPARATOR →
  compile_and_match (String PATH_SEPARATOR pattern) (String c path)
    = Returned false.
Proof.
  intros Hc. destruct (setPattern_rooted_first_node pattern) as [rest Hnodes].
  unfold compile_and_match. rewrite match_search; cbn [machine pathString fst];
    [|done|by rewrite Hnodes].
  rewrite Hnodes. simpl String.length. simpl search.
  unfold InputSymbol_match. cbn [stype sym].
  change (str_at (String c path) 0) with c.
  destruct (Ascii.eqb_spec c PATH_SEPARATOR); done.
Qed.

End Rooted.

(** Nothing matches a path that does not start with the separator: a
    pattern that starts with the separator makes node 0 a node with
    the one edge on the separator, and [main] compiles such patterns
    only, so a path whose first character is neither a slash nor a
    backslash ends with exit code 1 whatever the pattern. *)
Theorem path_without_leading_separator_never_matches `{StdSort}
    (pattern path : string) (c : ascii) :
  c ≠ "/"%char →
  c ≠ "\"%char →
  compile_and_match (String PATH_SEPARATOR pattern) (String c path)
    = Returned false ∧
  main_ (String c path) pattern = Some 1.
Proof.
  intros Hslash Hback. split; [by apply compile_and_match_rooted|].
  unfold main_.
  destruct (standardizePattern_shape
              (standardizePathSeparators pattern))
    as (_ & _ & _ & _ & _ & Hfirst & _).
  destruct (symbolIs_first_inv _ _ Hfirst) as [rest ->]; [done|].
  simpl standardizePathSeparators.
  destruct (Ascii.eqb_spec c "\"%char); [done|].
  by rewrite compile_and_match_rooted.
Qed.

Lemma path_without_leading_separator_never_matches_witness :
  "a"%char ≠ "/"%char ∧ "a"%char ≠ "\"%char ∧
  main_ "a.txt" "*.txt" = Some 1.
Proof.
  split; [discriminate|]. split; [discriminate|].
  apply (path_without_leading_separator_never_matches "*.txt" ".txt" "a");
    discriminate.
Defined.

(** ** The exit code *)

(** The exit code of the program says what happened: it is 2 exactly
    when the program was not given two arguments, and with two
    arguments it is 0 when the pattern, standardized, matches the path
    and 1 when it does not.  [match] never throws in [main], because
    the pattern [main] compiles is never empty. *)
Theorem exit_code_two_means_wrong_argument_count `{StdSort} (argv : list string) :
  (main_argv argv = Some 2 ↔ length argv ≠ 3%nat) ∧
  (∀ program path pattern, argv = [program; path; pattern] →
     ∃ bMatch,
       compile_and_match
         (standardizePattern (standardizePathSeparators pattern))
         (standardizePathSeparators path) = Returned bMatch ∧
       main_argv argv = Some (if bMatch then 0 else 1)).
Proof.
  assert (Hmain : ∀ program path pattern, argv = [program; path; pattern] →
     ∃ bMatch,
       compile_and_match
         (standardizePattern (standardizePathSeparators pattern))
         (standardizePathSeparators path) = Returned bMatch ∧
       main_argv argv = Some (if bMatch then 0 else 1)).
  { intros program path pattern ->. simpl.
    destruct (main_ends_with_match_or_no_match path pattern) as (b & Hb & Hm & _).
    by exists b. }
  split; [|exact Hmain].
  destruct argv as [|program [|path [|pattern [|extra argv]]]]; simpl;
    try (split; [intros _; lia|done]).
  destruct (Hmain program path pattern eq_refl) as (b & _ & Hb).
  simpl in Hb. rewrite Hb. split; [by destruct b|done].
Qed.

Lemma exit_code_two_means_wrong_argument_count_witness :
  ∃ bMatch,
    compile_and_match
      (standardizePattern (standardizePathSeparators "*.txt"))
      (standardizePathSeparators "/docs/a.txt") = Returned bMatch ∧
    main_argv ["patternMatch.exe"; "/docs/a.txt"; "*.txt"]%string
      = Some (if bMatch then 0 else 1).
Proof.
  destruct (exit_code_two_means_wrong_argument_count
              ["patternMatch.exe"; "/docs/a.txt"; "*.txt"]%string)
    as (_ & Hmain).
  exact (Hmain _ _ _ eq_refl).
Defined.

(** ** Every reading of the pattern is matched *)

Section EdgesStay.
Context {sorter : StdSort}.

Lemma has_edge_addEdge nodes fromNodeIdx s toNodeIdx nodeIdx e :
  has_edge nodes nodeIdx e →
  has_edge (addEdge nodes fromNodeIdx s toNodeIdx) nodeIdx e.
Proof.
  intros (node & Hnode & He). unfold addEdge.
  destruct (fromNodeIdx <? 0); [by exists node|].
  apply vec_at_Some in Hnode as [Hidx Hnode].
  destruct (decide (Z.to_nat fromNodeIdx = Z.to_nat nodeIdx)) as [Heq|Hne].
  - exists (Node_addEdge node s toNodeIdx). split.
    + apply vec_at_Some. split; [done|].
      by rewrite Heq, list_lookup_alter_eq, Hnode.
    + simpl. rewrite std_sort_perm. apply elem_of_app. by left.
  - exists node. split; [|done]. apply vec_at_Some. split; [done|].
    by rewrite list_lookup_alter_ne.
Qed.

Lemma has_edge_addEdge_new nodes fromNodeIdx s toNodeIdx :
  0 <= fromNodeIdx < vec_size nodes →
  has_edge (addEdge nodes fromNodeIdx s toNodeIdx) fromNodeIdx
    {| symbol := s; nextNodeId := toNodeIdx |}.
Proof.
  intros Hidx. destruct (vec_at_is_Some nodes fromNodeIdx Hidx) as [node Hnode].
  apply vec_at_Some in Hnode as [_ Hnode]. unfold addEdge.
  replace (fromNodeIdx <? 0) with false by (symmetry; apply Z.ltb_ge; lia).
  exists (Node_addEdge node s toNodeIdx). split.
  - apply vec_at_Some. split; [lia|]. by rewrite list_lookup_alter_eq, Hnode.
  - simpl. rewrite std_sort_perm. apply elem_of_app. right. by left.
Qed.

Lemma has_edge_push nodes nodeIdx e :
  has_edge nodes nodeIdx e → has_edge (nodes ++ [Node_new]) nodeIdx e.
Proof.
  intros (node & Hnode & He). exists node. split; [|done].
  rewrite vec_at_app_l; [done|]. by eapply vec_at_lt.
Qed.

Lemma setPattern_body_keeps_edges pattern st nodeIdx e :
  has_edge (loopNodes st) nodeIdx e →
  has_edge (loopNodes (setPattern_body pattern st)) nodeIdx e.
Proof.
  intros He. pose proof (has_edge_push _ _ _ He) as Hpush.
  unfold setPattern_body, createNewNode. rewrite !addEdge_char_addEdge.
  repeat case_match; simpl; repeat apply has_edge_addEdge; done.
Qed.

Lemma setPattern_loop_keeps_edges fuel pattern st nodeIdx e :
  has_edge (loopNodes st) nodeIdx e →
  has_edge (loopNodes (setPattern_loop fuel pattern st)) nodeIdx e.
Proof.
  revert st. induction fuel as [|fuel IH]; intros st He; simpl; [done|].
  destruct (int_lt_size _ _); [|done].
  by apply IH, setPattern_body_keeps_edges.
Qed.

End EdgesStay.

Lemma suffix_at_whole pattern : suffix_at pattern 0 pattern.
Proof. by split. Qed.

Lemma suffix_at_tail pattern n c rest :
  suffix_at pattern n (String c rest) → suffix_at pattern (S n) rest.
Proof.
  intros [Hlen Hget]. split; [simpl in Hlen; lia|].
  intros i. specialize (Hget (S i)). simpl in Hget.
  by replace (S n + i)%nat with (n + S i)%nat by lia.
Qed.

Lemma suffix_at_head pattern n c rest :
  suffix_at pattern n (String c rest) →
  str_at pattern (Z.of_nat n) = c ∧
  int_lt_size (Z.of_nat n) (str_length pattern) = true.
Proof.
  intros [Hlen Hget]. split.
  - unfold str_at. rewrite Nat2Z.id. specialize (Hget 0%nat).
    rewrite Nat.add_0_r in Hget. by rewrite Hget.
  - unfold int_lt_size, str_length. simpl in Hlen.
    apply andb_true_iff. split; [apply Z.leb_le|apply Z.ltb_lt]; lia.
Qed.

Lemma suffix_at_end pattern n :
  suffix_at pattern n EmptyString →
  int_lt_size (Z.of_nat n) (str_length pattern) = false.
Proof.
  intros [Hlen _]. unfold int_lt_size, str_length. simpl in Hlen.
  apply andb_false_iff. right. apply Z.ltb_ge. lia.
Qed.

(** Looking ahead in the pattern is looking ahead in its rest. *)
Lemma suffix_at_symbolIs pattern n rest i d :
  suffix_at pattern n rest →
  symbolIs pattern (Z.of_nat n + Z.of_nat i) d = symbolIs rest (Z.of_nat i) d.
Proof.
  intros [Hlen Hget]. unfold symbolIs, int_gt_size, str_length, str_at.
  rewrite Hlen.
  replace (Z.of_nat n + Z.of_nat i <? 0) with false by (symmetry; apply Z.ltb_ge; lia).
  replace (Z.of_nat i <? 0) with false by (symmetry; apply Z.ltb_ge; lia).
  replace (Z.of_nat (n + String.length rest) <? Z.of_nat n + Z.of_nat i)
    with (Z.of_nat (String.length rest) <? Z.of_nat i).
  2:{ destruct (Z.ltb_spec (Z.of_nat (String.length rest)) (Z.of_nat i));
        symmetry; [apply Z.ltb_lt|apply Z.ltb_ge]; lia. }
  replace (Z.to_nat (Z.of_nat n + Z.of_nat i)) with (n + i)%nat by lia.
  by rewrite Nat2Z.id, Hget.
Qed.

Lemma symbolIs_get rest i c d :
  String.get i rest = Some c → symbolIs rest (Z.of_nat i) d = Ascii.eqb c d.
Proof.
  intros Hget. pose proof (string_get_lt _ _ _ Hget) as Hlt.
  unfold symbolIs, int_gt_size, str_length, str_at.
  replace (Z.of_nat i <? 0) with false by (symmetry; apply Z.ltb_ge; lia).
  replace (Z.of_nat (String.length rest) <? Z.of_nat i) with false
    by (symmetry; apply Z.ltb_ge; lia).
  by rewrite Nat2Z.id, Hget.
Qed.

Section BodyCases.
Context {sorter : StdSort}.

Lemma Node_addEdge_elem n s nodeId :
  {| symbol := s; nextNodeId := nodeId |} ∈ edges (Node_addEdge n s nodeId).
Proof. simpl. rewrite std_sort_perm. apply elem_of_app. right. by left. Qed.

Lemma has_edge_middle init x rest e :
  e ∈ edges x → has_edge (init ++ x :: rest) (vec_size init) e.
Proof. intros He. exists x. split; [apply vec_at_middle|done]. Qed.

Lemma has_edge_next init x y rest e :
  e ∈ edges y → has_edge (init ++ x :: y :: rest) (vec_size init + 1) e.
Proof.
  intros He. replace (vec_size init + 1) with (vec_size (init ++ [x])).
  - change (init ++ x :: y :: rest) with (init ++ [x] ++ y :: rest).
    rewrite app_assoc. by apply has_edge_middle.
  - unfold vec_size. rewrite length_app. simpl. lia.
Qed.

Lemma lastNodeIdx_snoc (init : list Node) x :
  lastNodeIdx (init ++ [x]) = vec_size init.
Proof. unfold lastNodeIdx, vec_size. rewrite length_app. simpl. lia. Qed.

Lemma lastNodeIdx_snoc2 (init : list Node) x y :
  lastNodeIdx (init ++ [x; y]) = vec_size init + 1.
Proof. unfold lastNodeIdx, vec_size. rewrite length_app. simpl. lia. Qed.

(** What one iteration does, case by case: where [patternPos] goes,
    which node is the last one afterwards, and the edges it has put
    on the node that was the last one before. *)
Lemma setPattern_body_cases pattern pos star init last :
  let c := str_at pattern pos in
  let k := vec_size init in
  let st' := setPattern_body pattern (mkLoop pos star (init ++ [last])) in
  let one s nodeId := {| symbol := s; nextNodeId := nodeId |} in
  if Ascii.eqb c PATH_SEPARATOR then
    lastNodeIdx (loopNodes st') = k + 1 ∧
    has_edge (loopNodes st') k
      (one {| stype := eOneSymbol; sym := PATH_SEPARATOR |} (k + 1)) ∧
    if symbolIs pattern (pos + 1) "*"%char && symbolIs pattern (pos + 2) "*"%char
    then has_edge (loopNodes st') (k + 1) (one (InputSymbol_of eAnySymbol) (k + 1)) ∧
         patternPos st' =
           (if symbolIs pattern (pos + 3) PATH_SEPARATOR then pos + 4 else pos + 3)
    else patternPos st' = pos + 1
  else if Ascii.eqb c "?"%char then
    lastNodeIdx (loopNodes st') = k + 1 ∧ patternPos st' = pos + 1 ∧
    has_edge (loopNodes st') k (one (InputSymbol_of eAnyPathSegmentSymbol) (k + 1))
  else if Ascii.eqb c "*"%char then
    lastNodeIdx (loopNodes st') = k ∧ patternPos st' = pos + 1 ∧
    has_edge (loopNodes st') k (one (InputSymbol_of eAnyPathSegmentSymbol) k)
  else
    lastNodeIdx (loopNodes st') = k + 1 ∧ patternPos st' = pos + 1 ∧
    has_edge (loopNodes st') k (one {| stype := eOneSymbol; sym := c |} (k + 1)).
Proof.
  assert (Hsize : vec_size (init ++ [last]) - 1 = vec_size init).
  { unfold vec_size. rewrite length_app. simpl. lia. }
  assert (Hsize' : vec_size ((init ++ [last]) ++ [Node_new]) - 1 = vec_size init + 1).
  { unfold vec_size. rewrite !length_app. simpl. lia. }
  cbv zeta. unfold setPattern_body, createNewNode.
  cbn [patternPos previousStarNodeIdx loopNodes].
  rewrite !addEdge_char_addEdge, !lastNodeIdx_snoc, Hsize', <- !app_assoc.
  simpl app.
  rewrite !addEdge_at_snoc.
  destruct (Ascii.eqb (str_at pattern pos) PATH_SEPARATOR).
  { destruct (symbolIs pattern (pos + 1) "*"%char
              && symbolIs pattern (pos + 2) "*"%char).
    - rewrite addEdge_at_snoc_next.
      destruct (symbolIs pattern (pos + 3) PATH_SEPARATOR);
        cbn [patternPos loopNodes]; rewrite lastNodeIdx_snoc2;
        (split; [done|]);
        (split; [apply has_edge_middle, Node_addEdge_elem|]);
        (split; [apply has_edge_next, Node_addEdge_elem|lia]).
    - cbn [patternPos loopNodes]. rewrite lastNodeIdx_snoc2.
      split; [done|]. split; [apply has_edge_middle, Node_addEdge_elem|done]. }
  destruct (Ascii.eqb (str_at pattern pos) "?"%char).
  { cbn [patternPos loopNodes]. rewrite lastNodeIdx_snoc2.
    split; [done|]. split; [done|]. apply has_edge_middle, Node_addEdge_elem. }
  destruct (Ascii.eqb (str_at pattern pos) "*"%char).
  { cbn [patternPos loopNodes]. rewrite lastNodeIdx_snoc.
    split; [done|]. split; [done|]. apply has_edge_middle, Node_addEdge_elem. }
  destruct (0 <=? star); cbn [patternPos loopNodes];
    rewrite ?addEdge_at_snoc_next, lastNodeIdx_snoc2;
    (split; [done|]); (split; [done|]);
    apply has_edge_middle, Node_addEdge_elem.
Qed.

End BodyCases.

Lemma lastNodeIdx_inv (nodes : list Node) k :
  lastNodeIdx nodes = k → 0 <= k →
  ∃ init last, nodes = init ++ [last] ∧ vec_size init = k.
Proof.
  unfold lastNodeIdx, vec_size. intros Hk Hpos.
  destruct (decide (nodes = [])) as [->|Hne]; [simpl in Hk; lia|].
  destruct (exists_last Hne) as (init & last & ->).
  exists init, last. split; [done|]. rewrite length_app in Hk. simpl in Hk. lia.
Qed.

Section GlobRun.
Context {sorter : StdSort}.
Variable pattern : string.
Variable G : list Node.

Lemma glob_run rest path :
  glob rest path →
  ∀ n star init last fuel,
    suffix_at pattern n rest →
    (String.length rest <= fuel)%nat →
    (∀ i e, has_edge (loopNodes (setPattern_loop fuel pattern
                         (mkLoop (Z.of_nat n) star (init ++ [last])))) i e →
            has_edge G i e) →
    has_edge G
      (lastNodeIdx (loopNodes (setPattern_loop fuel pattern
                      (mkLoop (Z.of_nat n) star (init ++ [last])))))
      {| symbol := InputSymbol_of eEndOfLine; nextNodeId := SUCCESS_NODE_IDX |} →
    ∃ run, spec_run G path (vec_size init) 0 run.
Proof.
  induction 1 as [ | rest w path Hglob IH | rest w path Hnosep Hglob IH
                 | rest path Hnostar Hglob IH | rest c path Hsep Hnull Hglob IH
                 | rest w path Hw Hglob IH | c rest path Hsep Hq Hstar Hglob IH ];
    intros n star init last fuel Hsuffix Hfuel Hedges Hend.
  - (* the end of the pattern *)
    assert (Hstay : setPattern_loop fuel pattern
                      (mkLoop (Z.of_nat n) star (init ++ [last]))
                    = mkLoop (Z.of_nat n) star (init ++ [last])).
    { destruct fuel; simpl; [done|]. by rewrite (suffix_at_end _ _ Hsuffix). }
    rewrite Hstay in Hend. simpl in Hend. rewrite lastNodeIdx_snoc in Hend.
    eexists. by apply spec_run_end.
  - (* separator, "**", separator *)
    destruct fuel as [|fuel]; [simpl in Hfuel; lia|].
    destruct (suffix_at_head _ _ _ _ Hsuffix) as [Hc Hlt].
    simpl setPattern_loop in Hedges, Hend.
    cbn [patternPos] in Hedges, Hend. rewrite Hlt in Hedges, Hend.
    pose proof (setPattern_body_cases pattern (Z.of_nat n) star init last) as Hbody.
    cbv zeta in Hbody. rewrite Hc in Hbody. simpl Ascii.eqb in Hbody. cbv iota in Hbody.
    pose proof (suffix_at_tail _ _ _ _ Hsuffix) as Hs1.
    pose proof (suffix_at_tail _ _ _ _ Hs1) as Hs2.
    pose proof (suffix_at_tail _ _ _ _ Hs2) as Hs3.
    pose proof (suffix_at_tail _ _ _ _ Hs3) as Hs4.
    replace (Z.of_nat n + 1) with (Z.of_nat (S n) + Z.of_nat 0) in Hbody by lia.
    replace (Z.of_nat n + 2) with (Z.of_nat (S n) + Z.of_nat 1) in Hbody by lia.
    replace (Z.of_nat n + 3) with (Z.of_nat (S n) + Z.of_nat 2) in Hbody by lia.
    rewrite !(suffix_at_symbolIs _ _ _ _ _ Hs1) in Hbody.
    rewrite (symbolIs_get _ 0 "*"), (symbolIs_get _ 1 "*"),
      (symbolIs_get _ 2 "/") in Hbody by done.
    simpl in Hbody. destruct Hbody as (Hlast & Hsepedge & Hany & Hpos).
    destruct (setPattern_body pattern (mkLoop (Z.of_nat n) star (init ++ [last])))
      as [pos' star' nodes'] eqn:Hst'.
    simpl in Hlast, Hsepedge, Hany, Hpos.
    destruct (lastNodeIdx_inv nodes' _ Hlast) as (init' & last' & -> & Hk');
      [unfold vec_size; lia|].
    replace pos' with (Z.of_nat (S (S (S (S n))))) in * by lia.
    destruct (IH _ star' init' last' fuel Hs4) as [run Hrun];
      [simpl in Hfuel; lia|done|done|].
    rewrite Hk' in Hrun.
    destruct (spec_run_loop G (vec_size init + 1)
                {| symbol := InputSymbol_of eAnySymbol;
                   nextNodeId := vec_size init + 1 |} w path run)
      as [run' Hrun']; [|done|by left|done|].
    { by apply Hedges, setPattern_loop_keeps_edges. }
    eexists (_ :: run'). apply (spec_run_step _ _ _
             {| symbol := {| stype := eOneSymbol; sym := PATH_SEPARATOR |};
                nextNodeId := vec_size init + 1 |}); [|done|exact Hrun'].
    by apply Hedges, setPattern_loop_keeps_edges.
  - (* separator, "**" *)
    destruct fuel as [|fuel]; [simpl in Hfuel; lia|].
    destruct (suffix_at_head _ _ _ _ Hsuffix) as [Hc Hlt].
    simpl setPattern_loop in Hedges, Hend.
    cbn [patternPos] in Hedges, Hend. rewrite Hlt in Hedges, Hend.
    pose proof (setPattern_body_cases pattern (Z.of_nat n) star init last) as Hbody.
    cbv zeta in Hbody. rewrite Hc in Hbody. simpl Ascii.eqb in Hbody. cbv iota in Hbody.
    pose proof (suffix_at_tail _ _ _ _ Hsuffix) as Hs1.
    pose proof (suffix_at_tail _ _ _ _ Hs1) as Hs2.
    pose proof (suffix_at_tail _ _ _ _ Hs2) as Hs3.
    replace (Z.of_nat n + 1) with (Z.of_nat (S n) + Z.of_nat 0) in Hbody by lia.
    replace (Z.of_nat n + 2) with (Z.of_nat (S n) + Z.of_nat 1) in Hbody by lia.
    replace (Z.of_nat n + 3) with (Z.of_nat (S (S (S n))) + Z.of_nat 0) in Hbody by lia.
    rewrite !(suffix_at_symbolIs _ _ _ _ _ Hs1),
      (suffix_at_symbolIs _ _ _ _ _ Hs3) in Hbody.
    rewrite (symbolIs_get _ 0 "*"), (symbolIs_get _ 1 "*") in Hbody by done.
    change (Z.of_nat 0) with 0 in Hbody. rewrite Hnosep in Hbody.
    simpl in Hbody. destruct Hbody as (Hlast & Hsepedge & Hany & Hpos).
    destruct (setPattern_body pattern (mkLoop (Z.of_nat n) star (init ++ [last])))
      as [pos' star' nodes'] eqn:Hst'.
    simpl in Hlast, Hsepedge, Hany, Hpos.
    destruct (lastNodeIdx_inv nodes' _ Hlast) as (init' & last' & -> & Hk');
      [unfold vec_size; lia|].
    replace pos' with (Z.of_nat (S (S (S n)))) in * by lia.
    destruct (IH _ star' init' last' fuel Hs3) as [run Hrun];
      [simpl in Hfuel; lia|done|done|].
    rewrite Hk' in Hrun.
    destruct (spec_run_loop G (vec_size init + 1)
                {| symbol := InputSymbol_of eAnySymbol;
                   nextNodeId := vec_size init + 1 |} w path run)
      as [run' Hrun']; [|done|by left|done|].
    { by apply Hedges, setPattern_loop_keeps_edges. }
    eexists (_ :: run'). apply (spec_run_step _ _ _
             {| symbol := {| stype := eOneSymbol; sym := PATH_SEPARATOR |};
                nextNodeId := vec_size init + 1 |}); [|done|exact Hrun'].
    by apply Hedges, setPattern_loop_keeps_edges.
  - (* separator *)
    destruct fuel as [|fuel]; [simpl in Hfuel; lia|].
    destruct (suffix_at_head _ _ _ _ Hsuffix) as [Hc Hlt].
    simpl setPattern_loop in Hedges, Hend.
    cbn [patternPos] in Hedges, Hend. rewrite Hlt in Hedges, Hend.
    pose proof (setPattern_body_cases pattern (Z.of_nat n) star init last) as Hbody.
    cbv zeta in Hbody. rewrite Hc in Hbody. simpl Ascii.eqb in Hbody. cbv iota in Hbody.
    pose proof (suffix_at_tail _ _ _ _ Hsuffix) as Hs1.
    replace (Z.of_nat n + 1) with (Z.of_nat (S n) + Z.of_nat 0) in Hbody by lia.
    replace (Z.of_nat n + 2) with (Z.of_nat (S n) + Z.of_nat 1) in Hbody by lia.
    rewrite !(suffix_at_symbolIs _ _ _ _ _ Hs1) in Hbody.
    change (Z.of_nat 0) with 0 in Hbody. change (Z.of_nat 1) with 1 in Hbody.
    rewrite Hnostar in Hbody. destruct Hbody as (Hlast & Hsepedge & Hpos).
    destruct (setPattern_body pattern (mkLoop (Z.of_nat n) star (init ++ [last])))
      as [pos' star' nodes'] eqn:Hst'.
    simpl in Hlast, Hsepedge, Hpos.
    destruct (lastNodeIdx_inv nodes' _ Hlast) as (init' & last' & -> & Hk');
      [unfold vec_size; lia|].
    replace pos' with (Z.of_nat (S n)) in * by lia.
    destruct (IH _ star' init' last' fuel Hs1) as [run Hrun];
      [simpl in Hfuel; lia|done|done|].
    rewrite Hk' in Hrun.
    eexists (_ :: run). apply (spec_run_step _ _ _
             {| symbol := {| stype := eOneSymbol; sym := PATH_SEPARATOR |};
                nextNodeId := vec_size init + 1 |}); [|done|exact Hrun].
    by apply Hedges, setPattern_loop_keeps_edges.
  - (* "?" *)
    destruct fuel as [|fuel]; [simpl in Hfuel; lia|].
    destruct (suffix_at_head _ _ _ _ Hsuffix) as [Hc Hlt].
    simpl setPattern_loop in Hedges, Hend.
    cbn [patternPos] in Hedges, Hend. rewrite Hlt in Hedges, Hend.
    pose proof (setPattern_body_cases pattern (Z.of_nat n) star init last) as Hbody.
    cbv zeta in Hbody. rewrite Hc in Hbody. simpl Ascii.eqb in Hbody. cbv iota in Hbody.
    pose proof (suffix_at_tail _ _ _ _ Hsuffix) as Hs1.
    destruct Hbody as (Hlast & Hpos & Hedge).
    destruct (setPattern_body pattern (mkLoop (Z.of_nat n) star (init ++ [last])))
      as [pos' star' nodes'] eqn:Hst'.
    simpl in Hlast, Hedge, Hpos.
    destruct (lastNodeIdx_inv nodes' _ Hlast) as (init' & last' & -> & Hk');
      [unfold vec_size; lia|].
    replace pos' with (Z.of_nat (S n)) in * by lia.
    destruct (IH _ star' init' last' fuel Hs1) as [run Hrun];
      [simpl in Hfuel; lia|done|done|].
    rewrite Hk' in Hrun.
    eexists (_ :: run). apply (spec_run_step _ _ _
             {| symbol := InputSymbol_of eAnyPathSegmentSymbol;
                nextNodeId := vec_size init + 1 |}); [| |exact Hrun].
    + by apply Hedges, setPattern_loop_keeps_edges.
    + unfold InputSymbol_match. simpl.
      apply andb_true_iff. split; apply negb_true_iff, Ascii.eqb_neq; done.
  - (* "*" *)
    destruct fuel as [|fuel]; [simpl in Hfuel; lia|].
    destruct (suffix_at_head _ _ _ _ Hsuffix) as [Hc Hlt].
    simpl setPattern_loop in Hedges, Hend.
    cbn [patternPos] in Hedges, Hend. rewrite Hlt in Hedges, Hend.
    pose proof (setPattern_body_cases pattern (Z.of_nat n) star init last) as Hbody.
    cbv zeta in Hbody. rewrite Hc in Hbody. simpl Ascii.eqb in Hbody. cbv iota in Hbody.
    pose proof (suffix_at_tail _ _ _ _ Hsuffix) as Hs1.
    destruct Hbody as (Hlast & Hpos & Hedge).
    destruct (setPattern_body pattern (mkLoop (Z.of_nat n) star (init ++ [last])))
      as [pos' star' nodes'] eqn:Hst'.
    simpl in Hlast, Hedge, Hpos.
    destruct (lastNodeIdx_inv nodes' _ Hlast) as (init' & last' & -> & Hk');
      [unfold vec_size; lia|].
    replace pos' with (Z.of_nat (S n)) in * by lia.
    destruct (IH _ star' init' last' fuel Hs1) as [run Hrun];
      [simpl in Hfuel; lia|done|done|].
    rewrite Hk' in Hrun.
    apply (spec_run_loop G (vec_size init)
             {| symbol := InputSymbol_of eAnyPathSegmentSymbol;
                nextNodeId := vec_size init |} w path run);
      [|done|by right|done].
    by apply Hedges, setPattern_loop_keeps_edges.
  - (* any other character *)
    destruct fuel as [|fuel]; [simpl in Hfuel; lia|].
    destruct (suffix_at_head _ _ _ _ Hsuffix) as [Hc Hlt].
    simpl setPattern_loop in Hedges, Hend.
    cbn [patternPos] in Hedges, Hend. rewrite Hlt in Hedges, Hend.
    pose proof (setPattern_body_cases pattern (Z.of_nat n) star init last) as Hbody.
    cbv zeta in Hbody. rewrite Hc in Hbody.
    rewrite (proj2 (Ascii.eqb_neq c PATH_SEPARATOR)) in Hbody by done.
    rewrite (proj2 (Ascii.eqb_neq c "?")) in Hbody by done.
    rewrite (proj2 (Ascii.eqb_neq c "*")) in Hbody by done.
    pose proof (suffix_at_tail _ _ _ _ Hsuffix) as Hs1.
    destruct Hbody as (Hlast & Hpos & Hedge).
    destruct (setPattern_body pattern (mkLoop (Z.of_nat n) star (init ++ [last])))
      as [pos' star' nodes'] eqn:Hst'.
    simpl in Hlast, Hedge, Hpos.
    destruct (lastNodeIdx_inv nodes' _ Hlast) as (init' & last' & -> & Hk');
      [unfold vec_size; lia|].
    replace pos' with (Z.of_nat (S n)) in * by lia.
    destruct (IH _ star' init' last' fuel Hs1) as [run Hrun];
      [simpl in Hfuel; lia|done|done|].
    rewrite Hk' in Hrun.
    eexists (_ :: run). apply (spec_run_step _ _ _
             {| symbol := {| stype := eOneSymbol; sym := c |};
                nextNodeId := vec_size init + 1 |}); [| |exact Hrun].
    + by apply Hedges, setPattern_loop_keeps_edges.
    + by apply InputSymbol_match_one.
Qed.

End GlobRun.

(** Every path the pattern is meant for is matched.  Read the pattern
    as the loop of [setPattern] does: a separator followed by "**"
    (and by one more separator, which is skipped with it) stands for
    the separator and any run of characters, a separator otherwise for
    itself, "?" for one character of a segment, "*" for a run of
    characters of a segment, any other character for itself.  For
    every non-empty path that is such a reading of the pattern, the
    machine compiled from the pattern returns true, whatever
    [std::sort] does with edges of equal priority. *)
Theorem every_reading_of_the_pattern_is_matched `{StdSort}
    (pattern path : string) :
  path ≠ EmptyString →
  glob pattern path →
  compile_and_match pattern path = Returned true.
Proof.
  intros Hpath Hglob.
  assert (Hp : pattern ≠ EmptyString).
  { intros ->. inversion Hglob. by subst. }
  destruct (compile_and_match_spec pattern path Hp Hpath) as (b & Hb & Hiff).
  rewrite Hb. f_equal. apply Hiff. unfold spec_accepts.
  cbn [setPattern nodesArray SimpleStateMachine_new].
  rewrite setPattern_nodes_nonempty by done. cbv zeta.
  destruct (setPattern_loop_appends (String.length pattern) pattern 0 (-1)
              [] [] Node_new) as (init & last & Hnodes & _); [constructor|].
  change ([] ++ [] ++ [Node_new]) with ([] ++ [Node_new]) in Hnodes.
  apply (glob_run pattern _ pattern path Hglob 0 (-1) [] Node_new
           (String.length pattern)).
  - apply suffix_at_whole.
  - done.
  - intros i e He. by apply has_edge_addEdge.
  - apply has_edge_addEdge_new. change (Z.of_nat 0) with 0.
    rewrite Hnodes. unfold lastNodeIdx, vec_size. simpl.
    rewrite length_app. simpl. lia.
Qed.

Lemma every_reading_of_the_pattern_is_matched_witness :
  "/src/lib/io/file.c"%string ≠ EmptyString ∧
  glob "/src/**/*.c" "/src/lib/io/file.c" ∧
  compile_and_match "/src/**/*.c" "/src/lib/io/file.c" = Returned true.
Proof.
  assert (Hglob : glob "/src/**/*.c" "/src/lib/io/file.c").
  { apply glob_separator; [reflexivity|].
    apply glob_char; [discriminate..|].
    apply glob_char; [discriminate..|].
    apply glob_char; [discriminate..|].
    apply (glob_separator_any_separator "*.c" "lib/io/" "file.c").
    apply (glob_star ".c" "file" ".c");
      [simpl; repeat split; discriminate|].
    apply glob_char; [discriminate..|].
    apply glob_char; [discriminate..|].
    apply glob_end. }
  split; [discriminate|]. split; [exact Hglob|].
  apply (every_reading_of_the_pattern_is_matched
           "/src/**/*.c" "/src/lib/io/file.c"); [discriminate|exact Hglob].
Defined.

(** ** Only readings of the pattern are matched *)

Section ScopeInv.
Context {sorter : StdSort}.

Lemma has_edge_lt nodes i e : has_edge nodes i e → 0 <= i < vec_size nodes.
Proof. intros (node & Hnode & _). by eapply vec_at_lt. Qed.

Lemma has_edge_addEdge_inv nodes fromNodeIdx s toNodeIdx i e :
  has_edge (addEdge nodes fromNodeIdx s toNodeIdx) i e →
  has_edge nodes i e ∨
  (i = fromNodeIdx ∧ e = {| symbol := s; nextNodeId := toNodeIdx |}).
Proof.
  unfold addEdge. destruct (Z.ltb_spec fromNodeIdx 0) as [Hf|Hf]; [by left|].
  intros (node & Hnode & He). apply vec_at_Some in Hnode as [Hi Hnode].
  destruct (decide (Z.to_nat fromNodeIdx = Z.to_nat i)) as [Heq|Hne].
  - rewrite Heq, list_lookup_alter_eq in Hnode.
    destruct (nodes !! Z.to_nat i) as [n0|] eqn:Hn0; [|done].
    simpl in Hnode. injection Hnode as <-. simpl in He.
    rewrite std_sort_perm in He. apply elem_of_app in He as [He|He].
    + left. exists n0. split; [|done]. by apply vec_at_Some.
    + right. apply list_elem_of_singleton in He. split; [lia|done].
  - left. rewrite list_lookup_alter_ne in Hnode by done.
    exists node. split; [|done]. by apply vec_at_Some.
Qed.

Lemma has_edge_push_inv nodes i e :
  has_edge (nodes ++ [Node_new]) i e → has_edge nodes i e.
Proof.
  intros (node & Hnode & He). apply vec_at_Some in Hnode as [Hi Hnode].
  apply lookup_app_Some in Hnode as [Hnode|[_ Hnode]].
  - exists node. split; [|done]. by apply vec_at_Some.
  - destruct (Z.to_nat i - length nodes)%nat; simpl in Hnode; [|done].
    injection Hnode as <-. simpl in He. by apply elem_of_nil in He.
Qed.

End ScopeInv.

Section BodyEdges.
Context {sorter : StdSort}.

(** The edges one iteration adds, case by case, and what it leaves in
    [previousStarNodeIdx]. *)
Lemma setPattern_body_edges pattern pos star init last :
  let c := str_at pattern pos in
  let k := vec_size init in
  let st' := setPattern_body pattern (mkLoop pos star (init ++ [last])) in
  let one s nodeId := {| symbol := s; nextNodeId := nodeId |} in
  let added (new : Z → Edge → Prop) :=
    ∀ i e, has_edge (loopNodes st') i e →
           has_edge (init ++ [last]) i e ∨ new i e in
  if Ascii.eqb c PATH_SEPARATOR then
    if symbolIs pattern (pos + 1) "*"%char && symbolIs pattern (pos + 2) "*"%char
    then previousStarNodeIdx st' = k + 1 ∧
         added (λ i e,
           (i = k ∧ e = one {| stype := eOneSymbol; sym := PATH_SEPARATOR |} (k + 1)) ∨
           (i = k + 1 ∧ e = one (InputSymbol_of eAnySymbol) (k + 1)))
    else previousStarNodeIdx st' = -1 ∧
         added (λ i e,
           i = k ∧ e = one {| stype := eOneSymbol; sym := PATH_SEPARATOR |} (k + 1))
  else if Ascii.eqb c "?"%char then
    previousStarNodeIdx st' = -1 ∧
    added (λ i e, i = k ∧ e = one (InputSymbol_of eAnyPathSegmentSymbol) (k + 1))
  else if Ascii.eqb c "*"%char then
    previousStarNodeIdx st' = k ∧
    added (λ i e, i = k ∧ e = one (InputSymbol_of eAnyPathSegmentSymbol) k)
  else
    previousStarNodeIdx st' = star ∧
    added (λ i e,
      (i = k ∧ e = one {| stype := eOneSymbol; sym := c |} (k + 1)) ∨
      (0 <= star ∧ i = k + 1 ∧
       e = one (InputSymbol_of eAnyPathSegmentSymbol) star)).
Proof.
  cbv zeta.
  assert (Hsize' : vec_size ((init ++ [last]) ++ [Node_new]) - 1 = vec_size init + 1).
  { unfold vec_size. rewrite !length_app. simpl. lia. }
  unfold setPattern_body, createNewNode. cbn [patternPos previousStarNodeIdx loopNodes].
  rewrite !addEdge_char_addEdge, !lastNodeIdx_snoc, Hsize'.
  repeat case_match; cbn [patternPos previousStarNodeIdx loopNodes];
    (split; [reflexivity|]); intros i e He;
    repeat match goal with
    | H : has_edge (addEdge _ _ _ _) _ _ |- _ =>
        apply has_edge_addEdge_inv in H as [H|[-> ->]]
    | H : has_edge (_ ++ [Node_new]) _ _ |- _ => apply has_edge_push_inv in H
    end;
    try (by left); right; try done; auto.
  - right. split; [|done]. by apply Z.leb_le.
Qed.

End BodyEdges.

Section ScopeStep.
Context {sorter : StdSort}.

Lemma scope_chars_grow nodes nodes' from to :
  scope_chars nodes from to →
  (∀ i e, from <= i <= to → has_edge nodes' i e →
     has_edge nodes i e ∨
     ((nextNodeId e = i + 1 → to <= i) ∧
      (nextNodeId e = i → InputSymbol_match (symbol e) PATH_SEPARATOR = false))) →
  scope_chars nodes' from to.
Proof.
  intros Hscope Hnew i e Hi He Hcond.
  destruct (Hnew i e Hi He) as [Hold|[Hnext Hloop]]; [by eapply Hscope|].
  destruct Hcond as [[Hn Hlt]|[Hn _]]; [specialize (Hnext Hn); lia|by apply Hloop].
Qed.

Lemma segment_symbol_separator s :
  stype s = eAnyPathSegmentSymbol →
  InputSymbol_match s PATH_SEPARATOR = false.
Proof. unfold InputSymbol_match. by intros ->. Qed.

Lemma scope_inv_step pos star nodes pos' star' nodes' k k' :
  lastNodeIdx nodes = k →
  lastNodeIdx nodes' = k' →
  scope_inv (mkLoop pos star nodes) →
  (∀ i e, has_edge nodes i e → has_edge nodes' i e) →
  (∀ i e, has_edge nodes' i e →
     has_edge nodes i e ∨ new_edge k k' star star' i e) →
  k <= k' →
  (0 <= star' →
   (star' = star ∧ k' = k + 1) ∨
   (star' = k' ∧ ∃ l, has_edge nodes' k' l ∧ loop_edge k' l)) →
  scope_inv (mkLoop pos' star' nodes').
Proof.
  intros Hkeq Hkeq' (Hk & Hedges & Hstar) Hmono Hnew Hkk' Hstar'.
  unfold edges_inv in Hedges.
  cbn [loopNodes previousStarNodeIdx] in *. rewrite Hkeq in Hk, Hedges, Hstar.
  assert (Hlast : ∀ e, has_edge nodes k e → nextNodeId e ≠ k + 1).
  { intros e He. destruct (Hedges _ _ He) as [[_ ?]|[[? _]|[? _]]]; lia. }
  assert (Hidx : ∀ i e, has_edge nodes i e → i <= k).
  { intros i e He. apply has_edge_lt in He. unfold lastNodeIdx in Hkeq. lia. }
  (* scopes that were closed stay closed *)
  assert (Hold : ∀ from to, to <= k →
            scope_chars nodes from to → scope_chars nodes' from to).
  { intros from to Hto Hscope. apply (scope_chars_grow nodes); [done|].
    intros i e Hi He.
    destruct (Hnew i e He) as [?|[(-> & Hn & _)|[(-> & Hn & Hs)|[(-> & _)|(-> & _)]]]];
      [by left|right..|lia|lia].
    - split; [lia|]. intros. lia.
    - split; [intros; lia|]. intros _. by apply segment_symbol_separator. }
  (* the scope of the star goes on to a new node *)
  assert (Hnext : 0 <= star → star' = star → k' = k + 1 →
            scope_chars nodes' star (k + 1)).
  { intros Hs Heq Hk'. destruct (Hstar Hs) as (Hle & _ & Hscope).
    intros i e Hi He Hcond.
    destruct (Hnew i e He)
      as [He'|[(-> & Hn & _ & Hm)|[(-> & Hn & Hseg)|[(-> & _ & ? & _)|(-> & _ & _ & _ & Hn & _)]]]].
    - pose proof (Hidx _ _ He') as Hik.
      destruct Hcond as [[Hn Hlt]|Hloop].
      + destruct (decide (i = k)) as [->|Hne]; [by apply Hlast in He'|].
        apply (Hscope i e); [lia|done|]. left. split; [done|lia].
      + apply (Hscope i e); [lia|done|by right].
    - apply Hm; lia.
    - by apply segment_symbol_separator.
    - lia.
    - destruct Hcond as [[? _]|[? _]]; lia. }
  unfold scope_inv, edges_inv. cbn [loopNodes previousStarNodeIdx].
  rewrite Hkeq'. split; [lia|]. split.
  - intros j e He.
    destruct (Hnew j e He)
      as [He'|[(-> & Hn & Hk' & _)|[(-> & Hn & Hseg)|[(-> & Hk' & _ & Hn & Hany)|(-> & Hk' & Hs & Heq & Hn & Hseg)]]]].
    + destruct (Hedges _ _ He') as [[Hn Hlt]|[Hloop|(Hn & Hseg & [l [Hl Hloop]] & Hscope)]].
      * left. split; [done|lia].
      * right. by left.
      * right. right. split; [done|]. split; [done|]. split.
        -- exists l. split; [by apply Hmono|done].
        -- apply Hold; [by eapply Hidx|done].
    + left. split; [done|lia].
    + right. left. split; [done|by right].
    + right. left. split; [done|by left].
    + right. right. destruct (Hstar Hs) as (Hle & [l [Hl Hloop]] & _).
      unfold back_edge. rewrite Hn. split; [lia|]. split; [done|]. split.
      * exists l. split; [by apply Hmono|done].
      * by apply Hnext.
  - intros Hs'.
    destruct (Hstar' Hs') as [[Heq Hk']|[Heq Hloop]].
    + rewrite Heq in Hs' |- *. destruct (Hstar Hs') as (Hle & [l [Hl Hloop]] & _).
      split; [lia|]. split.
      * exists l. split; [by apply Hmono|done].
      * rewrite Hk'. by apply Hnext.
    + rewrite Heq. split; [lia|]. split; [done|].
      intros i e Hi _ [[_ ?]|[_ ?]]; lia.
Qed.

End ScopeStep.

Section ScopeLoop.
Context {sorter : StdSort}.

Lemma scope_inv_body pattern st :
  scope_inv st → scope_inv (setPattern_body pattern st).
Proof.
  destruct st as [pos star nodes]. intros Hinv.
  destruct (lastNodeIdx_inv nodes _ eq_refl) as (init & last & -> & Hk);
    [apply Hinv|].
  clear Hk.
  pose proof (setPattern_body_cases pattern pos star init last) as Hcases.
  pose proof (setPattern_body_edges pattern pos star init last) as Hedges.
  pose proof (setPattern_body_keeps_edges pattern
                (mkLoop pos star (init ++ [last]))) as Hmono.
  cbv zeta in Hcases, Hedges.
  destruct (setPattern_body pattern (mkLoop pos star (init ++ [last])))
    as [pos' star' nodes'] eqn:Hbody.
  cbn [loopNodes patternPos previousStarNodeIdx] in Hcases, Hedges, Hmono.
  assert (Hc : Ascii.eqb (str_at pattern pos) PATH_SEPARATOR = false →
                 InputSymbol_match {| stype := eOneSymbol; sym := str_at pattern pos |}
                   PATH_SEPARATOR = false).
  { intros Hne. unfold InputSymbol_match. cbn [stype sym].
    by rewrite Ascii.eqb_sym. }
  apply (scope_inv_step pos star (init ++ [last]) pos' star' nodes'
           (vec_size init) (lastNodeIdx nodes'));
    [apply lastNodeIdx_snoc|done|done|done|..].
  - intros i e He. unfold new_edge.
    destruct (Ascii.eqb (str_at pattern pos) PATH_SEPARATOR) eqn:Hsep;
      [destruct (symbolIs pattern (pos + 1) "*" && symbolIs pattern (pos + 2) "*")|
       destruct (Ascii.eqb (str_at pattern pos) "?");
       [|destruct (Ascii.eqb (str_at pattern pos) "*")]];
      destruct Hedges as [Hstar' Hadd];
      (destruct (Hadd i e He) as [?|Hnew]; [by left|right]);
      simpl in Hnew; destruct_and? Hcases.
    all: try (destruct Hnew as [[-> ->]|Hnew]); try (destruct Hnew as [-> ->]);
      try (destruct Hnew as (? & -> & ->)); simpl.
    all: try (left; repeat split; [lia..|]; intros; try lia; by apply Hc).
    all: try (right; left; repeat split; done).
    all: try (right; right; left; repeat split; [lia..|done]).
    all: try (right; right; right; repeat split; [lia..|done]).
  - destruct (Ascii.eqb (str_at pattern pos) PATH_SEPARATOR);
      [destruct (symbolIs pattern (pos + 1) "*" && symbolIs pattern (pos + 2) "*")|
       destruct (Ascii.eqb (str_at pattern pos) "?");
       [|destruct (Ascii.eqb (str_at pattern pos) "*")]];
      destruct_and? Hcases; lia.
  - intros Hs'.
    destruct (Ascii.eqb (str_at pattern pos) PATH_SEPARATOR);
      [destruct (symbolIs pattern (pos + 1) "*" && symbolIs pattern (pos + 2) "*")|
       destruct (Ascii.eqb (str_at pattern pos) "?");
       [|destruct (Ascii.eqb (str_at pattern pos) "*")]];
      destruct Hedges as [Hstar' _]; destruct_and? Hcases; try lia.
    + right. split; [lia|]. eexists. split; [by replace (lastNodeIdx nodes') with (vec_size init + 1)|].
      split; [simpl; lia|by left].
    + right. split; [lia|]. eexists. split; [by replace (lastNodeIdx nodes') with (vec_size init)|].
      split; [simpl; lia|by right].
Qed.

Lemma scope_inv_loop fuel pattern st :
  scope_inv st → scope_inv (setPattern_loop fuel pattern st).
Proof.
  revert st. induction fuel as [|fuel IH]; intros st Hinv; simpl; [done|].
  destruct (int_lt_size _ _); [|done].
  by apply IH, scope_inv_body.
Qed.

Lemma scope_inv_init : scope_inv (mkLoop 0 (-1) ([] ++ [Node_new])).
Proof.
  split; [done|]. split; [|simpl; lia].
  intros j e (node & Hnode & He). apply vec_at_Some in Hnode as [_ Hnode].
  simpl in Hnode. destruct (Z.to_nat j); simpl in Hnode; [|done].
  injection Hnode as <-. by apply elem_of_nil in He.
Qed.

(** The edges of the graph of a pattern. *)
Lemma setPattern_graph_edges pattern :
  graph_edges (nodesArray (setPattern pattern SimpleStateMachine_new)).
Proof.
  destruct pattern as [|c pattern].
  { intros j e He. apply has_edge_lt in He. unfold vec_size in He. simpl in He. lia. }
  unfold setPattern. cbn [nodesArray SimpleStateMachine_new].
  rewrite setPattern_nodes_nonempty by done. cbv zeta.
  pose proof (scope_inv_loop (String.length (String c pattern)) (String c pattern)
                _ scope_inv_init) as (Hk & Hedges & _).
  set (nodes := loopNodes _) in *.
  intros j e He.
  assert (Hold : ∀ from to, scope_chars nodes from to →
            scope_chars (addEdge nodes (lastNodeIdx nodes)
                           (InputSymbol_of eEndOfLine) SUCCESS_NODE_IDX) from to).
  { intros from to Hscope. apply (scope_chars_grow nodes); [done|].
    intros i e' Hi He'. apply has_edge_addEdge_inv in He' as [?|[-> ->]];
      [by left|right].
    simpl. unfold SUCCESS_NODE_IDX. split; intros; lia. }
  apply has_edge_addEdge_inv in He as [He|[-> ->]].
  - destruct (Hedges _ _ He) as [[Hn _]|[Hloop|(Hn & Hseg & [l [Hl Hloop]] & Hscope)]].
    + by left.
    + right. by left.
    + right. right. left. split; [done|]. split; [done|]. split.
      * exists l. split; [by apply has_edge_addEdge|done].
      * by apply Hold.
  - right. right. right. done.
Qed.

End ScopeLoop.

Lemma spec_input_inside path p :
  0 <= p < str_length path →
  ∃ c, spec_input_at path p = Some c ∧ String.get (Z.to_nat p) path = Some c.
Proof.
  intros Hp. unfold spec_input_at.
  replace ((0 <=? p) && (p <? str_length path)) with true
    by (symmetry; apply andb_true_iff; split; [apply Z.leb_le|apply Z.ltb_lt]; lia).
  destruct (string_get_is_Some path (Z.to_nat p)) as [c Hc];
    [unfold str_length in Hp; lia|].
  by exists c.
Qed.

Lemma spec_input_range path p c :
  spec_input_at path p = Some c → 0 <= p <= str_length path.
Proof.
  unfold spec_input_at.
  destruct (Z.leb_spec 0 p), (Z.ltb_spec p (str_length path)); simpl;
    try (intros; lia);
    destruct (Z.eqb_spec p (str_length path)); try done; intros; unfold str_length in *; lia.
Qed.

Lemma spec_input_not_null path p c :
  spec_input_at path p = Some c → c ≠ END_OF_LINE → 0 <= p < str_length path.
Proof.
  intros Hc Hne. pose proof (spec_input_range _ _ _ Hc) as Hr.
  destruct (decide (p = str_length path)) as [->|]; [|lia].
  unfold spec_input_at in Hc.
  replace (str_length path <? str_length path) with false in Hc
    by (symmetry; apply Z.ltb_ge; lia).
  rewrite andb_false_r, Z.eqb_refl in Hc. congruence.
Qed.

Lemma segment_symbol_match s c :
  stype s = eAnyPathSegmentSymbol →
  InputSymbol_match s c = true → c ≠ PATH_SEPARATOR ∧ c ≠ END_OF_LINE.
Proof.
  unfold InputSymbol_match. intros ->. rewrite andb_true_iff, !negb_true_iff.
  intros [? ?]. split; by apply Ascii.eqb_neq.
Qed.

Lemma loop_edge_reads nodeIdx l c :
  loop_edge nodeIdx l → c ≠ PATH_SEPARATOR → c ≠ END_OF_LINE →
  InputSymbol_match (symbol l) c = true.
Proof.
  intros [_ [Hany|Hseg]] Hsep Hnull; unfold InputSymbol_match.
  - by rewrite Hany.
  - rewrite Hseg. apply andb_true_iff.
    split; apply negb_true_iff, Ascii.eqb_neq; done.
Qed.

Lemma scope_chars_shrink nodes from to :
  scope_chars nodes from (to + 1) → scope_chars nodes from to.
Proof.
  intros Hscope i e Hi He Hcond. apply (Hscope i e); [lia|done|].
  destruct Hcond as [[? ?]|?]; [left; split; [done|lia]|by right].
Qed.

Section Reaches.
Variable nodes : list Node.
Variable path : string.
Hypothesis Hgraph : graph_edges nodes.

Lemma reaches_nonneg nodeRef pos :
  reaches nodes path nodeRef pos → 0 <= nodeRef ∧ 0 <= pos.
Proof. induction 1; [done|]. lia. Qed.

(** A forward edge leads to the same node or to the next one. *)
Lemma forward_edge_next j e :
  has_edge nodes j e → j <= nextNodeId e →
  nextNodeId e = j + 1 ∨ loop_edge j e.
Proof.
  intros He Hle. pose proof (has_edge_lt _ _ _ He) as Hj.
  destruct (Hgraph _ _ He) as [?|[?|[[? _]|[? _]]]]; [by left|by right|lia|].
  unfold SUCCESS_NODE_IDX in *. lia.
Qed.

(** Whatever is read on the way from [from] to a later node in the same
    scope is no separator. *)
Lemma reaches_scope nodeRef pos :
  reaches nodes path nodeRef pos →
  ∀ from, 0 <= from <= nodeRef → scope_chars nodes from nodeRef →
    ∃ pos0, 0 <= pos0 <= pos ∧ reaches nodes path from pos0 ∧
      ∀ p c, pos0 <= p < pos → spec_input_at path p = Some c →
             c ≠ PATH_SEPARATOR.
Proof.
  induction 1 as [|nodeRef pos e c Hreach IH He Hle Hc Hm];
    intros from Hfrom Hscope.
  - exists 0. replace from with 0 by lia. split; [lia|].
    split; [constructor|]. intros; lia.
  - pose proof (reaches_nonneg _ _ Hreach) as [Hk Hpos].
    destruct (decide (from = nextNodeId e)) as [->|Hne].
    { exists (pos + 1). split; [lia|]. split; [by econstructor|]. intros; lia. }
    assert (Hnot : c ≠ PATH_SEPARATOR ∧ from <= nodeRef ∧
                   scope_chars nodes from nodeRef).
    { destruct (forward_edge_next _ _ He Hle) as [Hn|[Hn _]].
      - rewrite Hn in Hscope, Hfrom.
        split; [|split; [lia|by apply scope_chars_shrink]].
        intros ->. rewrite (Hscope nodeRef e) in Hm; [done|lia|done|].
        left. split; [done|lia].
      - rewrite Hn in Hscope, Hfrom, Hne.
        split; [|split; [lia|done]].
        intros ->. rewrite (Hscope nodeRef e) in Hm; [done|lia|done|].
        right. split; [done|lia]. }
    destruct Hnot as (Hsep & Hle' & Hscope').
    destruct (IH from ltac:(lia) Hscope') as (pos0 & Hpos0 & Hreach0 & Hchars).
    exists pos0. split; [lia|]. split; [done|].
    intros p d Hp Hd. destruct (decide (p = pos)) as [->|Hpp].
    + by replace d with c by congruence.
    + apply (Hchars p); [lia|done].
Qed.

Lemma loop_reaches nodeRef l :
  has_edge nodes nodeRef l → loop_edge nodeRef l →
  ∀ (n : nat) pos0,
    reaches nodes path nodeRef pos0 →
    (∀ p, pos0 <= p < pos0 + Z.of_nat n →
       ∃ c, spec_input_at path p = Some c ∧
            InputSymbol_match (symbol l) c = true) →
    reaches nodes path nodeRef (pos0 + Z.of_nat n).
Proof.
  intros Hl Hloop. induction n as [|n IH]; intros pos0 Hreach Hread.
  - by rewrite Z.add_0_r.
  - assert (Hn : reaches nodes path nodeRef (pos0 + Z.of_nat n)).
    { apply IH; [done|]. intros p Hp. apply Hread. lia. }
    destruct (Hread (pos0 + Z.of_nat n)) as (c & Hc & Hm); [lia|].
    pose proof (reaches_step _ _ _ _ l c Hn Hl) as Hstep.
    destruct Hloop as [Hnext _]. rewrite Hnext in Hstep.
    replace (pos0 + Z.of_nat (S n)) with (pos0 + Z.of_nat n + 1) by lia.
    apply Hstep; [lia|done|done].
Qed.

(** A run from a node that is reached without going back gives a run
    from node 0 that goes on as this one. *)
Lemma reaches_run nodeRef pos :
  reaches nodes path nodeRef pos →
  ∀ run, spec_run nodes path nodeRef pos run → forward_run nodeRef run →
    ∃ run', spec_run nodes path 0 0 run' ∧ forward_run 0 run'.
Proof.
  induction 1 as [|nodeRef pos e c Hreach IH He Hle Hc Hm]; intros run Hrun Hfwd.
  - by exists run.
  - apply (IH (e :: run)).
    + destruct He as (node & Hnode & He). simpl. by exists node, c.
    + simpl. split; [by right|done].
Qed.

Hypothesis Hnull : no_null path.

(** The edges that lead back can be left out of an accepting run. *)
Lemma back_edges_elim run :
  ∀ nodeRef pos,
    reaches nodes path nodeRef pos →
    spec_run nodes path nodeRef pos run →
    ∃ run', spec_run nodes path 0 0 run' ∧ forward_run 0 run'.
Proof.
  induction run as [|e run IH]; intros nodeRef pos Hreach Hrun.
  { simpl in Hrun. apply reaches_nonneg in Hreach.
    unfold SUCCESS_NODE_IDX in Hrun. lia. }
  pose proof (reaches_nonneg _ _ Hreach) as [Hk Hpos].
  destruct Hrun as (node & c & Hnode & He & Hc & Hm & Hrun).
  assert (Hedge : has_edge nodes nodeRef e) by (by exists node).
  destruct (Hgraph _ _ Hedge)
    as [Hn|[Hloop|[(Hn & Hseg & [l [Hl Hloop]] & Hscope)|[Hn Hend]]]].
  - apply (IH (nextNodeId e) (pos + 1)); [|done].
    apply (reaches_step nodes path nodeRef pos e c); [done|done|lia|done|done].
  - apply (IH (nextNodeId e) (pos + 1)); [|done].
    apply (reaches_step nodes path nodeRef pos e c); [done|done|destruct Hloop; lia|done|done].
  - apply (IH (nextNodeId e) (pos + 1)); [|done].
    destruct (segment_symbol_match _ _ Hseg Hm) as [Hsep Hnul].
    pose proof (spec_input_not_null _ _ _ Hc Hnul) as Hin.
    destruct (reaches_scope _ _ Hreach (nextNodeId e) ltac:(lia) Hscope)
      as (pos0 & Hpos0 & Hreach0 & Hchars).
    replace (pos + 1) with (pos0 + Z.of_nat (Z.to_nat (pos + 1 - pos0))) by lia.
    apply (loop_reaches _ l Hl Hloop); [done|].
    intros p Hp. destruct (decide (p = pos)) as [->|Hpp].
    + exists c. split; [done|]. by apply (loop_edge_reads (nextNodeId e)).
    + destruct (spec_input_inside path p) as (d & Hd & Hget); [lia|].
      exists d. split; [done|]. apply (loop_edge_reads (nextNodeId e)); [done| |].
      * apply (Hchars p); [lia|done].
      * intros ->. by apply (no_null_get _ _ Hnull) in Hget.
  - rewrite Hn in Hrun. apply spec_run_from_success in Hrun. subst run.
    apply (reaches_run _ _ Hreach [e]).
    + simpl. exists node, c. by rewrite Hn.
    + simpl. split; [by left|done].
Qed.

(** A run that does not go back, read as a string from its node. *)
Lemma forward_run_reads run :
  ∀ nodeRef n s,
    0 <= nodeRef →
    suffix_at path n s →
    spec_run nodes path nodeRef (Z.of_nat n) run →
    forward_run nodeRef run →
    reads_forward nodes nodeRef s.
Proof.
  induction run as [|e run IH]; intros nodeRef n s Hk Hsuffix Hrun Hfwd.
  { simpl in Hrun. unfold SUCCESS_NODE_IDX in Hrun. lia. }
  destruct Hrun as (node & c & Hnode & He & Hc & Hm & Hrun).
  destruct Hfwd as [Hnext Hfwd].
  assert (Hedge : has_edge nodes nodeRef e) by (by exists node).
  assert (Hlen : String.length path = (n + String.length s)%nat) by apply Hsuffix.
  destruct (decide (nextNodeId e = SUCCESS_NODE_IDX)) as [Hsucc|Hsucc].
  - assert (Hend : stype (symbol e) = eEndOfLine).
    { destruct (Hgraph _ _ Hedge) as [?|[[? _]|[[? _]|[_ ?]]]];
        unfold SUCCESS_NODE_IDX in *; try lia; done. }
    unfold InputSymbol_match in Hm. rewrite Hend in Hm.
    apply Ascii.eqb_eq in Hm. subst c.
    apply (no_null_end _ _ Hnull) in Hc. unfold str_length in Hc.
    destruct s; [|simpl in Hlen; lia].
    by apply (reads_end _ _ e).
  - destruct Hnext as [?|Hnext]; [done|].
    destruct s as [|d s].
    + exfalso. simpl in Hlen.
      destruct run as [|e' run]; [by simpl in Hrun|].
      destruct Hrun as (_ & c' & _ & _ & Hc' & _).
      apply spec_input_range in Hc'. unfold str_length in Hc'. lia.
    + destruct (suffix_at_head _ _ _ _ Hsuffix) as [Hd _].
      assert (c = d) as ->.
      { destruct (spec_input_inside path (Z.of_nat n)) as (c' & Hc' & Hget);
          [unfold str_length; simpl in Hlen; lia|].
        unfold str_at in Hd. rewrite Hget in Hd. congruence. }
      apply (reads_step _ _ e); [done|done|done|].
      apply (IH _ (S n)); [lia|by eapply suffix_at_tail| |done].
      by replace (Z.of_nat (S n)) with (Z.of_nat n + 1) by lia.
Qed.

End Reaches.

Section Frozen.
Context {sorter : StdSort}.

(** An iteration of the loop touches the last node and the node it
    appends, no other. *)
Lemma setPattern_body_frozen pattern st i e :
  i < lastNodeIdx (loopNodes st) →
  has_edge (loopNodes (setPattern_body pattern st)) i e →
  has_edge (loopNodes st) i e.
Proof.
  intros Hi. unfold setPattern_body, createNewNode.
  rewrite !addEdge_char_addEdge.
  repeat case_match; cbn [loopNodes]; intros He;
    repeat match goal with
    | H : has_edge (addEdge _ _ _ _) _ _ |- _ =>
        apply has_edge_addEdge_inv in H as [H|[Heq _]];
        [|unfold lastNodeIdx in *; rewrite ?vec_size_push in *; lia]
    | H : has_edge (_ ++ [Node_new]) _ _ |- _ => apply has_edge_push_inv in H
    end; done.
Qed.

Lemma lastNodeIdx_body_mono pattern st :
  lastNodeIdx (loopNodes st) <= lastNodeIdx (loopNodes (setPattern_body pattern st)).
Proof.
  pose proof (setPattern_body_size pattern st) as [Hsize _].
  unfold lastNodeIdx. lia.
Qed.

Lemma lastNodeIdx_loop_mono fuel pattern st :
  lastNodeIdx (loopNodes st)
    <= lastNodeIdx (loopNodes (setPattern_loop fuel pattern st)).
Proof.
  revert st. induction fuel as [|fuel IH]; intros st; simpl; [lia|].
  destruct (int_lt_size _ _); [|lia].
  pose proof (lastNodeIdx_body_mono pattern st).
  specialize (IH (setPattern_body pattern st)). lia.
Qed.

Lemma setPattern_loop_frozen fuel pattern st i e :
  i < lastNodeIdx (loopNodes st) →
  has_edge (loopNodes (setPattern_loop fuel pattern st)) i e →
  has_edge (loopNodes st) i e.
Proof.
  revert st. induction fuel as [|fuel IH]; intros st Hi; simpl; [done|].
  destruct (int_lt_size _ _); [|done].
  intros He. apply (setPattern_body_frozen pattern); [done|].
  apply IH; [|done]. pose proof (lastNodeIdx_body_mono pattern st). lia.
Qed.

End Frozen.

Lemma loops_read_none nodes nodeRef w :
  (∀ e, has_edge nodes nodeRef e → ¬ loop_edge nodeRef e) →
  loops_read nodes nodeRef w → w = EmptyString.
Proof.
  intros Hnone. destruct w as [|c w]; [done|].
  intros [(e & He & Hloop & _) _]. by apply Hnone in He.
Qed.

Lemma loops_read_any nodes nodeRef a w :
  has_edge nodes nodeRef a → loop_edge nodeRef a →
  stype (symbol a) = eAnySymbol →
  loops_read nodes nodeRef w.
Proof.
  intros Ha Hloop Hany. induction w as [|c w IH]; simpl; [done|].
  split; [|done]. exists a. split; [done|]. split; [done|].
  unfold InputSymbol_match. by rewrite Hany.
Qed.

(** With one more loop edge for the characters of a segment, the loop
    edges read what they read before or a run of characters of a
    segment. *)
Lemma loops_read_star nodes nodes' nodeRef w :
  (∀ e, has_edge nodes' nodeRef e →
        has_edge nodes nodeRef e ∨ stype (symbol e) = eAnyPathSegmentSymbol) →
  loops_read nodes' nodeRef w →
  loops_read nodes nodeRef w ∨ segment_chars w.
Proof.
  intros Hnew Hread.
  assert (Hany : (∃ a, has_edge nodes nodeRef a ∧ loop_edge nodeRef a ∧
                       stype (symbol a) = eAnySymbol) ∨ segment_chars w).
  { induction w as [|c w IH]; [by right|].
    destruct Hread as [(e & He & Hloop & Hm) Hread].
    destruct (IH Hread) as [?|Hseg]; [by left|].
    assert (Hc : stype (symbol e) = eAnyPathSegmentSymbol →
                 segment_chars (String c w)).
    { intros Hs. destruct (segment_symbol_match _ _ Hs Hm). by split. }
    destruct (Hnew e He) as [Hold|Hs]; [|right; by apply Hc].
    destruct Hloop as [Hn [Ha|Hs]]; [|right; by apply Hc].
    left. exists e. split; [done|]. split; [|done]. split; [done|by left]. }
  destruct Hany as [(a & Ha & Hloop & Hany)|Hseg]; [left|by right].
  by apply (loops_read_any _ _ a).
Qed.

Section ForwardReading.
Context {sorter : StdSort}.
Variable pattern : string.
Variable G : list Node.

(** What is read from the last node of the graph under construction:
    first by its loop edges, then by an edge that is added later. *)
Lemma reads_at_node nodes rest (exit : Edge → Prop) :
  edges_inv nodes →
  (∀ e, has_edge G (lastNodeIdx nodes) e →
        has_edge nodes (lastNodeIdx nodes) e ∨ exit e) →
  (∀ e, exit e → nextNodeId e = SUCCESS_NODE_IDX → glob rest EmptyString) →
  (∀ e c s, exit e → InputSymbol_match (symbol e) c = true →
            reads_forward G (nextNodeId e) s → glob rest (String c s)) →
  ∀ s, reads_forward G (lastNodeIdx nodes) s →
    ∃ w p, s = String.append w p ∧
           loops_read nodes (lastNodeIdx nodes) w ∧ glob rest p.
Proof.
  intros Hinv Hedges Hend Hstep.
  assert (Hold : ∀ e, has_edge nodes (lastNodeIdx nodes) e →
            loop_edge (lastNodeIdx nodes) e ∨ 0 <= nextNodeId e < lastNodeIdx nodes).
  { intros e He. destruct (Hinv _ _ He) as [[_ ?]|[?|[? _]]]; [lia|by left|by right]. }
  induction s as [|c s IH]; intros Hreads; inversion Hreads as [? e He Hn Hs|? e ? ? He Hle Hm Hrest]; subst.
  - destruct (Hedges e He) as [He'|Hexit].
    + pose proof (has_edge_lt _ _ _ He').
      destruct (Hold e He') as [[? _]|?]; unfold SUCCESS_NODE_IDX in *; lia.
    + exists EmptyString, EmptyString. split; [done|]. split; [done|]. by eapply Hend.
  - destruct (Hedges e He) as [He'|Hexit].
    + destruct (Hold e He') as [Hloop|?]; [|lia].
      destruct (IH ltac:(by rewrite <- (proj1 Hloop))) as (w & p & -> & Hw & Hp).
      exists (String c w), p. split; [done|]. split; [|done].
      split; [|done]. by exists e.
    + exists EmptyString, (String c s). split; [done|]. split; [done|].
      by eapply Hstep.
Qed.

End ForwardReading.

Lemma reads_forward_nonneg nodes nodeRef s :
  reads_forward nodes nodeRef s → 0 <= nodeRef.
Proof. intros Hreads. inversion Hreads as [? e He|? e ? ? He]; apply has_edge_lt in He; lia. Qed.

Lemma symbolIs_empty c : c ≠ END_OF_LINE → symbolIs EmptyString 0 c = false.
Proof.
  intros Hc. destruct (symbolIs EmptyString 0 c) eqn:Hs; [|done].
  apply symbolIs_true in Hs as [[_ Hget]|[_ ->]]; done.
Qed.

Section ForwardGlob.
Context {sorter : StdSort}.
Variable pattern : string.
Variable G : list Node.

Lemma finished_frozen fuel st i e :
  finished pattern G fuel st → i < lastNodeIdx (loopNodes st) →
  has_edge G i e → has_edge (loopNodes st) i e.
Proof.
  intros Hfin Hi He. pose proof (lastNodeIdx_loop_mono fuel pattern st) as Hmono.
  destruct (Hfin i e He) as [He'|[? _]]; [|lia].
  by apply (setPattern_loop_frozen fuel pattern).
Qed.

Lemma reads_at_end fuel n star init last :
  suffix_at pattern n EmptyString →
  scope_inv (mkLoop (Z.of_nat n) star (init ++ [last])) →
  finished pattern G fuel (mkLoop (Z.of_nat n) star (init ++ [last])) →
  ∀ s, reads_forward G (vec_size init) s →
    ∃ w p, s = String.append w p ∧
           loops_read (init ++ [last]) (vec_size init) w ∧ glob EmptyString p.
Proof.
  intros Hsuffix Hinv Hfin.
  assert (Hstay : setPattern_loop fuel pattern
                    (mkLoop (Z.of_nat n) star (init ++ [last]))
                  = mkLoop (Z.of_nat n) star (init ++ [last])).
  { destruct fuel; simpl; [done|]. by rewrite (suffix_at_end _ _ Hsuffix). }
  unfold finished in Hfin. rewrite Hstay in Hfin. cbn [loopNodes] in Hfin.
  rewrite <- (lastNodeIdx_snoc init last).
  apply (reads_at_node G (init ++ [last]) EmptyString
           (λ e, e = {| symbol := InputSymbol_of eEndOfLine;
                        nextNodeId := SUCCESS_NODE_IDX |})).
  - apply Hinv.
  - intros e He. destruct (Hfin _ _ He) as [?|[_ ->]]; [by left|by right].
  - intros. constructor.
  - intros e c s -> _ Hreads. apply reads_forward_nonneg in Hreads.
    simpl in Hreads. unfold SUCCESS_NODE_IDX in Hreads. lia.
Qed.

Lemma forward_reading fuel :
  ∀ rest n star init last,
    suffix_at pattern n rest →
    (String.length rest <= fuel)%nat →
    scope_inv (mkLoop (Z.of_nat n) star (init ++ [last])) →
    finished pattern G fuel (mkLoop (Z.of_nat n) star (init ++ [last])) →
    ∀ s, reads_forward G (vec_size init) s →
      ∃ w p, s = String.append w p ∧
             loops_read (init ++ [last]) (vec_size init) w ∧ glob rest p.
Proof.
  induction fuel as [|fuel IH]; intros rest n star init last Hsuffix Hfuel Hinv Hfin.
  { destruct rest; [|simpl in Hfuel; lia]. by eapply reads_at_end. }
  destruct rest as [|c rest]; [by eapply reads_at_end|].
  destruct (suffix_at_head _ _ _ _ Hsuffix) as [Hc Hlt].
  pose proof (suffix_at_tail _ _ _ _ Hsuffix) as Hs1.
  unfold finished in Hfin. simpl setPattern_loop in Hfin.
  cbn [patternPos] in Hfin. rewrite Hlt in Hfin.
  change (finished pattern G fuel
            (setPattern_body pattern (mkLoop (Z.of_nat n) star (init ++ [last]))))
    in Hfin.
  pose proof (setPattern_body_cases pattern (Z.of_nat n) star init last) as Hcases.
  pose proof (setPattern_body_edges pattern (Z.of_nat n) star init last) as Hadd.
  pose proof (scope_inv_body pattern _ Hinv) as Hinv'.
  cbv zeta in Hcases, Hadd. rewrite Hc in Hcases, Hadd.
  destruct (setPattern_body pattern (mkLoop (Z.of_nat n) star (init ++ [last])))
    as [pos' star' nodes'] eqn:Hst'.
  cbn [loopNodes patternPos previousStarNodeIdx] in Hcases, Hadd.
  assert (Hk : 0 <= vec_size init) by (unfold vec_size; lia).
  assert (Hstar : 0 <= star → star <= vec_size init).
  { intros Hs. destruct Hinv as (_ & _ & Hstar). cbn in Hstar.
    rewrite lastNodeIdx_snoc in Hstar. by apply Hstar. }
  assert (Hout : ∀ e, ¬ has_edge (init ++ [last]) (vec_size init + 1) e).
  { intros e He. apply has_edge_lt in He. unfold vec_size in *.
    rewrite length_app in He. simpl in He. lia. }
  (* what is read from the node a step appends *)
  assert (Hgo : ∀ rest' n',
            suffix_at pattern n' rest' → (String.length rest' <= fuel)%nat →
            pos' = Z.of_nat n' →
            ∀ s, reads_forward G (lastNodeIdx nodes') s →
              ∃ w p, s = String.append w p ∧
                     loops_read nodes' (lastNodeIdx nodes') w ∧ glob rest' p).
  { intros rest' n' Hs' Hlen' ->.
    assert (Hlast : 0 <= lastNodeIdx nodes') by apply Hinv'.
    destruct (lastNodeIdx_inv nodes' _ eq_refl Hlast) as (init' & last' & -> & Hk').
    rewrite <- Hk'. by apply (IH rest' n' star' init' last'). }
  (* the edges of the node that was the last one, when a node is appended *)
  assert (Hnode : lastNodeIdx nodes' = vec_size init + 1 →
            ∀ e, has_edge G (vec_size init) e → has_edge nodes' (vec_size init) e).
  { intros Hlast e He. apply (finished_frozen fuel (mkLoop pos' star' nodes'));
      [done|cbn [loopNodes]; lia|done]. }
  rewrite <- (lastNodeIdx_snoc init last).
  destruct (Ascii.eqb_spec c PATH_SEPARATOR) as [->|Hsep].
  - (* separator *)
    destruct Hcases as (Hlast & _ & Hcases).
    replace (Z.of_nat n + 1) with (Z.of_nat (S n) + Z.of_nat 0) in Hcases, Hadd by lia.
    replace (Z.of_nat n + 2) with (Z.of_nat (S n) + Z.of_nat 1) in Hcases, Hadd by lia.
    rewrite !(suffix_at_symbolIs _ _ _ _ _ Hs1) in Hcases, Hadd.
    change (Z.of_nat 0) with 0 in Hcases, Hadd.
    change (Z.of_nat 1) with 1 in Hcases, Hadd.
    destruct (symbolIs rest 0 "*" && symbolIs rest 1 "*") eqn:Hss.
    + (* "**" behind it *)
      destruct Hcases as [_ Hpos], Hadd as [_ Hadd].
      apply andb_true_iff in Hss as [Hs0 Hs1'].
      destruct rest as [|a rest]; [by rewrite symbolIs_empty in Hs0|].
      rewrite symbolIs_first in Hs0. apply Ascii.eqb_eq in Hs0. subst a.
      pose proof (suffix_at_tail _ _ _ _ Hs1) as Hs2.
      change 1 with (Z.of_nat 1) in Hs1'.
      rewrite <- (suffix_at_symbolIs _ _ _ 1 _ Hs1) in Hs1'.
      replace (Z.of_nat (S n) + Z.of_nat 1) with (Z.of_nat (S (S n)) + Z.of_nat 0)
        in Hs1' by lia.
      rewrite (suffix_at_symbolIs _ _ _ _ _ Hs2) in Hs1'.
      change (Z.of_nat 0) with 0 in Hs1'.
      destruct rest as [|a rest]; [by rewrite symbolIs_empty in Hs1'|].
      rewrite symbolIs_first in Hs1'. apply Ascii.eqb_eq in Hs1'. subst a.
      pose proof (suffix_at_tail _ _ _ _ Hs2) as Hs3.
      replace (Z.of_nat n + 3) with (Z.of_nat (S (S (S n))) + Z.of_nat 0) in Hpos by lia.
      rewrite (suffix_at_symbolIs _ _ _ _ _ Hs3) in Hpos.
      change (Z.of_nat 0) with 0 in Hpos.
      apply (reads_at_node G (init ++ [last]) _
               (λ e, e = {| symbol := {| stype := eOneSymbol; sym := PATH_SEPARATOR |};
                            nextNodeId := vec_size init + 1 |})).
      * apply Hinv.
      * rewrite lastNodeIdx_snoc. intros e He.
        destruct (Hadd _ _ (Hnode Hlast e He)) as [?|[[_ ->]|[? _]]];
          [by left|by right|lia].
      * intros e -> Hn. simpl in Hn. unfold SUCCESS_NODE_IDX in Hn. lia.
      * intros e d s -> Hm Hreads. apply InputSymbol_match_one in Hm. subst d.
        cbn [nextNodeId] in Hreads. rewrite <- Hlast in Hreads.
        destruct (symbolIs rest 0 PATH_SEPARATOR) eqn:Hs3'.
        -- destruct rest as [|a rest]; [by rewrite symbolIs_empty in Hs3'|].
           rewrite symbolIs_first in Hs3'. apply Ascii.eqb_eq in Hs3'. subst a.
           pose proof (suffix_at_tail _ _ _ _ Hs3) as Hs4.
           destruct (Hgo rest (S (S (S (S n)))) Hs4) with (s := s) as (w & p & -> & _ & Hp);
             [simpl in Hfuel; lia|lia|done|].
           by apply glob_separator_any_separator.
        -- destruct (Hgo rest (S (S (S n))) Hs3) with (s := s) as (w & p & -> & _ & Hp);
             [simpl in Hfuel; lia|lia|done|].
           by apply glob_separator_any.
    + (* no "**" behind it *)
      rename Hcases into Hpos. destruct Hadd as [_ Hadd].
      apply (reads_at_node G (init ++ [last]) _
               (λ e, e = {| symbol := {| stype := eOneSymbol; sym := PATH_SEPARATOR |};
                            nextNodeId := vec_size init + 1 |})).
      * apply Hinv.
      * rewrite lastNodeIdx_snoc. intros e He.
        destruct (Hadd _ _ (Hnode Hlast e He)) as [?|[_ ->]]; [by left|by right].
      * intros e -> Hn. simpl in Hn. unfold SUCCESS_NODE_IDX in Hn. lia.
      * intros e d s -> Hm Hreads. apply InputSymbol_match_one in Hm. subst d.
        cbn [nextNodeId] in Hreads. rewrite <- Hlast in Hreads.
        destruct (Hgo rest (S n) Hs1) with (s := s) as (w & p & -> & Hw & Hp);
          [simpl in Hfuel; lia|lia|done|].
        apply loops_read_none in Hw as ->; [by apply glob_separator|].
        rewrite Hlast. intros e He [Hn _].
        destruct (Hadd _ _ He) as [He'|[? _]]; [by apply Hout in He'|lia].
  - destruct (Ascii.eqb_spec c "?") as [->|Hq].
    + (* "?" *)
      destruct Hcases as (Hlast & Hpos & _), Hadd as [_ Hadd].
      apply (reads_at_node G (init ++ [last]) _
               (λ e, e = {| symbol := InputSymbol_of eAnyPathSegmentSymbol;
                            nextNodeId := vec_size init + 1 |})).
      * apply Hinv.
      * rewrite lastNodeIdx_snoc. intros e He.
        destruct (Hadd _ _ (Hnode Hlast e He)) as [?|[_ ->]]; [by left|by right].
      * intros e -> Hn. simpl in Hn. unfold SUCCESS_NODE_IDX in Hn. lia.
      * intros e d s -> Hm Hreads.
        apply segment_symbol_match in Hm as [Hd Hd']; [|done].
        cbn [nextNodeId] in Hreads. rewrite <- Hlast in Hreads.
        destruct (Hgo rest (S n) Hs1) with (s := s) as (w & p & -> & Hw & Hp);
          [simpl in Hfuel; lia|lia|done|].
        apply loops_read_none in Hw as ->; [by apply glob_question|].
        rewrite Hlast. intros e He [Hn _].
        destruct (Hadd _ _ He) as [He'|[? _]]; [by apply Hout in He'|lia].
    + destruct (Ascii.eqb_spec c "*") as [->|Hstarc].
      * (* "*" *)
        destruct Hcases as (Hlast & Hpos & _), Hadd as [_ Hadd].
        rewrite lastNodeIdx_snoc. intros s Hreads. rewrite <- Hlast in Hreads.
        destruct (Hgo rest (S n) Hs1) with (s := s) as (w & p & -> & Hw & Hp);
          [simpl in Hfuel; lia|lia|done|].
        rewrite Hlast in Hw.
        apply (loops_read_star (init ++ [last])) in Hw as [Hw|Hw].
        -- exists w, p. split; [done|]. split; [done|].
           by apply (glob_star rest EmptyString p).
        -- exists EmptyString, (String.append w p). split; [done|].
           split; [done|]. by apply glob_star.
        -- intros e He. destruct (Hadd _ _ He) as [?|[_ ->]]; [by left|by right].
      * (* any other character *)
        destruct Hcases as (Hlast & Hpos & _), Hadd as [_ Hadd].
        apply (reads_at_node G (init ++ [last]) _
                 (λ e, e = {| symbol := {| stype := eOneSymbol; sym := c |};
                              nextNodeId := vec_size init + 1 |})).
        -- apply Hinv.
        -- rewrite lastNodeIdx_snoc. intros e He.
           destruct (Hadd _ _ (Hnode Hlast e He)) as [?|[[_ ->]|(_ & ? & _)]];
             [by left|by right|lia].
        -- intros e -> Hn. simpl in Hn. unfold SUCCESS_NODE_IDX in Hn. lia.
        -- intros e d s -> Hm Hreads. apply InputSymbol_match_one in Hm. subst d.
           cbn [nextNodeId] in Hreads. rewrite <- Hlast in Hreads.
           destruct (Hgo rest (S n) Hs1) with (s := s) as (w & p & -> & Hw & Hp);
             [simpl in Hfuel; lia|lia|done|].
           apply loops_read_none in Hw as ->; [by apply glob_char|].
           rewrite Hlast. intros e He [Hn _].
           destruct (Hadd _ _ He) as [He'|[[? _]|(Hs & _ & ->)]];
             [by apply Hout in He'|lia|].
           simpl in Hn. specialize (Hstar Hs). lia.
Qed.

End ForwardGlob.

(** The edges that lead back to the node of a "*" or "**" (the second
    [addEdge] of the [default] case of [setPattern]) add no match: a
    path without null character that has an accepting run in the graph
    of a pattern has an accepting run in which no edge leads back to an
    earlier node. *)
Theorem edges_back_add_no_match `{StdSort} (pattern path : string) (run : list Edge) :
  no_null path →
  spec_run (nodesArray (setPattern pattern SimpleStateMachine_new)) path 0 0 run →
  ∃ run',
    spec_run (nodesArray (setPattern pattern SimpleStateMachine_new)) path 0 0 run' ∧
    forward_run 0 run'.
Proof.
  intros Hnull Hrun.
  apply (back_edges_elim _ path (setPattern_graph_edges pattern) Hnull run 0 0);
    [constructor|done].
Qed.

Lemma edges_back_add_no_match_witness :
  no_null "/xab" ∧
  ∃ run',
    spec_run (nodesArray (setPattern "/*ab" SimpleStateMachine_new)) "/xab" 0 0 run' ∧
    forward_run 0 run'.
Proof.
  assert (Hnull : no_null "/xab") by (simpl; repeat split; discriminate).
  split; [exact Hnull|].
  destruct (compile_and_match_spec "/*ab" "/xab") as (b & Hb & Hiff);
    [discriminate|discriminate|].
  assert (Hmatch : compile_and_match "/*ab" "/xab" = Returned true)
    by (vm_compute; reflexivity).
  rewrite Hmatch in Hb. injection Hb as <-.
  destruct (proj1 Hiff eq_refl) as [run Hrun].
  exact (edges_back_add_no_match "/*ab" "/xab" run Hnull Hrun).
Defined.

(** Only the paths the pattern is meant for are matched: if the
    machine compiled from a pattern returns true for a path without
    null character, the path is a reading of the pattern, in the
    reading of [setPattern]'s loop ([glob]). *)
Theorem matched_path_is_a_reading_of_the_pattern `{StdSort}
    (pattern path : string) :
  no_null path →
  compile_and_match pattern path = Returned true →
  glob pattern path.
Proof.
  intros Hnull Hmatch.
  destruct path as [|d path]; [done|].
  destruct pattern as [|c pattern]; [done|].
  destruct (compile_and_match_spec (String c pattern) (String d path))
    as (b & Hb & Hiff); [done|done|].
  rewrite Hmatch in Hb. injection Hb as <-.
  destruct (proj1 Hiff eq_refl) as [run Hrun].
  destruct (back_edges_elim _ _ (setPattern_graph_edges (String c pattern))
              Hnull run 0 0 ltac:(constructor) Hrun) as (run' & Hrun' & Hfwd).
  pose proof (forward_run_reads _ _ (setPattern_graph_edges (String c pattern))
                Hnull run' 0 0%nat (String d path) ltac:(done)
                (suffix_at_whole _) Hrun' Hfwd) as Hreads.
  revert Hreads. unfold setPattern. cbn [nodesArray SimpleStateMachine_new].
  rewrite setPattern_nodes_nonempty by done. cbv zeta. intros Hreads.
  match type of Hreads with
  | reads_forward ?G _ _ =>
      destruct (forward_reading (String c pattern) G
                  (String.length (String c pattern)) (String c pattern) 0 (-1)
                  [] Node_new (suffix_at_whole _) ltac:(done) scope_inv_init)
        with (s := String d path) as (w & p & Heq & Hw & Hp)
  end.
  - intros i e He. by apply has_edge_addEdge_inv in He.
  - exact Hreads.
  - apply loops_read_none in Hw as ->; [by rewrite Heq|].
    intros e (node & Hnode & He) _. simpl in Hnode. injection Hnode as <-.
    by apply elem_of_nil in He.
Qed.

Lemma matched_path_is_a_reading_of_the_pattern_witness :
  no_null "/src/io/a.c" ∧
  compile_and_match "/src/**/?.c" "/src/io/a.c" = Returned true ∧
  glob "/src/**/?.c" "/src/io/a.c".
Proof.
  assert (Hnull : no_null "/src/io/a.c") by (simpl; repeat split; discriminate).
  assert (Hmatch : compile_and_match "/src/**/?.c" "/src/io/a.c" = Returned true)
    by (vm_compute; reflexivity).
  split; [exact Hnull|]. split; [exact Hmatch|].
  exact (matched_path_is_a_reading_of_the_pattern
           "/src/**/?.c" "/src/io/a.c" Hnull Hmatch).
Defined.

